(** * PRD Studio: a shallow embedding of the document-refinement core

    The development follows the Python sources module by module:

    - [PyStr]            Python [str] values and the string methods the code uses;
    - [hashlib]          UTF-8 encoding and the MD5 digest behind [save_version];
    - [version_manager]  [save_version] and [show_diff];
    - [re_model]         the fragment of [re] that the score pattern needs;
    - [gemini_client]    the critique / refine pipeline over an explicit world;
    - [utils]            the export helpers and [create_prd_zip].

    A Python [str] is a sequence of Unicode code points; we keep that
    representation (a list of integers) so that [len], slicing, [in] and the
    regular-expression classes mean what they mean in Python. *)

From Stdlib Require Import ZArith NArith List String Ascii Lia Bool.
From Stdlib Require QArith.
From stdpp Require Import base tactics option list numbers gmap.

Local Open Scope Z_scope.

(* ===================================================================== *)
(** ** Python strings *)
(* ===================================================================== *)

Module PyStr.

(** A code point. Python admits 0 .. 0x10FFFF, lone surrogates included. *)
Definition char := Z.
Definition str := list char.

Definition is_surrogate (c : char) : bool := (0xD800 <=? c) && (c <=? 0xDFFF).

(** *** Literals

    Source literals are written as Rocq strings (UTF-8 bytes) and decoded to
    code points once, so the Chinese labels read as they do in the source. *)

Definition byte_of_ascii (a : ascii) : Z := Z.of_N (N_of_ascii a).

Definition cont (b : Z) : Z := Z.land b 0x3F.

Fixpoint decode_utf8 (bs : list Z) : str :=
  match bs with
  | [] => []
  | b0 :: r0 =>
      if b0 <? 0x80 then b0 :: decode_utf8 r0
      else if b0 <? 0xE0 then
        match r0 with
        | b1 :: r1 => (Z.land b0 0x1F * 64 + cont b1) :: decode_utf8 r1
        | [] => []
        end
      else if b0 <? 0xF0 then
        match r0 with
        | b1 :: b2 :: r2 =>
            (Z.land b0 0x0F * 4096 + cont b1 * 64 + cont b2) :: decode_utf8 r2
        | _ => []
        end
      else
        match r0 with
        | b1 :: b2 :: b3 :: r3 =>
            (Z.land b0 0x07 * 262144 + cont b1 * 4096 + cont b2 * 64 + cont b3)
              :: decode_utf8 r3
        | _ => []
        end
  end.

Definition lit (s : string) : str :=
  decode_utf8 (map byte_of_ascii (list_ascii_of_string s)).
Arguments lit : simpl never.

(** One character, and the double quote that the HTML fragments embed. *)
Definition ch (a : ascii) : char := byte_of_ascii a.
Definition dq : str := [34].

(** [a == b] on strings. *)
Definition str_eqb (a b : str) : bool := bool_decide (a = b).

(** *** [str] methods *)

(** [s.startswith(p)] *)
Fixpoint startswith (s p : str) {struct p} : bool :=
  match p, s with
  | [], _ => true
  | _ :: _, [] => false
  | c :: p', d :: s' => if c =? d then startswith s' p' else false
  end.

(** [sub in s]: [sub] starts at some position of [s]. *)
Fixpoint contains (s sub : str) : bool :=
  if startswith s sub then true
  else match s with
       | [] => false
       | _ :: s' => contains s' sub
       end.

(** [sep.join(parts)] *)
Fixpoint join (sep : str) (parts : list str) : str :=
  match parts with
  | [] => []
  | [p] => p
  | p :: rest => p ++ sep ++ join sep rest
  end.

(** [s.split(c)] for a one-character separator: never returns an empty list. *)
Fixpoint split (c : char) (s : str) : list str :=
  match s with
  | [] => [[]]
  | d :: s' =>
      if d =? c then [] :: split c s'
      else match split c s' with
           | [] => [[d]]
           | w :: ws => (d :: w) :: ws
           end
  end.

(** [sub] occurs in [s] as a literal substring. *)
Definition occurs (sub s : str) : Prop := ∃ pre suf, s = pre ++ sub ++ suf.

(** [s.replace(old, new)] where [old] is a single character, which is the only
    form the sources use. *)
Definition replace (old : char) (new : str) (s : str) : str :=
  flat_map (fun c => if c =? old then new else [c]) s.

(** [str(n)] for an integer. *)
Fixpoint digits_fuel (fuel : nat) (n : Z) (acc : str) : str :=
  match fuel with
  | O => acc
  | S f =>
      let acc' := (48 + n mod 10) :: acc in
      if n <? 10 then acc' else digits_fuel f (n / 10) acc'
  end.

Definition str_of_Z (n : Z) : str :=
  if n <? 0 then 45 :: digits_fuel (Z.to_nat (Z.log2 (- n)) + 1) (- n) []
  else digits_fuel (Z.to_nat (Z.log2 n) + 1) n [].

(** [s.splitlines(keepends=True)]: the line boundaries of [str.splitlines]. *)
Definition is_linebreak (c : char) : bool :=
  (c =? 10) || (c =? 13) || (c =? 11) || (c =? 12) || (c =? 28) || (c =? 29)
  || (c =? 30) || (c =? 133) || (c =? 8232) || (c =? 8233).

Fixpoint splitlines_from (cur : str) (s : str) : list str :=
  match s with
  | [] => match cur with [] => [] | _ => [rev cur] end
  | c :: s' =>
      if c =? 13 then
        match s' with
        | 10 :: s'' => rev (10 :: 13 :: cur) :: splitlines_from [] s''
        | _ => rev (13 :: cur) :: splitlines_from [] s'
        end
      else if is_linebreak c then rev (c :: cur) :: splitlines_from [] s'
      else splitlines_from (c :: cur) s'
  end.

Definition splitlines_keepends (s : str) : list str := splitlines_from [] s.

End PyStr.

Import PyStr.

(* ===================================================================== *)
(** ** [str.encode()] and [hashlib.md5] *)
(* ===================================================================== *)

Module hashlib.

(** [str.encode()] is UTF-8 with the strict error handler: a lone surrogate
    raises [UnicodeEncodeError], which [None] stands for. *)
Definition encode_char (c : char) : option (list Z) :=
  if is_surrogate c then None
  else if c <? 0x80 then Some [c]
  else if c <? 0x800 then Some [0xC0 + c / 64; 0x80 + c mod 64]
  else if c <? 0x10000 then
    Some [0xE0 + c / 4096; 0x80 + (c / 64) mod 64; 0x80 + c mod 64]
  else
    Some [0xF0 + c / 262144; 0x80 + (c / 4096) mod 64;
          0x80 + (c / 64) mod 64; 0x80 + c mod 64].

Fixpoint encode (s : str) : option (list Z) :=
  match s with
  | [] => Some []
  | c :: s' =>
      match encode_char c, encode s' with
      | Some bs, Some rest => Some (bs ++ rest)
      | _, _ => None
      end
  end.

(** *** MD5 (RFC 1321) on 32-bit words held in [Z] *)

Definition word (x : Z) : Z := x mod 2 ^ 32.
Definition add32 (x y : Z) : Z := word (x + y).
Definition not32 (x : Z) : Z := Z.lxor x 0xFFFFFFFF.
Definition rotl32 (x n : Z) : Z :=
  Z.lor (word (Z.shiftl x n)) (Z.shiftr x (32 - n)).

Definition K : list Z :=
  [ 0xd76aa478; 0xe8c7b756; 0x242070db; 0xc1bdceee;
    0xf57c0faf; 0x4787c62a; 0xa8304613; 0xfd469501;
    0x698098d8; 0x8b44f7af; 0xffff5bb1; 0x895cd7be;
    0x6b901122; 0xfd987193; 0xa679438e; 0x49b40821;
    0xf61e2562; 0xc040b340; 0x265e5a51; 0xe9b6c7aa;
    0xd62f105d; 0x02441453; 0xd8a1e681; 0xe7d3fbc8;
    0x21e1cde6; 0xc33707d6; 0xf4d50d87; 0x455a14ed;
    0xa9e3e905; 0xfcefa3f8; 0x676f02d9; 0x8d2a4c8a;
    0xfffa3942; 0x8771f681; 0x6d9d6122; 0xfde5380c;
    0xa4beea44; 0x4bdecfa9; 0xf6bb4b60; 0xbebfbc70;
    0x289b7ec6; 0xeaa127fa; 0xd4ef3085; 0x04881d05;
    0xd9d4d039; 0xe6db99e5; 0x1fa27cf8; 0xc4ac5665;
    0xf4292244; 0x432aff97; 0xab9423a7; 0xfc93a039;
    0x655b59c3; 0x8f0ccc92; 0xffeff47d; 0x85845dd1;
    0x6fa87e4f; 0xfe2ce6e0; 0xa3014314; 0x4e0811a1;
    0xf7537e82; 0xbd3af235; 0x2ad7d2bb; 0xeb86d391 ].

Definition shifts : list Z :=
  [ 7; 12; 17; 22; 7; 12; 17; 22; 7; 12; 17; 22; 7; 12; 17; 22;
    5; 9; 14; 20; 5; 9; 14; 20; 5; 9; 14; 20; 5; 9; 14; 20;
    4; 11; 16; 23; 4; 11; 16; 23; 4; 11; 16; 23; 4; 11; 16; 23;
    6; 10; 15; 21; 6; 10; 15; 21; 6; 10; 15; 21; 6; 10; 15; 21 ].

Definition nthZ (l : list Z) (i : Z) : Z := nth (Z.to_nat i) l 0.

(** [n] little-endian bytes of [x]. *)
Fixpoint le_bytes (n : nat) (x : Z) : list Z :=
  match n with
  | O => []
  | S n' => x mod 256 :: le_bytes n' (x / 256)
  end.

Fixpoint le_word (bs : list Z) : Z :=
  match bs with
  | [] => 0
  | b :: bs' => b + 256 * le_word bs'
  end.

Definition pad (msg : list Z) : list Z :=
  let len := Z.of_nat (length msg) in
  msg ++ [0x80] ++ repeat 0 (Z.to_nat ((55 - len) mod 64))
      ++ le_bytes 8 ((8 * len) mod 2 ^ 64).

(** Cut a byte list into pieces of [size] bytes. *)
Fixpoint pieces (count : nat) (size : nat) (bs : list Z) : list (list Z) :=
  match count with
  | O => []
  | S k => take size bs :: pieces k size (drop size bs)
  end.

Definition state := (Z * Z * Z * Z)%type.

Definition step (M : list Z) (st : state) (i : Z) : state :=
  let '(A, B, C, D) := st in
  let '(F, g) :=
    if i <? 16 then (Z.lor (Z.land B C) (Z.land (not32 B) D), i)
    else if i <? 32 then
      (Z.lor (Z.land D B) (Z.land (not32 D) C), (5 * i + 1) mod 16)
    else if i <? 48 then (Z.lxor (Z.lxor B C) D, (3 * i + 5) mod 16)
    else (Z.lxor C (Z.lor B (not32 D)), (7 * i) mod 16) in
  let F' := add32 (add32 (add32 F A) (nthZ K i)) (nthZ M g) in
  (D, add32 B (rotl32 F' (nthZ shifts i)), B, C).

Definition compress (st : state) (chunk : list Z) : state :=
  let M := map le_word (pieces 16 4 chunk) in
  let '(a0, b0, c0, d0) := st in
  let '(A, B, C, D) := fold_left (step M) (map Z.of_nat (seq 0 64)) st in
  (add32 a0 A, add32 b0 B, add32 c0 C, add32 d0 D).

Definition md5 (msg : list Z) : list Z :=
  let padded := pad msg in
  let '(a, b, c, d) :=
    fold_left compress (pieces (length padded / 64) 64 padded)
      (0x67452301, 0xefcdab89, 0x98badcfe, 0x10325476) in
  le_bytes 4 a ++ le_bytes 4 b ++ le_bytes 4 c ++ le_bytes 4 d.

Definition hex_digit (n : Z) : char := if n <? 10 then 48 + n else 87 + n.

Definition hex_byte (b : Z) : str := [hex_digit (b / 16 mod 16); hex_digit (b mod 16)].

Definition hexdigest (digest : list Z) : str := flat_map hex_byte digest.

Definition is_hex_char (c : char) : bool :=
  ((48 <=? c) && (c <=? 57)) || ((97 <=? c) && (c <=? 102)).

(** Strings that [encode] accepts: no lone surrogate code point. *)
Definition encodable (s : str) : Prop := Forall (λ c, is_surrogate c = false) s.

End hashlib.

(* ===================================================================== *)
(** ** [difflib]: the part of the standard library behind [unified_diff] *)
(* ===================================================================== *)

Module difflib.

Definition Match := (Z * Z * Z)%type.

Inductive tag := Replace | Delete | Insert | Equal.

Definition opcode := (tag * Z * Z * Z * Z)%type.

Definition is_equal (t : tag) : bool :=
  match t with Equal => true | _ => false end.

(** [l[i]] for the non-negative indices the algorithm produces. *)
Definition item {A} (l : list A) (i : Z) : option A :=
  if i <? 0 then None else l !! Z.to_nat i.

(** [l[i1:i2]] for [0 <= i1]. *)
Definition slice {A} (l : list A) (i1 i2 : Z) : list A :=
  take (Z.to_nat (i2 - i1)) (drop (Z.to_nat i1) l).

(** *** [SequenceMatcher.__chain_b] with [isjunk=None], [autojunk=True] *)

Fixpoint index_from (i : Z) (b : list str) (b2j : gmap str (list Z))
  : gmap str (list Z) :=
  match b with
  | [] => b2j
  | elt :: b' =>
      index_from (i + 1) b' (<[elt := default [] (b2j !! elt) ++ [i]]> b2j)
  end.

Definition chain_b (b : list str) : gmap str (list Z) :=
  let b2j := index_from 0 b ∅ in
  let n := Z.of_nat (length b) in
  if 200 <=? n then
    let ntest := n / 100 + 1 in
    filter (λ kv : str * list Z, Z.of_nat (length kv.2) ≤ ntest) b2j
  else b2j.

(** [bjunk] stays the empty set because no junk predicate is given. *)
Definition isbjunk (elt : str) : bool := false.

(** *** [SequenceMatcher.find_longest_match] *)

(** The inner [for j in b2j.get(a[i], nothing)] loop, with its [continue]
    and [break]. *)
Fixpoint scan_row (blo bhi i : Z) (j2len : gmap Z Z) (js : list Z)
    (bst : Match) (newj2len : gmap Z Z) : Match * gmap Z Z :=
  match js with
  | [] => (bst, newj2len)
  | j :: js' =>
      if j <? blo then scan_row blo bhi i j2len js' bst newj2len
      else if bhi <=? j then (bst, newj2len)
      else
        let k := default 0 (j2len !! (j - 1)) + 1 in
        let newj2len' := <[j := k]> newj2len in
        let '(besti, bestj, bestsize) := bst in
        if bestsize <? k
        then scan_row blo bhi i j2len js' (i - k + 1, j - k + 1, k) newj2len'
        else scan_row blo bhi i j2len js' bst newj2len'
  end.

Definition scan_step (a : list str) (b2j : gmap str (list Z)) (blo bhi : Z)
    (st : Match * gmap Z Z) (i : Z) : Match * gmap Z Z :=
  let '(bst, j2len) := st in
  match item a i with
  | Some ai => scan_row blo bhi i j2len (default [] (b2j !! ai)) bst ∅
  | None => (bst, ∅)
  end.

(** The outer [for i in range(alo, ahi)] loop. *)
Definition scan (a : list str) (b2j : gmap str (list Z)) (alo ahi blo bhi : Z)
  : Match :=
  (fold_left (scan_step a b2j blo bhi) (seqZ alo (ahi - alo))
     ((alo, blo, 0), ∅)).1.

Definition same_item (a b : list str) (i j : Z) : bool :=
  match item a i, item b j with
  | Some x, Some y => str_eqb x y
  | _, _ => false
  end.

Definition junk_at (b : list str) (j : Z) : bool :=
  match item b j with Some y => isbjunk y | None => false end.

(** The four [while] loops that grow the block; [junk] tells whether the loop
    asks for junk or for non-junk elements.  Each loop moves one end of the
    block by one element, so the distance to the range bound is enough fuel. *)
Fixpoint extend_left (fuel : nat) (junk : bool) (a b : list str) (alo blo : Z)
    (bst : Match) : Match :=
  match fuel with
  | O => bst
  | S f =>
      let '(besti, bestj, bestsize) := bst in
      if (alo <? besti) && (blo <? bestj)
         && Bool.eqb (junk_at b (bestj - 1)) junk
         && same_item a b (besti - 1) (bestj - 1)
      then extend_left f junk a b alo blo (besti - 1, bestj - 1, bestsize + 1)
      else bst
  end.

Fixpoint extend_right (fuel : nat) (junk : bool) (a b : list str) (ahi bhi : Z)
    (bst : Match) : Match :=
  match fuel with
  | O => bst
  | S f =>
      let '(besti, bestj, bestsize) := bst in
      if (besti + bestsize <? ahi) && (bestj + bestsize <? bhi)
         && Bool.eqb (junk_at b (bestj + bestsize)) junk
         && same_item a b (besti + bestsize) (bestj + bestsize)
      then extend_right f junk a b ahi bhi (besti, bestj, bestsize + 1)
      else bst
  end.

Definition left_room (alo : Z) (bst : Match) : nat := Z.to_nat (bst.1.1 - alo).
Definition right_room (ahi : Z) (bst : Match) : nat :=
  Z.to_nat (ahi - (bst.1.1 + bst.2)).

Definition find_longest_match (a b : list str) (b2j : gmap str (list Z))
    (alo ahi blo bhi : Z) : Match :=
  let bst := scan a b2j alo ahi blo bhi in
  let bst := extend_left (left_room alo bst) false a b alo blo bst in
  let bst := extend_right (right_room ahi bst) false a b ahi bhi bst in
  let bst := extend_left (left_room alo bst) true a b alo blo bst in
  let bst := extend_right (right_room ahi bst) true a b ahi bhi bst in
  bst.

(** *** [SequenceMatcher.get_matching_blocks] *)

(** The work list [queue]; its head is the end of the Python list, where
    [pop] and [append] act. *)
Fixpoint match_loop (fuel : nat) (a b : list str) (b2j : gmap str (list Z))
    (queue : list (Z * Z * Z * Z)) (matching_blocks : list Match)
  : list Match :=
  match fuel with
  | O => matching_blocks
  | S f =>
      match queue with
      | [] => matching_blocks
      | (alo, ahi, blo, bhi) :: queue =>
          let '(i, j, k) := find_longest_match a b b2j alo ahi blo bhi in
          if k =? 0 then match_loop f a b b2j queue matching_blocks
          else
            let queue :=
              if (alo <? i) && (blo <? j) then (alo, i, blo, j) :: queue
              else queue in
            let queue :=
              if (i + k <? ahi) && (j + k <? bhi)
              then (i + k, ahi, j + k, bhi) :: queue
              else queue in
            match_loop f a b b2j queue (matching_blocks ++ [(i, j, k)])
      end
  end.

(** Tuple order, as [list.sort] uses it. *)
Definition match_leb (x y : Match) : bool :=
  let '(i1, j1, k1) := x in
  let '(i2, j2, k2) := y in
  (i1 <? i2) || ((i1 =? i2) && ((j1 <? j2) || ((j1 =? j2) && (k1 <=? k2)))).

Fixpoint insert_sorted (x : Match) (l : list Match) : list Match :=
  match l with
  | [] => [x]
  | y :: l' => if match_leb x y then x :: l else y :: insert_sorted x l'
  end.

Definition sort (l : list Match) : list Match := foldr insert_sorted [] l.

Definition collapse_step (st : Z * Z * Z * list Match) (m : Match)
  : Z * Z * Z * list Match :=
  let '(i1, j1, k1, non_adjacent) := st in
  let '(i2, j2, k2) := m in
  if (i1 + k1 =? i2) && (j1 + k1 =? j2) then (i1, j1, k1 + k2, non_adjacent)
  else
    (i2, j2, k2,
     if k1 =? 0 then non_adjacent else non_adjacent ++ [(i1, j1, k1)]).

Definition get_matching_blocks (a b : list str) : list Match :=
  let la := Z.of_nat (length a) in
  let lb := Z.of_nat (length b) in
  let matching_blocks :=
    match_loop (2 * length a + 1) a b (chain_b b) [(0, la, 0, lb)] [] in
  let '(i1, j1, k1, non_adjacent) :=
    fold_left collapse_step (sort matching_blocks) (0, 0, 0, []) in
  let non_adjacent :=
    if k1 =? 0 then non_adjacent else non_adjacent ++ [(i1, j1, k1)] in
  non_adjacent ++ [(la, lb, 0)].

(** *** [SequenceMatcher.get_opcodes] *)

Definition opcode_step (st : Z * Z * list opcode) (m : Match)
  : Z * Z * list opcode :=
  let '(i, j, answer) := st in
  let '(ai, bj, size) := m in
  let answer :=
    if (i <? ai) && (j <? bj) then answer ++ [(Replace, i, ai, j, bj)]
    else if i <? ai then answer ++ [(Delete, i, ai, j, bj)]
    else if j <? bj then answer ++ [(Insert, i, ai, j, bj)]
    else answer in
  let i := ai + size in
  let j := bj + size in
  (i, j, if size =? 0 then answer else answer ++ [(Equal, ai, i, bj, j)]).

Definition get_opcodes (a b : list str) : list opcode :=
  (fold_left opcode_step (get_matching_blocks a b) (0, 0, [])).2.

(** *** [SequenceMatcher.get_grouped_opcodes] *)

Definition trim_first (n : Z) (codes : list opcode) : list opcode :=
  match codes with
  | (Equal, i1, i2, j1, j2) :: rest =>
      (Equal, Z.max i1 (i2 - n), i2, Z.max j1 (j2 - n), j2) :: rest
  | _ => codes
  end.

Definition trim_last (n : Z) (codes : list opcode) : list opcode :=
  match last codes with
  | Some (Equal, i1, i2, j1, j2) =>
      <[pred (length codes) := (Equal, i1, Z.min i2 (i1 + n), j1, Z.min j2 (j1 + n))]> codes
  | _ => codes
  end.

Definition group_step (n : Z) (st : list opcode * list (list opcode))
    (code : opcode) : list opcode * list (list opcode) :=
  let '(group, out) := st in
  let '(t, i1, i2, j1, j2) := code in
  if is_equal t && (n + n <? i2 - i1) then
    let group := group ++ [(t, i1, Z.min i2 (i1 + n), j1, Z.min j2 (j1 + n))] in
    ([(t, Z.max i1 (i2 - n), i2, Z.max j1 (j2 - n), j2)], out ++ [group])
  else (group ++ [code], out).

Definition lone_equal (group : list opcode) : bool :=
  match group with
  | [(Equal, _, _, _, _)] => true
  | _ => false
  end.

Definition group_codes (n : Z) (codes : list opcode) : list (list opcode) :=
  let codes := match codes with [] => [(Equal, 0, 1, 0, 1)] | _ => codes end in
  let codes := trim_first n codes in
  let codes := trim_last n codes in
  let '(group, out) := fold_left (group_step n) codes ([], []) in
  match group with
  | [] => out
  | _ => if lone_equal group then out else out ++ [group]
  end.

Definition get_grouped_opcodes (a b : list str) (n : Z) : list (list opcode) :=
  group_codes n (get_opcodes a b).

(** *** [unified_diff] *)

Definition _format_range_unified (start stop : Z) : str :=
  let beginning := start + 1 in
  let length := stop - start in
  if length =? 1 then str_of_Z beginning
  else
    let beginning := if length =? 0 then beginning - 1 else beginning in
    str_of_Z beginning ++ lit "," ++ str_of_Z length.

Definition opcode_lines (a b : list str) (code : opcode) : list str :=
  let '(t, i1, i2, j1, j2) := code in
  match t with
  | Equal => map (λ line, lit " " ++ line) (slice a i1 i2)
  | Replace =>
      map (λ line, lit "-" ++ line) (slice a i1 i2)
      ++ map (λ line, lit "+" ++ line) (slice b j1 j2)
  | Delete => map (λ line, lit "-" ++ line) (slice a i1 i2)
  | Insert => map (λ line, lit "+" ++ line) (slice b j1 j2)
  end.

Definition hunk (a b : list str) (lineterm : str) (group : list opcode)
  : list str :=
  match head group, last group with
  | Some (_, f1, _, f3, _), Some (_, _, l2, _, l4) =>
      let file1_range := _format_range_unified f1 l2 in
      let file2_range := _format_range_unified f3 l4 in
      (lit "@@ -" ++ file1_range ++ lit " +" ++ file2_range ++ lit " @@" ++ lineterm)
        :: flat_map (opcode_lines a b) group
  | _, _ => []
  end.

(** The generator, as the list of lines it yields; the two file header lines
    come before the first group and only if there is one.  The file dates are
    left at their default, the empty string. *)
Definition unified_diff (a b : list str) (fromfile tofile : str) (n : Z)
    (lineterm : str) : list str :=
  match get_grouped_opcodes a b n with
  | [] => []
  | groups =>
      [lit "--- " ++ fromfile ++ lineterm; lit "+++ " ++ tofile ++ lineterm]
      ++ flat_map (hunk a b lineterm) groups
  end.

(** *** Vocabulary for the properties *)

(** The positions of [x] in [b], counted from [i]. *)
Fixpoint positions (i : Z) (x : str) (b : list str) : list Z :=
  match b with
  | [] => []
  | elt :: b' => (if str_eqb elt x then [i] else []) ++ positions (i + 1) x b'
  end.

(** [b2j.get(x, [])] for the index of [b]. *)
Definition js_of (b : list str) (x : str) : list Z :=
  default [] (chain_b b !! x).

(** [j2len.get(j, 0)] *)
Definition get (j2len : gmap Z Z) (j : Z) : Z := default 0 (j2len !! j).

(** An element is visible when the index kept it (it is not "popular"). *)
Definition visible (b : list str) (j : nat) : bool :=
  match b !! j with
  | Some x => match js_of b x with [] => false | _ => true end
  | None => false
  end.

(** The number of consecutive visible elements that end at position [j]. *)
Fixpoint run_nat (vis : nat → bool) (j : nat) : Z :=
  if vis j then 1 + match j with O => 0 | S j' => run_nat vis j' end else 0.

Definition run (b : list str) (j : Z) : Z :=
  if j <? 0 then 0 else run_nat (visible b) (Z.to_nat j).

(** The two halves of one pass of [scan_row] at a column [j]. *)
Definition best_step (i : Z) (j2len : gmap Z Z) (bst : Match) (j : Z) : Match :=
  let k := get j2len (j - 1) + 1 in
  if bst.2 <? k then (i - k + 1, j - k + 1, k) else bst.

Definition len_step (j2len : gmap Z Z) (newj2len : gmap Z Z) (j : Z) : gmap Z Z :=
  <[j := get j2len (j - 1) + 1]> newj2len.

(** What holds of the best block and of [j2len] after the rows before [i],
    when a sequence is compared with itself: the block lies on the diagonal
    and is at least as long as every run of visible elements seen so far. *)
Definition scan_inv (b : list str) (i : Z) (st : Match * gmap Z Z) : Prop :=
  let '((besti, bestj, bestsize), j2len) := st in
  besti = bestj ∧ 0 ≤ besti ∧ 0 ≤ bestsize ∧ besti + bestsize ≤ i
  ∧ (∀ j, 0 ≤ j < i → run b j ≤ bestsize)
  ∧ (∀ j, get j2len j ≤ run b j)
  ∧ (∀ j, get j2len j ≤ run b (i - 1))
  ∧ get j2len (i - 1) = run b (i - 1).

(** A block whose elements really are equal, pair by pair. *)
Definition genuine (a b : list str) (m : Match) : Prop :=
  let '(i, j, k) := m in
  ∀ t, 0 ≤ t < k → same_item a b (i + t) (j + t) = true.

(** A block that lies in the window [a[alo:ahi]], [b[blo:bhi]]. *)
Definition inside (r : Z * Z * Z * Z) (m : Match) : Prop :=
  let '(alo, ahi, blo, bhi) := r in
  let '(i, j, k) := m in
  alo ≤ i ∧ blo ≤ j ∧ 0 ≤ k ∧ i + k ≤ ahi ∧ j + k ≤ bhi.

(** Every index the map offers for an element holds that element. *)
Definition b2j_sound (b : list str) (b2j : gmap str (list Z)) : Prop :=
  ∀ x j, j ∈ default [] (b2j !! x) → item b j = Some x.

(** After the rows before [i]: each recorded length is that of a genuine
    run ending in row [i - 1], inside the window. *)
Definition row_ok (a b : list str) (alo blo bhi i : Z) (j2len : gmap Z Z) : Prop :=
  ∀ j, 0 ≤ get j2len j
       ∧ (0 < get j2len j →
          genuine a b (i - get j2len j, j - get j2len j + 1, get j2len j)
          ∧ alo ≤ i - get j2len j ∧ blo ≤ j - get j2len j + 1 ∧ j < bhi).

Definition best_ok (a b : list str) (alo blo bhi i : Z) (bst : Match) : Prop :=
  genuine a b bst ∧ inside (alo, i, blo, bhi) bst.

(** Windows and blocks as rectangles of the comparison grid. *)
Definition rect := (Z * Z * Z * Z)%type.

Definition block_rect (m : Match) : rect :=
  let '(i, j, k) := m in (i, i + k, j, j + k).

(** Whether row [t] (an index of [a]) or column [t] (an index of [b]) crosses
    the rectangle, as a count. *)
Definition row_in (t : Z) (r : rect) : Z :=
  let '(alo, ahi, _, _) := r in if (alo <=? t) && (t <? ahi) then 1 else 0.

Definition col_in (t : Z) (r : rect) : Z :=
  let '(_, _, blo, bhi) := r in if (blo <=? t) && (t <? bhi) then 1 else 0.

Definition total (f : rect → Z) (rs : list rect) : Z :=
  foldr (λ r n, f r + n) 0 rs.

(** No row and no column crosses two of the rectangles. *)
Definition disjoint (rs : list rect) : Prop :=
  ∀ t, total (row_in t) rs ≤ 1 ∧ total (col_in t) rs ≤ 1.

Definition window_ok (r : rect) : Prop :=
  let '(alo, ahi, blo, bhi) := r in 0 ≤ alo ≤ ahi ∧ 0 ≤ blo ≤ bhi.

(** A block the matcher may report: genuine and not empty. *)
Definition block_ok (a b : list str) (m : Match) : Prop :=
  let '(i, j, k) := m in genuine a b m ∧ 0 < k ∧ 0 ≤ i ∧ 0 ≤ j.

(** The state of the work-list loop: windows still to look at and blocks
    found, no two of which share a row or a column. *)
Definition loop_ok (a b : list str) (queue : list rect) (blocks : list Match)
  : Prop :=
  Forall window_ok queue
  ∧ Forall (block_ok a b) blocks
  ∧ disjoint (queue ++ map block_rect blocks).

(** The blocks the collapsing loop has settled on so far: [non_adjacent] and
    the block it still holds, unless that one is empty. *)
Definition pending (st : Z * Z * Z * list Match) : list Match :=
  let '(i1, j1, k1, non_adjacent) := st in
  if k1 =? 0 then non_adjacent else non_adjacent ++ [(i1, j1, k1)].

(** Some opcode is not ['equal']. *)
Definition dirty (codes : list opcode) : bool :=
  existsb (λ c : opcode, negb (is_equal c.1.1.1.1)) codes.

End difflib.

(* ===================================================================== *)
(** ** [core/version_manager.py] *)
(* ===================================================================== *)

Module version_manager.

Record VersionRecord := {
  timestamp : str;
  type : str;
  content : str;
  note : str;
  hash : str;
  word_count : Z;
  version_number : Z
}.

(** How a call ends: with a value, or with the [UnicodeEncodeError] of
    [content.encode()]. *)
Inductive outcome (A : Type) :=
  | Returns (a : A)
  | UnicodeEncodeError.
Arguments Returns {A} a.
Arguments UnicodeEncodeError {A}.

(** [versions[-1]['content']], when [versions] is not empty. *)
Definition latest_content (versions : list VersionRecord) : option str :=
  content <$> last versions.

(** [save_version(versions, version_type, content, note)].  The list is
    modified in place, so the model returns it next to the outcome; [now] is
    the text [datetime.now().strftime(...)] produces at the call. *)
Definition save_version (now : str) (versions : list VersionRecord)
    (version_type content note : str)
  : outcome bool * list VersionRecord :=
  match hashlib.encode content with
  | None => (UnicodeEncodeError, versions)
  | Some encoded =>
      let content_hash := take 8 (hashlib.hexdigest (hashlib.md5 encoded)) in
      let same_as_latest :=
        match latest_content versions with
        | Some latest => str_eqb latest content
        | None => false
        end in
      if same_as_latest then (Returns false, versions)
      else
        let version := {|
          timestamp := now;
          type := version_type;
          content := content;
          note := note;
          hash := content_hash;
          word_count := Z.of_nat (length content);
          version_number := Z.of_nat (length versions) + 1
        |} in
        (Returns true, versions ++ [version])
  end.

(** A caller's history: one [save_version] call after another on the same
    list, starting from the empty list.  A call that raises leaves the list
    as it was, and the caller goes on. *)
Record SaveCall := {
  call_now : str;
  call_type : str;
  call_content : str;
  call_note : str
}.

Definition after_call (versions : list VersionRecord) (c : SaveCall)
  : list VersionRecord :=
  (save_version c.(call_now) versions c.(call_type) c.(call_content)
     c.(call_note)).2.

Definition after_calls (calls : list SaveCall) : list VersionRecord :=
  fold_left after_call calls [].

(** The store invariants: gapless 1-based numbering, no adjacent duplicates. *)
Definition numbered (versions : list VersionRecord) : Prop :=
  ∀ (i : nat) v, versions !! i = Some v → v.(version_number) = Z.of_nat i + 1.

Definition no_adjacent_duplicates (versions : list VersionRecord) : Prop :=
  ∀ (i : nat) v w,
    versions !! i = Some v → versions !! S i = Some w →
    v.(content) ≠ w.(content).

(** What [save_version] guarantees of each record it writes. *)
Definition record_ok (v : VersionRecord) : Prop :=
  ∃ encoded,
    hashlib.encode v.(content) = Some encoded
    ∧ v.(hash) = take 8 (hashlib.hexdigest (hashlib.md5 encoded))
    ∧ length v.(hash) = 8%nat
    ∧ v.(word_count) = Z.of_nat (length v.(content)).

(** *** [show_diff] *)

Definition no_difference : str := lit "⚪ 兩個版本內容相同".

Definition escape (line : str) : str :=
  replace (ch ">") (lit "&gt;")
    (replace (ch "<") (lit "&lt;") (replace (ch "&") (lit "&amp;") line)).

(** The entity a single character is rendered as. *)
Definition entity (c : char) : str :=
  if c =? ch "&" then lit "&amp;"
  else if c =? ch "<" then lit "&lt;"
  else if c =? ch ">" then lit "&gt;"
  else [c].

Definition span (style : str) (body : str) : str :=
  lit "<span style=" ++ dq ++ style ++ dq ++ lit ">" ++ body ++ lit "</span>".

Definition header_style : str := lit "color: #888;".
Definition added_style : str := lit "color: #2ed573; background: rgba(46,213,115,0.1);".
Definition removed_style : str := lit "color: #ff4757; background: rgba(255,71,87,0.1);".
Definition hunk_style : str := lit "color: #5352ed;".

Definition render_line (line : str) : str :=
  let escaped_line := escape line in
  if startswith line (lit "+++") || startswith line (lit "---")
  then span header_style escaped_line
  else if startswith line (lit "+") then span added_style escaped_line
  else if startswith line (lit "-") then span removed_style escaped_line
  else if startswith line (lit "@@") then span hunk_style escaped_line
  else escaped_line.

Definition pre_open : str :=
  lit "<pre style=" ++ dq
  ++ lit "background: #1e1e1e; padding: 1rem; border-radius: 8px; overflow-x: auto; font-size: 0.85rem;"
  ++ dq ++ lit ">".

Definition pre_close : str := lit "</pre>".

Definition diff_text (old_content new_content : str) : str :=
  let old_lines := splitlines_keepends old_content in
  let new_lines := splitlines_keepends new_content in
  let diff :=
    difflib.unified_diff old_lines new_lines (lit "舊版本") (lit "新版本") 3 [] in
  join [10] diff.

Definition show_diff (old_content new_content : str) : str :=
  let diff_text := diff_text old_content new_content in
  match diff_text with
  | [] => no_difference
  | _ =>
      let lines := split 10 diff_text in
      let html_lines := map render_line lines in
      pre_open ++ join [10] html_lines ++ pre_close
  end.

End version_manager.

(* ===================================================================== *)
(** ** [re]: the fragment the score pattern is written in *)
(* ===================================================================== *)

Module re.

(** The interpreter's Unicode tables behind the escapes [\d] (decimal digits)
    and [\s] (whitespace) of a [str] pattern. *)
Record unicode_db := {
  isdecimal : char → bool;
  isspace : char → bool
}.

Inductive charset :=
  | Char (c : char)          (* a literal character *)
  | AnyOf (cs : str)         (* [...] *)
  | Decimal                  (* \d *)
  | Whitespace.              (* \s *)

(** A pattern is a sequence of single-character items, each taken once, zero
    or more times, or one or more times.  Capturing parentheses are left out:
    they do not change whether a match exists. *)
Inductive item :=
  | One (cs : charset)
  | Star (cs : charset)
  | Plus (cs : charset).

Definition pattern := list item.

Definition member (U : unicode_db) (cs : charset) (c : char) : bool :=
  match cs with
  | Char d => c =? d
  | AnyOf ds => existsb (Z.eqb c) ds
  | Decimal => U.(isdecimal) c
  | Whitespace => U.(isspace) c
  end.

(** Greedy repetition with backtracking: take one more character if that
    leads to a match, else go on with the rest of the pattern. *)
Fixpoint star (p : char → bool) (k : str → bool) (s : str) : bool :=
  match s with
  | [] => k []
  | c :: s' =>
      if p c then (if star p k s' then true else k s) else k s
  end.

Fixpoint match_here (U : unicode_db) (r : pattern) : str → bool :=
  match r with
  | [] => λ _, true
  | One cs :: r' =>
      λ s, match s with
           | c :: s' => if member U cs c then match_here U r' s' else false
           | [] => false
           end
  | Star cs :: r' => star (member U cs) (match_here U r')
  | Plus cs :: r' =>
      λ s, match s with
           | c :: s' =>
               if member U cs c then star (member U cs) (match_here U r') s'
               else false
           | [] => false
           end
  end.

(** [re.search(r, s)] as a truth value: a match starting at some position. *)
Fixpoint search (U : unicode_db) (r : pattern) (s : str) : bool :=
  if match_here U r s then true
  else match s with
       | [] => false
       | _ :: s' => search U r s'
       end.

Definition literal (s : str) : pattern := map (λ c, One (Char c)) s.

(** The strings a pattern denotes, to state what the matcher decides. *)
Fixpoint denotes (U : unicode_db) (r : pattern) (s : str) : Prop :=
  match r with
  | [] => s = []
  | One cs :: r' => ∃ c s', s = c :: s' ∧ member U cs c = true ∧ denotes U r' s'
  | Star cs :: r' =>
      ∃ rep s', s = rep ++ s' ∧ Forall (λ c, member U cs c = true) rep
                ∧ denotes U r' s'
  | Plus cs :: r' =>
      ∃ rep s', s = rep ++ s' ∧ rep ≠ [] ∧ Forall (λ c, member U cs c = true) rep
                ∧ denotes U r' s'
  end.

(** Every version of the tables has the ASCII digits as decimal digits and
    the space as whitespace. *)
Definition ascii_aware (U : unicode_db) : Prop :=
  (∀ c, 48 ≤ c ≤ 57 → U.(isdecimal) c = true) ∧ U.(isspace) 32 = true.

(** The ASCII part of the tables alone. *)
Definition ascii_db : unicode_db := {|
  isdecimal := λ c, (48 <=? c) && (c <=? 57);
  isspace := λ c, (c =? 32) || ((9 <=? c) && (c <=? 13))
|}.

End re.

(* ===================================================================== *)
(** ** [core/gemini_client.py] *)
(* ===================================================================== *)

Module gemini_client.

(** *** Exceptions, requests and the world the client talks to *)

(** The exceptions that derive from [Exception]: an [except Exception]
    clause catches them. *)
Inductive exn :=
  | ValueError (msg : str)
  | UnboundLocalError (name : str)
  | Exception (msg : str).        (* anything a collaborator raises *)

(** The exceptions that derive from [BaseException] only: an
    [except Exception] clause lets them through.  The signals by which
    Streamlit stops or reruns a script ([StopException], [RerunException]),
    which any [st.*] call may raise, are of this kind. *)
Inductive control :=
  | ControlException (name : str).

(** [str(e)], as the f-strings of the failure notices use it. *)
Definition exn_str (e : exn) : str :=
  match e with
  | ValueError msg => msg
  | UnboundLocalError name =>
      lit "cannot access local variable '" ++ name
      ++ lit "' where it is not associated with a value"
  | Exception msg => msg
  end.

Record GenerateContentConfig := {
  system_instruction : str;
  temperature : QArith_base.Q;
  max_output_tokens : option Z
}.

Record Request := {
  model : str;
  contents : str;
  config : GenerateContentConfig
}.

(** [response.text] is a string or [None]. *)
Record Response := { text : option str }.

Inductive reply :=
  | Responds (r : Response)
  | Fails (e : exn).

Record Client := { api_key : str }.

Inductive event :=
  | Generate (c : Client) (r : Request)
  | Sleep (seconds : Z)
  | Status (msg : str).

(** What the module reads but does not own: the prompt constants of
    [core/prompts.py] (not part of the sources at hand), two environment
    variables, the Unicode tables of [re], and the text-generation service,
    given as the reply to the k-th [generate_content] call. *)
Record Env := {
  CRITIC_SYSTEM_PROMPT : str;
  REFINE_SYSTEM_PROMPT : str;
  GEMINI_API_KEY : option str;
  MODEL_NAME : option str;
  unicode : re.unicode_db;
  service : nat → Request → reply
}.

(** The module global [_client], the number of generation calls made so far
    and everything observable that happened. *)
Record World := {
  _client : option Client;
  calls : nat;
  trace : list event
}.

(** How a call ends: with a value, with an exception that an
    [except Exception] clause catches, or with a control exception that such
    a clause hands on. *)
Inductive result (A : Type) :=
  | Ok (a : A)
  | Raise (e : exn)
  | Interrupt (b : control).
Arguments Ok {A} a.
Arguments Raise {A} e.
Arguments Interrupt {A} b.

Definition M (A : Type) : Type := World → result A * World.

Definition ret {A} (a : A) : M A := λ w, (Ok a, w).

Definition raise {A} (e : exn) : M A := λ w, (Raise e, w).

Definition interrupt {A} (b : control) : M A := λ w, (Interrupt b, w).

Definition bind {A B} (m : M A) (k : A → M B) : M B :=
  λ w, match m w with
       | (Ok a, w') => k a w'
       | (Raise e, w') => (Raise e, w')
       | (Interrupt b, w') => (Interrupt b, w')
       end.

(** [try: m except Exception as e: h e] *)
Definition try_except {A} (m : M A) (h : exn → M A) : M A :=
  λ w, match m w with
       | (Ok a, w') => (Ok a, w')
       | (Raise e, w') => h e w'
       | (Interrupt b, w') => (Interrupt b, w')
       end.

Notation "'let*' x := m 'in' k" := (bind m (λ x, k))
  (at level 10, x name, m at level 100, k at level 200).

Definition emit (e : event) : M unit :=
  λ w, (Ok tt, {| _client := w.(_client); calls := w.(calls);
                  trace := w.(trace) ++ [e] |}).

(** [time.sleep(seconds)] *)
Definition sleep (seconds : Z) : M unit := emit (Sleep seconds).

(** [core/config.py] *)
Definition get_api_key (env : Env) : str := default [] env.(GEMINI_API_KEY).

Definition get_model_name (env : Env) : str :=
  default (lit "gemini-3-pro-preview") env.(MODEL_NAME).

(** [get_client()]: the singleton is built on first use and needs the key. *)
Definition get_client (env : Env) : M Client :=
  λ w, match w.(_client) with
       | Some c => (Ok c, w)
       | None =>
           let key := get_api_key env in
           match key with
           | [] => (Raise (ValueError (lit "GEMINI_API_KEY 環境變數未設定")), w)
           | _ =>
               let c := {| api_key := key |} in
               (Ok c, {| _client := Some c; calls := w.(calls);
                         trace := w.(trace) |})
           end
       end.

(** [client.models.generate_content(...)] *)
Definition generate_content (env : Env) (c : Client) (r : Request) : M Response :=
  λ w,
    let w' := {| _client := w.(_client); calls := S w.(calls);
                 trace := w.(trace) ++ [Generate c r] |} in
    match env.(service) w.(calls) r with
    | Responds resp => (Ok resp, w')
    | Fails e => (Raise e, w')
    end.

(** [t or d] on an optional string: [None] and the empty string are falsy. *)
Definition text_or (t : option str) (d : str) : str :=
  match t with
  | Some (c :: s) => c :: s
  | _ => d
  end.

(** A status callback: it is shown the message and returns, or raises an
    exception of either kind. *)
Inductive raised :=
  | Error (e : exn)
  | Control (b : control).

Definition callback := str → option raised.

(** [if status_callback: status_callback(msg)] *)
Definition notify (status_callback : option callback) (msg : str) : M unit :=
  match status_callback with
  | None => ret tt
  | Some f =>
      let* _ := emit (Status msg) in
      match f msg with
      | None => ret tt
      | Some (Error e) => raise e
      | Some (Control b) => interrupt b
      end
  end.

(** *** [criticize_plan] *)

Definition critic_request (env : Env) (plan_content : str) : Request := {|
  model := get_model_name env;
  contents := lit "請審核以下 PRD：" ++ [10; 10] ++ plan_content;
  config := {| system_instruction := env.(CRITIC_SYSTEM_PROMPT);
               temperature := QArith_base.Qmake 3 10;
               max_output_tokens := Some 3000 |}
|}.

Definition review_failed (e : exn) : str := lit "❌ 審核失敗：" ++ exn_str e.

Definition criticize_plan (env : Env) (plan_content : str) : M str :=
  let* client := get_client env in
  try_except
    (let* response := generate_content env client (critic_request env plan_content) in
     ret (text_or response.(text) []))
    (λ e, ret (review_failed e)).

(** *** [validate_critique_output] *)

Definition required_sections : list str :=
  [lit "審核總評"; lit "綜合評分"; lit "通過檢查"; lit "未通過檢查"; lit "下一步行動"].

(** [r'綜合評分[：:]\s*(\d+)\s*/\s*100'] *)
Definition score_pattern : re.pattern :=
  re.literal (lit "綜合評分")
  ++ [re.One (re.AnyOf (lit "：:")); re.Star re.Whitespace; re.Plus re.Decimal;
      re.Star re.Whitespace; re.One (re.Char (ch "/")); re.Star re.Whitespace]
  ++ re.literal (lit "100").

Definition score_format : str := lit "評分格式".

Definition missing_items (U : re.unicode_db) (critique_text : str) : list str :=
  let missing :=
    List.filter (λ section, negb (contains critique_text section))
      required_sections in
  let score_match := re.search U score_pattern critique_text in
  if score_match then missing else missing ++ [score_format].

Definition validate_critique_output (U : re.unicode_db) (critique_text : str)
  : bool * str :=
  match missing_items U critique_text with
  | [] => (true, [])
  | missing => (false, lit "缺少必要章節：" ++ join (lit ", ") missing)
  end.

(** The score line in words: the label, a full-width or ASCII colon, optional
    whitespace, a run of one or more decimal digits, optional whitespace, a
    slash, optional whitespace, [100]. *)
Definition score_line (U : re.unicode_db) (m : str) : Prop :=
  ∃ colon ws1 digits ws2 ws3,
    m = lit "綜合評分" ++ [colon] ++ ws1 ++ digits ++ ws2 ++ lit "/" ++ ws3
        ++ lit "100"
    ∧ (colon = 0xFF1A ∨ colon = ch ":")
    ∧ Forall (λ c, U.(re.isspace) c = true) ws1
    ∧ digits ≠ [] ∧ Forall (λ c, U.(re.isdecimal) c = true) digits
    ∧ Forall (λ c, U.(re.isspace) c = true) ws2
    ∧ Forall (λ c, U.(re.isspace) c = true) ws3.

Definition has_score (U : re.unicode_db) (critique_text : str) : Prop :=
  ∃ pre m suf, critique_text = pre ++ m ++ suf ∧ score_line U m.

Definition has_all_sections (critique_text : str) : Prop :=
  ∀ section, section ∈ required_sections → occurs section critique_text.

(** A report with every section and an out-of-range score. *)
Definition overscored_report : str :=
  join [10]
    [ lit "## 審核總評"; lit "整體可行。";
      lit "綜合評分: 150/100";
      lit "## 通過檢查"; lit "- 目標明確";
      lit "## 未通過檢查"; lit "- 無";
      lit "## 下一步行動"; lit "- 進入開發" ].

(** *** [criticize_plan_with_validation] *)

Definition retry_message (error_msg : str) (attempt : Z) : str :=
  lit "⚠️ 審核格式不完整（" ++ error_msg ++ lit "），正在重試... (第 "
  ++ str_of_Z (attempt + 1) ++ lit " 次)".

Definition fallback_message (error_msg : str) : str :=
  lit "⚠️ 審核報告格式可能不完整：" ++ error_msg.

(** The [for attempt in range(max_retry)] loop over the attempts still to
    make; [critique] is the local variable, unset before the first pass.
    After the loop comes the function's last line, [return critique]. *)
Fixpoint attempts (env : Env) (plan_content : str) (max_retry : Z)
    (status_callback : option callback) (range : list Z)
    (critique : option str) : M str :=
  match range with
  | [] =>
      match critique with
      | Some c => ret c
      | None => raise (UnboundLocalError (lit "critique"))
      end
  | attempt :: range' =>
      let* critique := criticize_plan env plan_content in
      let '(is_valid, error_msg) :=
        validate_critique_output env.(unicode) critique in
      if is_valid then ret critique
      else if attempt <? max_retry - 1 then
        let* _ := notify status_callback (retry_message error_msg attempt) in
        let* _ := sleep 1 in
        attempts env plan_content max_retry status_callback range' (Some critique)
      else
        let* _ := notify status_callback (fallback_message error_msg) in
        ret critique
  end.

Definition criticize_plan_with_validation (env : Env) (plan_content : str)
    (max_retry : Z) (status_callback : option callback) : M str :=
  attempts env plan_content max_retry status_callback (seqZ 0 max_retry) None.

(** *** [run_deep_reflection] *)

Definition refine_prompt (current_plan critique_text : str) : str :=
  join [10]
    [ lit "請根據 CTO 審核報告修正 PRD。";
      [];
      lit "原始 PRD：";
      current_plan;
      [];
      lit "CTO 審核報告：";
      critique_text;
      [];
      lit "請逐條回應 CTO 的建議，並輸出完整的修正後 PRD。" ].

Definition refine_request (env : Env) (current_plan critique_text : str)
  : Request := {|
  model := get_model_name env;
  contents := refine_prompt current_plan critique_text;
  config := {| system_instruction := env.(REFINE_SYSTEM_PROMPT);
               temperature := QArith_base.Qmake 3 10;
               max_output_tokens := Some 8000 |}
|}.

(** The body of the [try] block: critique, then refine. *)
Definition reflection_steps (env : Env) (client : Client) (current_plan : str)
    (status_callback : option callback) : M (str * str) :=
  let* critique_text :=
    criticize_plan_with_validation env current_plan 2 status_callback in
  let* refine_resp :=
    generate_content env client (refine_request env current_plan critique_text) in
  let refined_plan := text_or refine_resp.(text) current_plan in
  ret (critique_text, refined_plan).

Definition reflection_failed (e : exn) : str := lit "❌ 深度審核失敗：" ++ exn_str e.

Definition run_deep_reflection (env : Env) (current_plan : str)
    (status_callback : option callback) : M (str * str) :=
  let* client := get_client env in
  try_except
    (reflection_steps env client current_plan status_callback)
    (λ e, ret (reflection_failed e, current_plan)).

(** *** Vocabulary for the properties *)

(** The client can be obtained: it has been built already, or the key is set
    to a non-empty value. *)
Definition ready (env : Env) (w : World) : Prop :=
  is_Some w.(_client) ∨ get_api_key env ≠ [].

(** The client that [get_client] hands out in a ready world. *)
Definition the_client (env : Env) (w : World) : Client :=
  default {| api_key := get_api_key env |} w.(_client).

(** What [criticize_plan] makes of the service's reply. *)
Definition critique_of (rp : reply) : str :=
  match rp with
  | Responds r => text_or r.(text) []
  | Fails e => review_failed e
  end.

(** The critique obtained if the k-th generation call is a critique call. *)
Definition critique_at (env : Env) (plan_content : str) (k : nat) : str :=
  critique_of (env.(service) k (critic_request env plan_content)).

Definition valid (env : Env) (critique : str) : bool :=
  (validate_critique_output env.(unicode) critique).1.

(** [n] generation calls with the fixed one-second wait between them. *)
Fixpoint retry_trace (c : Client) (r : Request) (n : nat) : list event :=
  match n with
  | O => []
  | S n' =>
      match n' with
      | O => [Generate c r]
      | S _ => Generate c r :: Sleep 1 :: retry_trace c r n'
      end
  end.

(** A text-generation collaborator that always answers, and never with a
    valid critique. *)
Definition always_invalid (env : Env) : Prop :=
  ∀ k r, ∃ resp,
    env.(service) k r = Responds resp
    ∧ valid env (text_or resp.(text) []) = false.

(** A text-generation collaborator whose every call raises. *)
Definition always_fails (env : Env) : Prop :=
  ∀ k r, ∃ e, env.(service) k r = Fails e.

(** A process that has not built its client yet, and test doubles for the
    environment: prompts, key and service are the test's choice. *)
Definition fresh : World := {| _client := None; calls := 0; trace := [] |}.

Definition stub_env (key : option str) (svc : nat → Request → reply) : Env := {|
  CRITIC_SYSTEM_PROMPT := lit "critic";
  REFINE_SYSTEM_PROMPT := lit "refine";
  GEMINI_API_KEY := key;
  MODEL_NAME := None;
  unicode := re.ascii_db;
  service := svc
|}.

Definition chatty : nat → Request → reply :=
  λ _ _, Responds {| text := Some (lit "LGTM") |}.

Definition broken : nat → Request → reply :=
  λ _ _, Fails (Exception (lit "503 UNAVAILABLE")).

(** A service whose first answer is malformed and whose later answers are
    well-formed reports. *)
Definition flaky : nat → Request → reply :=
  λ k _, match k with
         | O => Responds {| text := Some (lit "LGTM") |}
         | S _ => Responds {| text := Some overscored_report |}
         end.


(** A status callback that returns normally whenever it is called; a call
    without callback counts as one. *)
Definition returns_normally (status_callback : option callback) : Prop :=
  match status_callback with
  | None => True
  | Some f => ∀ msg, f msg = None
  end.

(** Callbacks for the tests: one that only returns, one that stands for
    [st.warning] in a script that is being rerun. *)
Definition quiet : callback := λ _, None.

Definition rerun : callback :=
  λ _, Some (Control (ControlException (lit "RerunException"))).

(** A callback that fails with an ordinary error. *)
Definition faulty : callback :=
  λ _, Some (Error (Exception (lit "callback failed"))).

(** What a callback that is there leaves in the trace when it is called. *)
Definition announce (status_callback : option callback) (msg : str)
  : list event :=
  match status_callback with
  | None => []
  | Some _ => [Status msg]
  end.

Definition is_status (e : event) : bool :=
  match e with Status _ => true | _ => false end.

(** The trace without the status messages. *)
Definition unannounced (tr : list event) : list event :=
  List.filter (λ e, negb (is_status e)) tr.

(** No text that begins with [y] can begin inside [p], whatever follows [p]:
    from no position of [p] on does [y] fit, or the rest of [p] begin [y]. *)
Fixpoint clear_of (p y : str) : bool :=
  match p with
  | [] => true
  | _ :: p' =>
      negb (startswith p y) && negb (startswith y p) && clear_of p' y
  end.

(** A failing service whose error message happens to read like a report. *)
Definition echoing : nat → Request → reply :=
  λ _ _, Fails (Exception overscored_report).

(** *** [quick_update_plan] *)

(** A conversation message, [{"role": ..., "content": ...}]. *)
Record Message := { role : str; content : str }.

Definition transcript (history_messages : list Message) : str :=
  join [10] (map (λ m, m.(role) ++ lit ": " ++ m.(content)) history_messages).

(** [PLAN_SYSTEM_PROMPT] comes from [core/prompts.py], like the other
    prompt constants, and is passed in. *)
Definition plan_request (env : Env) (PLAN_SYSTEM_PROMPT : str)
    (history_messages : list Message) : Request := {|
  model := get_model_name env;
  contents := lit "請根據最新對話，更新開發計畫書：" ++ [10; 10]
              ++ transcript history_messages;
  config := {| system_instruction := PLAN_SYSTEM_PROMPT;
               temperature := QArith_base.Qmake 5 10;
               max_output_tokens := None |}
|}.

Definition update_failed (e : exn) : str := lit "更新失敗: " ++ exn_str e.

Definition quick_update_plan (env : Env) (PLAN_SYSTEM_PROMPT : str)
    (history_messages : list Message) : M str :=
  let* client := get_client env in
  try_except
    (let* response :=
       generate_content env client
         (plan_request env PLAN_SYSTEM_PROMPT history_messages) in
     ret (text_or response.(text) []))
    (λ e, ret (update_failed e)).

(** Generation calls made in a run, read off the trace. *)
Definition is_generate (e : event) : bool :=
  match e with Generate _ _ => true | _ => false end.

Definition generations (tr : list event) : nat :=
  length (List.filter is_generate tr).

End gemini_client.

(* ===================================================================== *)
(** ** [core/utils.py] *)
(* ===================================================================== *)

Module utils.

(** The local time read by [time.strftime], and its rendering with the
    format ['%Y-%m-%d %H:%M:%S'] (years of four digits). *)
Record struct_time := {
  tm_year : Z; tm_mon : Z; tm_mday : Z;
  tm_hour : Z; tm_min : Z; tm_sec : Z
}.

Definition digit (n : Z) : char := 48 + n mod 10.

Definition two_digits (n : Z) : str := [digit (n / 10); digit n].

Definition strftime (t : struct_time) : str :=
  [digit (t.(tm_year) / 1000); digit (t.(tm_year) / 100)]
  ++ two_digits t.(tm_year) ++ lit "-" ++ two_digits t.(tm_mon) ++ lit "-"
  ++ two_digits t.(tm_mday) ++ lit " " ++ two_digits t.(tm_hour) ++ lit ":"
  ++ two_digits t.(tm_min) ++ lit ":" ++ two_digits t.(tm_sec).

(** [convert_markdown_to_html(md_content, title)], at local time [t]. *)
Definition convert_markdown_to_html (t : struct_time) (md_content title : str) : str :=
  let now := strftime t in
  join [10]
    [ [];
      lit "<!DOCTYPE html>";
      lit "<html lang=" ++ dq ++ lit "zh-TW" ++ dq ++ lit ">";
      lit "<head>";
      lit "    <meta charset=" ++ dq ++ lit "UTF-8" ++ dq ++ lit ">";
      lit "    <meta name=" ++ dq ++ lit "viewport" ++ dq ++ lit " content=" ++ dq ++ lit "width=device-width, initial-scale=1.0" ++ dq ++ lit ">";
      lit "    <title>" ++ title ++ lit "</title>";
      lit "    <style>";
      lit "        body {";
      lit "            font-family: " ++ dq ++ lit "Microsoft JhengHei" ++ dq ++ lit ", " ++ dq ++ lit "微軟正黑體" ++ dq ++ lit ", Arial, sans-serif;";
      lit "            max-width: 900px;";
      lit "            margin: 40px auto;";
      lit "            padding: 20px;";
      lit "            line-height: 1.8;";
      lit "            color: #333;";
      lit "        }";
      lit "        h1 { color: #2c3e50; border-bottom: 3px solid #3498db; padding-bottom: 10px; }";
      lit "        h2 { color: #34495e; margin-top: 30px; border-left: 4px solid #3498db; padding-left: 10px; }";
      lit "        h3 { color: #555; margin-top: 20px; }";
      lit "        code {";
      lit "            background: #f4f4f4;";
      lit "            padding: 2px 6px;";
      lit "            border-radius: 3px;";
      lit "            font-family: " ++ dq ++ lit "Consolas" ++ dq ++ lit ", monospace;";
      lit "        }";
      lit "        pre {";
      lit "            background: #f8f8f8;";
      lit "            padding: 15px;";
      lit "            border-radius: 5px;";
      lit "            overflow-x: auto;";
      lit "            border-left: 4px solid #3498db;";
      lit "        }";
      lit "        table {";
      lit "            border-collapse: collapse;";
      lit "            width: 100%;";
      lit "            margin: 20px 0;";
      lit "        }";
      lit "        th, td {";
      lit "            border: 1px solid #ddd;";
      lit "            padding: 12px;";
      lit "            text-align: left;";
      lit "        }";
      lit "        th {";
      lit "            background: #3498db;";
      lit "            color: white;";
      lit "        }";
      lit "        .footer {";
      lit "            margin-top: 50px;";
      lit "            padding-top: 20px;";
      lit "            border-top: 1px solid #ddd;";
      lit "            text-align: center;";
      lit "            color: #999;";
      lit "            font-size: 0.9em;";
      lit "        }";
      lit "    </style>";
      lit "</head>";
      lit "<body>";
      replace 10 (lit "<br>") md_content;
      lit "<div class=" ++ dq ++ lit "footer" ++ dq ++ lit ">";
      lit "    文檔產生時間：" ++ now ++ lit "<br>";
      lit "    由 PRD Studio API 自動生成";
      lit "</div>";
      lit "</body>";
      lit "</html>";
      [] ].

Definition convert_markdown_to_txt (md_content : str) : str :=
  replace (ch "`") [] (replace (ch "*") [] (replace (ch "#") [] md_content)).

(** A [ZipFile] opened for writing, seen as the entries written so far: the
    name and the bytes of each.  The compressed container that [getvalue()]
    serialises them into is not modelled. *)
Definition entry := (str * list Z)%type.

(** [zip_file.writestr(name, data)] with [data] a [str]: it is encoded as
    UTF-8 first, which raises on a lone surrogate ([None]). *)
Definition writestr (zip_file : list entry) (name data : str)
  : option (list entry) :=
  match hashlib.encode data with
  | Some encoded => Some (zip_file ++ [(name, encoded)])
  | None => None
  end.

(** [if critique_content:] *)
Definition given (critique_content : option str) : option str :=
  match critique_content with
  | Some (c :: s) => Some (c :: s)
  | _ => None
  end.

(** [create_prd_zip(prd_content, critique_content)]; [now1] and [now2] are
    the clock readings of the two HTML conversions. *)
Definition create_prd_zip (now1 now2 : struct_time) (prd_content : str)
    (critique_content : option str) : option (list entry) :=
  zip_file ← writestr [] (lit "prd.md") prd_content;
  zip_file ← writestr zip_file (lit "prd.html")
                (convert_markdown_to_html now1 prd_content (lit "PRD"));
  zip_file ← writestr zip_file (lit "prd.txt")
                (convert_markdown_to_txt prd_content);
  match given critique_content with
  | Some critique =>
      zip_file ← writestr zip_file (lit "critique.md") critique;
      writestr zip_file (lit "critique.html")
        (convert_markdown_to_html now2 critique (lit "CTO 審核報告"))
  | None => Some zip_file
  end.

Definition names (archive : list entry) : list str := map fst archive.

(** The markup characters that the plain-text rendering drops. *)
Definition is_markup (c : char) : bool :=
  (c =? ch "#") || (c =? ch "*") || (c =? ch "`").

Definition noon : struct_time := {|
  tm_year := 2026; tm_mon := 1; tm_mday := 15;
  tm_hour := 12; tm_min := 0; tm_sec := 0
|}.

(** The bytes stored under [name], if any. *)
Definition read (archive : list entry) (name : str) : option (list Z) :=
  snd <$> List.find (λ e, str_eqb e.1 name) archive.

End utils.

(* ===================================================================== *)
(** ** [api.py]: the endpoints over the pipeline *)
(* ===================================================================== *)

Module api.
Import gemini_client.

(** How a request ends: with a response body, or with the [HTTPException]
    that the framework turns into an error response.  Logging is left out. *)
Inductive http (A : Type) :=
  | Response (body : A)
  | HTTPException (status_code : Z) (detail : str).
Arguments Response {A} body.
Arguments HTTPException {A} status_code detail.

(** [core/config.py]: [bool(get_api_key())] *)
Definition is_api_key_configured (env : Env) : bool :=
  match get_api_key env with [] => false | _ => true end.

Definition key_missing : str :=
  lit "GEMINI_API_KEY 環境變數未設定。請在 Render Dashboard 或本地環境設定此變數。".

Definition call_failed (e : exn) : str := lit "Gemini API 呼叫失敗：" ++ exn_str e.

(** [POST /generate_prd] *)
Definition generate_prd (env : Env) (PLAN_SYSTEM_PROMPT : str)
    (messages : list Message) : M (http str) :=
  if is_api_key_configured env then
    try_except
      (let* prd := quick_update_plan env PLAN_SYSTEM_PROMPT messages in
       ret (Response prd))
      (λ e, ret (HTTPException 502 (call_failed e)))
  else ret (HTTPException 500 key_missing).

(** [POST /critique_prd] *)
Definition critique_prd (env : Env) (prd_markdown : str) : M (http str) :=
  if is_api_key_configured env then
    try_except
      (let* critique := criticize_plan env prd_markdown in
       ret (Response critique))
      (λ e, ret (HTTPException 502 (call_failed e)))
  else ret (HTTPException 500 key_missing).

(** [POST /deep_review] *)
Definition deep_review (env : Env) (prd_markdown : str) : M (http (str * str)) :=
  if is_api_key_configured env then
    try_except
      (let* result := run_deep_reflection env prd_markdown None in
       ret (Response result))
      (λ e, ret (HTTPException 502 (call_failed e)))
  else ret (HTTPException 500 key_missing).

(** [str.strip()]: whitespace, as the Unicode tables have it, off both ends. *)
Fixpoint lstrip (U : re.unicode_db) (s : str) : str :=
  match s with
  | c :: s' => if U.(re.isspace) c then lstrip U s' else s
  | [] => []
  end.

Definition strip (U : re.unicode_db) (s : str) : str :=
  rev (lstrip U (rev (lstrip U s))).

(** A string with no whitespace at its start, or at its end. *)
Definition starts_clean (U : re.unicode_db) (s : str) : Prop :=
  match s with
  | c :: _ => U.(re.isspace) c = false
  | [] => True
  end.

Definition ends_clean (U : re.unicode_db) (s : str) : Prop :=
  starts_clean U (rev s).

(** [_get_cors_origins()], with [ALLOWED_ORIGINS] as the environment has it. *)
Definition _get_cors_origins (U : re.unicode_db) (ALLOWED_ORIGINS : option str)
  : list str :=
  let raw := strip U (default (lit "*") ALLOWED_ORIGINS) in
  if str_eqb raw [] || str_eqb raw (lit "*") then [lit "*"]
  else
    map (strip U)
      (List.filter (λ o, negb (str_eqb (strip U o) [])) (split (ch ",") raw)).

End api.

(* ===================================================================== *)
(** ** [legacy/app.py]: restoring a version from the history *)
(* ===================================================================== *)

Module legacy_app.
Import version_manager.

(** The part of [st.session_state] that the version list works on. *)
Record Session := {
  versions : list VersionRecord;
  plan_content : str;
  current_version_index : Z
}.

(** Is entry [i] the one shown as current? *)
Definition is_current (s : Session) (i : nat) : bool :=
  ((s.(current_version_index) =? -1)
   && (Z.of_nat i =? Z.of_nat (length s.(versions)) - 1))
  || (s.(current_version_index) =? Z.of_nat i).

Definition restore_note (v : VersionRecord) : str :=
  lit "從 v" ++ str_of_Z v.(version_number) ++ lit " 回滾".

(** The restore button of entry [i]: it is offered for entries other than
    the current one, shows the old content again and records the step as a
    new [manual] version.  The widgets themselves are left out. *)
Definition restore (now : str) (s : Session) (i : nat)
  : option (outcome bool * Session) :=
  match s.(versions) !! i with
  | Some v =>
      if is_current s i then None
      else
        let '(saved, versions') :=
          save_version now s.(versions) (lit "manual")
            v.(version_manager.content) (restore_note v) in
        Some (saved, {| versions := versions';
                        plan_content := v.(version_manager.content);
                        current_version_index := -1 |})
  | None => None
  end.

(** The session as the script sets it up on its first run. *)
Definition initial : Session := {|
  versions := [];
  plan_content := [];
  current_version_index := -1
|}.

(** The view button of entry [i]. *)
Definition view (s : Session) (i : nat) : option Session :=
  match s.(versions) !! i with
  | Some v =>
      Some {| versions := s.(versions);
              plan_content := v.(version_manager.content);
              current_version_index := Z.of_nat i |}
  | None => None
  end.

(** The button that leads back to the latest version: it is offered below a
    list that is not empty, while an older version is shown. *)
Definition back_to_latest (s : Session) : option Session :=
  match latest_content s.(versions) with
  | Some latest =>
      if s.(current_version_index) =? -1 then None
      else Some {| versions := s.(versions);
                   plan_content := latest;
                   current_version_index := -1 |}
  | None => None
  end.

(** The confirmed clearing of the conversation. *)
Definition clear (s : Session) : Session := {|
  versions := [];
  plan_content := [];
  current_version_index := -1
|}.

(** The other places that record a version (the chat round, the uploaded
    document, the deep review, the editor) go through [save_version_wrapper]
    and leave [current_version_index] alone; [plan] is what the place leaves
    in [plan_content]. *)
Definition record (now : str) (s : Session)
    (version_type content note plan : str) : Session := {|
  versions := (save_version now s.(versions) version_type content note).2;
  plan_content := plan;
  current_version_index := s.(current_version_index)
|}.

(** What a user can do to the version list, and a session as the outcome of
    a sequence of such steps.  A button that is not on offer does nothing. *)
Inductive action :=
  | View (i : nat)
  | Restore (now : str) (i : nat)
  | Latest
  | Clear
  | Record (now version_type content note plan : str).

Definition act (s : Session) (a : action) : Session :=
  match a with
  | View i => default s (view s i)
  | Restore now i => default s (snd <$> restore now s i)
  | Latest => default s (back_to_latest s)
  | Clear => clear s
  | Record now version_type content note plan =>
      record now s version_type content note plan
  end.

Definition run (actions : list action) : Session :=
  fold_left act actions initial.

(** The entries that the list draws with the marker of the current version,
    in the order of the list: newest first. *)
Definition marked (s : Session) : list nat :=
  List.filter (is_current s) (rev (seq 0 (length s.(versions)))).

(** The index of the shown version is [-1] or points into the list. *)
Definition index_ok (s : Session) : Prop :=
  s.(current_version_index) = -1
  ∨ 0 ≤ s.(current_version_index) < Z.of_nat (length s.(versions)).

(** The entry that carries the marker in a list that is not empty. *)
Definition current_entry (s : Session) : nat :=
  if s.(current_version_index) =? -1 then pred (length s.(versions))
  else Z.to_nat s.(current_version_index).

(** The button that compares two versions picked from the list. *)
Inductive comparison :=
  | Warning (msg : str)
  | Diff (diff_html : str).

Definition compare (s : Session) (old_idx new_idx : nat) : option comparison :=
  if (old_idx =? new_idx)%nat then
    Some (Warning (lit "請選擇不同的版本進行比較"))
  else
    match s.(versions) !! old_idx, s.(versions) !! new_idx with
    | Some old, Some new =>
        Some (Diff (show_diff old.(version_manager.content)
                      new.(version_manager.content)))
    | _, _ => None
    end.

End legacy_app.
(* ===================================================================== *)
(** * Properties *)
(* ===================================================================== *)

(** ** Sanity checks of the string layer and of MD5 against known digests *)

Example lit_labels : lit "綜合評分：" = [0x7D9C; 0x5408; 0x8A55; 0x5206; 0xFF1A].
Proof. vm_compute. reflexivity. Qed.

Example str_of_Z_ex : str_of_Z 1205 = lit "1205" /\ str_of_Z 0 = lit "0" /\ str_of_Z 10 = lit "10".
Proof. vm_compute. auto. Qed.

Example splitlines_ex :
  splitlines_keepends (lit "a" ++ [13; 10] ++ lit "b" ++ [10; 10] ++ lit "c")
  = [lit "a" ++ [13; 10]; lit "b" ++ [10]; [10]; lit "c"].
Proof. vm_compute. reflexivity. Qed.

Example md5_empty :
  hashlib.hexdigest (hashlib.md5 []) = lit "d41d8cd98f00b204e9800998ecf8427e".
Proof. vm_compute. reflexivity. Qed.

Example md5_abc :
  option_map (fun b => hashlib.hexdigest (hashlib.md5 b)) (hashlib.encode (lit "abc"))
  = Some (lit "900150983cd24fb0d6963f7d28e17f72").
Proof. vm_compute. reflexivity. Qed.

Example md5_two_blocks :
  hashlib.hexdigest (hashlib.md5 (repeat 97 56)) = lit "3b0c8ac703f828b04c6c197006d17218"
  /\ hashlib.hexdigest (hashlib.md5 (repeat 97 64)) = lit "014842d480b571495a4a0363793f7367".
Proof. vm_compute. auto. Qed.

Example md5_cjk :
  option_map (fun b => hashlib.hexdigest (hashlib.md5 b)) (hashlib.encode (lit "PRD 草稿"))
  = Some (lit "7af71e3625329058d4945931378f5a58").
Proof. vm_compute. reflexivity. Qed.

(** ** Sanity checks of the diff model against CPython 3.11 *)

Example unified_diff_ex :
  version_manager.diff_text (lit "a" ++ [10] ++ lit "b" ++ [10]) (lit "a" ++ [10] ++ lit "c" ++ [10])
  = join [10] [lit "--- 舊版本"; lit "+++ 新版本"; lit "@@ -1,2 +1,2 @@";
               lit " a" ++ [10]; lit "-b" ++ [10]; lit "+c" ++ [10]].
Proof. vm_compute. reflexivity. Qed.

(* ===================================================================== *)
(** ** [hashlib]: encoding and digest shape *)
(* ===================================================================== *)

Section hashlib_facts.
Import hashlib.

Lemma encode_char_Some c : is_surrogate c = false → is_Some (encode_char c).
Proof.
  intros H. unfold encode_char. rewrite H.
  repeat case_match; eauto.
Qed.

Lemma encode_char_None c : is_surrogate c = true → encode_char c = None.
Proof. intros H. unfold encode_char. by rewrite H. Qed.

Lemma encode_is_Some s : encodable s ↔ is_Some (encode s).
Proof.
  unfold encodable. induction s as [|c s IH]; simpl.
  - split; [eauto | constructor].
  - rewrite Forall_cons, IH. split.
    + intros [Hc [rest Hrest]]. destruct (encode_char_Some c Hc) as [bs Hbs].
      rewrite Hbs, Hrest. eauto.
    + intros [r Hr]. destruct (is_surrogate c) eqn:Hs.
      * rewrite (encode_char_None c Hs) in Hr. discriminate.
      * split; [done |]. destruct (encode_char c); [| discriminate].
        destruct (encode s); [eauto | discriminate].
Qed.

Lemma encodable_check s :
  forallb (λ c, negb (is_surrogate c)) s = true → encodable s.
Proof.
  unfold encodable. rewrite forallb_forall, Forall_forall.
  intros H c Hc. apply list_elem_of_In, H, negb_true_iff in Hc. exact Hc.
Qed.

Lemma length_le_bytes n x : length (le_bytes n x) = n.
Proof. revert x. induction n; intros; simpl; [done | by rewrite IHn]. Qed.

Lemma length_md5 msg : length (md5 msg) = 16%nat.
Proof.
  unfold md5. destruct (fold_left _ _ _) as [[[a b] c] d].
  rewrite !length_app, !length_le_bytes. done.
Qed.

Lemma length_hexdigest d : length (hexdigest d) = (2 * length d)%nat.
Proof.
  unfold hexdigest. induction d as [|b d IH]; simpl; [done | lia].
Qed.

Lemma hex_digit_is_hex n : 0 ≤ n < 16 → is_hex_char (hex_digit n) = true.
Proof.
  intros Hn. unfold is_hex_char, hex_digit.
  destruct (Z.ltb_spec n 10).
  - apply orb_true_iff. left. apply andb_true_iff. split; lia.
  - apply orb_true_iff. right. apply andb_true_iff. split; lia.
Qed.

Lemma hexdigest_is_hex d : Forall (λ c, is_hex_char c = true) (hexdigest d).
Proof.
  unfold hexdigest. induction d as [|b d IH]; simpl; [constructor |].
  repeat constructor; [| | exact IH].
  - apply hex_digit_is_hex. apply Z.mod_pos_bound. lia.
  - apply hex_digit_is_hex. apply Z.mod_pos_bound. lia.
Qed.

End hashlib_facts.

(* ===================================================================== *)
(** ** [save_version] *)
(* ===================================================================== *)

Section save_version_facts.
Import version_manager.

Lemma latest_content_snoc vs v : latest_content (vs ++ [v]) = Some v.(content).
Proof. unfold latest_content. by rewrite last_snoc. Qed.

Lemma latest_content_nil : latest_content [] = None.
Proof. done. Qed.

(** What one call does once the content has been encoded. *)
Lemma save_version_encoded now versions version_type text note encoded :
  hashlib.encode text = Some encoded →
  save_version now versions version_type text note =
    if bool_decide (latest_content versions = Some text)
    then (Returns false, versions)
    else (Returns true,
          versions ++ [ {| timestamp := now; type := version_type;
                           content := text; note := note;
                           hash := take 8 (hashlib.hexdigest (hashlib.md5 encoded));
                           word_count := Z.of_nat (length text);
                           version_number := Z.of_nat (length versions) + 1 |} ]).
Proof.
  intros He. unfold save_version. rewrite He.
  destruct (latest_content versions) as [latest|] eqn:Hl.
  - unfold str_eqb. destruct (decide (latest = text)) as [->|Hne].
    + by rewrite !bool_decide_eq_true_2.
    + rewrite !bool_decide_eq_false_2; [done | congruence | done].
  - by rewrite bool_decide_eq_false_2.
Qed.

Lemma save_version_unencodable now versions version_type text note :
  hashlib.encode text = None →
  save_version now versions version_type text note = (UnicodeEncodeError, versions).
Proof. intros He. unfold save_version. by rewrite He. Qed.

(** C1, as the claim words it, fails on a content string holding a lone
    surrogate: [content.encode()] raises before the list is looked at, so
    the call returns neither [False] nor [True]. *)
Lemma save_version_lone_surrogate :
  save_version (lit "2026-01-01 00:00:00") [] (lit "manual") [0xD800] []
    = (UnicodeEncodeError, [])
  ∧ ∀ b vs,
      save_version (lit "2026-01-01 00:00:00") [] (lit "manual") [0xD800] []
        ≠ (Returns b, vs).
Proof. split; [reflexivity | intros b vs H; vm_compute in H; discriminate]. Qed.

(** C1 (amended): for every versions list and every content string that
    [str.encode()] accepts (no lone surrogate), [save_version] returns [False]
    and leaves the list unchanged when the list is non-empty and the content
    of its last record is string-equal to the new content; otherwise it
    returns [True] and appends exactly one record whose [version_number] is
    the new list length, whose [content] is the given content and whose
    [hash] is the first 8 hexadecimal characters of the MD5 digest of the
    encoded content.  The decision looks at the latest record's content only:
    the [hash] field of that record plays no part. *)
Theorem save_version_spec now versions version_type text note :
  hashlib.encodable text →
  let result := save_version now versions version_type text note in
  (∀ latest, last versions = Some latest → latest.(content) = text →
     result = (Returns false, versions))
  ∧ ((versions = [] ∨
      ∃ latest, last versions = Some latest ∧ latest.(content) ≠ text) →
     ∃ v encoded,
       result = (Returns true, versions ++ [v])
       ∧ v.(version_number) = Z.of_nat (length (versions ++ [v]))
       ∧ v.(content) = text
       ∧ hashlib.encode text = Some encoded
       ∧ v.(hash) = take 8 (hashlib.hexdigest (hashlib.md5 encoded))
       ∧ length v.(hash) = 8%nat
       ∧ Forall (λ c, hashlib.is_hex_char c = true) v.(hash)).
Proof.
  intros Henc. apply encode_is_Some in Henc as [encoded He]. simpl.
  rewrite (save_version_encoded _ _ _ _ _ _ He). split.
  - intros latest Hl Hc. rewrite bool_decide_eq_true_2; [done |].
    unfold latest_content. by rewrite Hl; simpl; rewrite Hc.
  - intros Hfresh. rewrite bool_decide_eq_false_2.
    + eexists _, encoded. split; [reflexivity |]. simpl.
      rewrite length_app. simpl.
      repeat split; [lia | done | |].
      * rewrite length_take, length_hexdigest, length_md5. done.
      * apply Forall_take, hexdigest_is_hex.
    + unfold latest_content. destruct Hfresh as [-> | (latest & Hl & Hne)].
      * done.
      * rewrite Hl. simpl. congruence.
Qed.

Lemma save_version_spec_witness :
  hashlib.encodable (lit "# PRD")
  ∧ ∃ v, save_version (lit "2026-01-01 00:00:00") [] (lit "manual") (lit "# PRD") []
         = (Returns true, [v]) ∧ v.(version_number) = 1.
Proof.
  assert (He : hashlib.encodable (lit "# PRD")).
  { apply encodable_check. vm_compute. reflexivity. }
  split; [exact He |].
  destruct (save_version_spec (lit "2026-01-01 00:00:00") [] (lit "manual")
              (lit "# PRD") [] He) as [_ Happend].
  destruct (Happend (or_introl eq_refl)) as (v & encoded & Hr & Hn & _).
  exists v. split; [exact Hr | exact Hn].
Defined.

(** *** The store invariants along any history of calls *)

Lemma numbered_nil : numbered [].
Proof. intros i v H. by rewrite lookup_nil in H. Qed.

Lemma no_adjacent_duplicates_nil : no_adjacent_duplicates [].
Proof. intros i v w H. by rewrite lookup_nil in H. Qed.

Lemma numbered_snoc vs v :
  numbered vs → v.(version_number) = Z.of_nat (length vs) + 1 →
  numbered (vs ++ [v]).
Proof.
  intros Hvs Hv i w Hi.
  apply lookup_snoc_Some in Hi as [[_ Hi] | [-> ->]]; [by apply Hvs | done].
Qed.

Lemma no_adjacent_duplicates_snoc vs v :
  no_adjacent_duplicates vs → latest_content vs ≠ Some v.(content) →
  no_adjacent_duplicates (vs ++ [v]).
Proof.
  intros Hvs Hv i u w Hi Hsi.
  apply lookup_snoc_Some in Hsi as [[Hlt Hsi] | [Hlen ->]].
  - rewrite lookup_app_l in Hi by lia. by eapply Hvs.
  - rewrite lookup_app_l in Hi by lia.
    intros Heq. apply Hv. unfold latest_content.
    rewrite last_lookup. replace (pred (length vs)) with i by lia.
    rewrite Hi. simpl. by rewrite Heq.
Qed.

Lemma after_call_invariant vs c :
  numbered vs ∧ no_adjacent_duplicates vs →
  numbered (after_call vs c) ∧ no_adjacent_duplicates (after_call vs c).
Proof.
  intros [Hn Hd]. unfold after_call.
  destruct (hashlib.encode (call_content c)) as [encoded|] eqn:He.
  - rewrite (save_version_encoded _ _ _ _ _ _ He).
    case_bool_decide as Hsame; simpl; [done |]. split.
    + by apply numbered_snoc.
    + by apply no_adjacent_duplicates_snoc.
  - by rewrite (save_version_unencodable _ _ _ _ _ He).
Qed.

Lemma fold_after_call_invariant calls vs :
  numbered vs ∧ no_adjacent_duplicates vs →
  numbered (fold_left after_call calls vs)
  ∧ no_adjacent_duplicates (fold_left after_call calls vs).
Proof.
  revert vs. induction calls as [|c calls IH]; intros vs Hvs; simpl; [done |].
  by apply IH, after_call_invariant.
Qed.

(** C2: start from the empty list and make any sequence of [save_version]
    calls; after any number [k] of them the i-th record (1-indexed) has
    [version_number = i] and no two adjacent records share their content. *)
Theorem save_version_history_invariant (calls : list SaveCall) (k : nat) :
  numbered (after_calls (take k calls))
  ∧ no_adjacent_duplicates (after_calls (take k calls)).
Proof.
  apply fold_after_call_invariant.
  split; [apply numbered_nil | apply no_adjacent_duplicates_nil].
Qed.

End save_version_facts.

(* ===================================================================== *)
(** ** Strings: substring test, join, replace *)
(* ===================================================================== *)

Section str_facts.

Lemma startswith_spec s p : startswith s p = true ↔ ∃ suf, s = p ++ suf.
Proof.
  revert s. induction p as [|c p IH]; intros s; simpl.
  - split; [eauto | done].
  - destruct s as [|d s]; simpl.
    + split; [done | intros [suf H]; discriminate].
    + destruct (Z.eqb_spec c d) as [-> | Hne].
      * rewrite IH. split.
        -- intros [suf ->]. eauto.
        -- intros [suf H]. injection H as ->. eauto.
      * split; [done |]. intros [suf H]. injection H as -> ->. done.
Qed.

Lemma contains_spec s sub : contains s sub = true ↔ occurs sub s.
Proof.
  unfold occurs. induction s as [|d s IH]; simpl.
  - destruct (startswith [] sub) eqn:Hs.
    + apply startswith_spec in Hs as [suf Hs]. split; [| done].
      intros _. by exists [], suf.
    + split; [done |]. intros (pre & suf & H).
      assert (startswith [] sub = true); [| congruence].
      apply startswith_spec. destruct pre; [by exists suf | discriminate].
  - destruct (startswith (d :: s) sub) eqn:Hs.
    + apply startswith_spec in Hs as [suf Hs]. split; [| done].
      intros _. by exists [], suf.
    + rewrite IH. split.
      * intros (pre & suf & H). exists (d :: pre), suf. by rewrite H.
      * intros (pre & suf & H). destruct pre as [|e pre].
        -- assert (startswith (d :: s) sub = true); [| congruence].
           apply startswith_spec. by exists suf.
        -- injection H as -> ->. by exists pre, suf.
Qed.

Lemma contains_false s sub : contains s sub = false ↔ ¬ occurs sub s.
Proof.
  rewrite <- contains_spec. destruct (contains s sub); split; try done.
Qed.

Lemma occurs_join sep parts x : x ∈ parts → occurs x (join sep parts).
Proof.
  induction parts as [|p parts IH]; [by rewrite elem_of_nil |].
  rewrite elem_of_cons. intros [-> | Hin].
  - destruct parts as [|q parts]; simpl.
    + exists [], []. by rewrite app_nil_r.
    + exists [], (sep ++ join sep (q :: parts)). done.
  - destruct (IH Hin) as (pre & suf & Hj).
    destruct parts as [|q parts]; [by apply elem_of_nil in Hin |].
    change (join sep (p :: q :: parts)) with (p ++ sep ++ join sep (q :: parts)).
    rewrite Hj. exists (p ++ sep ++ pre), suf. by rewrite <- !app_assoc.
Qed.

Lemma replace_nil_filter old s :
  replace old [] s = List.filter (λ c, negb (c =? old)) s.
Proof.
  unfold replace. induction s as [|c s IH]; simpl; [done |].
  destruct (c =? old); simpl; by rewrite IH.
Qed.

End str_facts.

(* ===================================================================== *)
(** ** [re]: the matcher decides the denotation *)
(* ===================================================================== *)

Section re_facts.
Import re.
Variable U : unicode_db.

Lemma star_continue (p : char → bool) k s : k s = true → star p k s = true.
Proof.
  intros H. destruct s as [|c s]; simpl; [done |]. rewrite H.
  destruct (p c); [destruct (star p k s) |]; done.
Qed.

Lemma star_spec (p : char → bool) k s :
  star p k s = true ↔
  ∃ rep rest, s = rep ++ rest ∧ Forall (λ c, p c = true) rep ∧ k rest = true.
Proof.
  split.
  - induction s as [|c s IH]; simpl.
    + intros H. exists [], []. done.
    + destruct (p c) eqn:Hc.
      * destruct (star p k s) eqn:Hs.
        -- intros _. destruct (IH eq_refl) as (rep & rest & -> & Hrep & Hk).
           exists (c :: rep), rest. split; [done |]. split; [by constructor | done].
        -- intros Hk. exists [], (c :: s). done.
      * intros Hk. exists [], (c :: s). done.
  - intros (rep & rest & -> & Hrep & Hk).
    induction Hrep as [|c rep Hc Hrep IH]; simpl.
    + by apply star_continue.
    + rewrite Hc, IH. done.
Qed.

(** [match_here] succeeds exactly when a prefix of the input is denoted. *)
Lemma match_here_spec r s :
  match_here U r s = true ↔ ∃ m rest, s = m ++ rest ∧ denotes U r m.
Proof.
  revert s. induction r as [|[cs|cs|cs] r IH]; intros s; simpl.
  - split; [intros _; exists [], s; done | done].
  - destruct s as [|c s].
    + split; [done |]. intros (m & rest & Hs & c & s' & -> & _). discriminate.
    + destruct (member U cs c) eqn:Hc.
      * rewrite IH. split.
        -- intros (m & rest & -> & Hm).
           exists (c :: m), rest. split; [done |]. exists c, m. done.
        -- intros (m & rest & Hs & c' & s' & -> & _ & Hm).
           injection Hs as -> ->. eauto.
      * split; [done |].
        intros (m & rest & Hs & c' & s' & -> & Hc' & _).
        injection Hs as -> ->. congruence.
  - rewrite star_spec. split.
    + intros (rep & rest0 & -> & Hrep & Hk).
      apply IH in Hk as (m & rest & -> & Hm).
      exists (rep ++ m), rest. rewrite <- app_assoc. split; [done |].
      exists rep, m. done.
    + intros (m & rest & -> & rep & s' & -> & Hrep & Hm).
      exists rep, (s' ++ rest). rewrite <- app_assoc. split; [done |].
      split; [done |]. apply IH. eauto.
  - destruct s as [|c s].
    + split; [done |].
      intros (m & rest & Hs & rep & s' & -> & Hne & _).
      destruct rep; [done | discriminate].
    + destruct (member U cs c) eqn:Hc.
      * rewrite star_spec. split.
        -- intros (rep & rest0 & -> & Hrep & Hk).
           apply IH in Hk as (m & rest & -> & Hm).
           exists (c :: rep ++ m), rest. split; [simpl; by rewrite app_assoc |].
           exists (c :: rep), m. split; [done |]. split; [done |].
           split; [by constructor | done].
        -- intros (m & rest & Hs & rep & s' & -> & Hne & Hrep & Hm).
           destruct rep as [|c' rep]; [done |].
           injection Hs as -> ->. inversion Hrep; subst.
           exists rep, (s' ++ rest). rewrite <- app_assoc. split; [done |].
           split; [done |]. apply IH. eauto.
      * split; [done |].
        intros (m & rest & Hs & rep & s' & -> & Hne & Hrep & Hm).
        destruct rep as [|c' rep]; [done |].
        injection Hs as -> ->. inversion Hrep; subst. congruence.
Qed.

Lemma search_spec r s :
  search U r s = true ↔ ∃ pre m suf, s = pre ++ m ++ suf ∧ denotes U r m.
Proof.
  induction s as [|c s IH]; simpl.
  - destruct (match_here U r []) eqn:Hh.
    + apply match_here_spec in Hh as (m & rest & Hs & Hm). split; [| done].
      intros _. by exists [], m, rest.
    + split; [done |]. intros (pre & m & suf & Hs & Hm).
      assert (match_here U r [] = true); [| congruence].
      apply match_here_spec. destruct pre; [by exists m, suf | discriminate].
  - destruct (match_here U r (c :: s)) eqn:Hh.
    + apply match_here_spec in Hh as (m & rest & Hs & Hm). split; [| done].
      intros _. by exists [], m, rest.
    + rewrite IH. split.
      * intros (pre & m & suf & -> & Hm). by exists (c :: pre), m, suf.
      * intros (pre & m & suf & Hs & Hm). destruct pre as [|d pre].
        -- assert (match_here U r (c :: s) = true); [| congruence].
           apply match_here_spec. by exists m, suf.
        -- injection Hs as -> ->. by exists pre, m, suf.
Qed.

Lemma denotes_literal_app l r s :
  denotes U (literal l ++ r) s ↔ ∃ s', s = l ++ s' ∧ denotes U r s'.
Proof.
  revert s. induction l as [|c l IH]; intros s; simpl.
  - split; [eauto | by intros (s' & -> & H)].
  - split.
    + intros (c' & s' & -> & Hc & Hd). apply Z.eqb_eq in Hc as ->.
      apply IH in Hd as (s'' & -> & Hd). eauto.
    + intros (s' & -> & Hd). exists c, (l ++ s'). split; [done |].
      split; [apply Z.eqb_refl |]. apply IH. eauto.
Qed.

End re_facts.

(* ===================================================================== *)
(** ** [validate_critique_output] *)
(* ===================================================================== *)

Section validate_facts.
Import re gemini_client.
Variable U : unicode_db.

Lemma score_pattern_denotes m : denotes U score_pattern m ↔ score_line U m.
Proof.
  unfold score_pattern, score_line. rewrite denotes_literal_app.
  change (lit "100") with [49; 48; 48]. change (lit "/") with [47].
  change (ch "/") with 47. change (lit "：:") with [0xFF1A; 58].
  change (ch ":") with 58.
  generalize (lit "綜合評分"). intros label. simpl. split.
  - intros (s' & -> & c & s1 & -> & Hc & ws1 & s2 & -> & Hws1 & ds & s3 & ->
            & Hne & Hds & ws2 & s4 & -> & Hws2 & c' & s5 & -> & Hc' & ws3 & s6
            & -> & Hws3 & c1 & s7 & -> & H1 & c2 & s8 & -> & H2 & c3 & s9 & ->
            & H3 & ->).
    apply Z.eqb_eq in Hc', H1, H2, H3. subst.
    exists c, ws1, ds, ws2, ws3. split; [done |].
    split; [| done].
    rewrite orb_false_r, orb_true_iff, !Z.eqb_eq in Hc. exact Hc.
  - intros (colon & ws1 & ds & ws2 & ws3 & -> & Hc & Hws1 & Hne & Hds & Hws2 & Hws3).
    eexists. split; [done |].
    exists colon, (ws1 ++ ds ++ ws2 ++ 47 :: ws3 ++ [49; 48; 48]).
    split; [done |]. split.
    { rewrite orb_false_r, orb_true_iff, !Z.eqb_eq. exact Hc. }
    exists ws1, (ds ++ ws2 ++ 47 :: ws3 ++ [49; 48; 48]). split; [done |].
    split; [done |].
    exists ds, (ws2 ++ 47 :: ws3 ++ [49; 48; 48]). split; [done |].
    split; [done |]. split; [done |].
    exists ws2, (47 :: ws3 ++ [49; 48; 48]). split; [done |]. split; [done |].
    exists 47, (ws3 ++ [49; 48; 48]). split; [done |]. split; [done |].
    exists ws3, [49; 48; 48]. split; [done |]. split; [done |].
    exists 49, [48; 48]. split; [done |]. split; [done |].
    exists 48, [48]. split; [done |]. split; [done |].
    exists 48, []. done.
Qed.

(** The executable score check decides [has_score]. *)
Lemma score_search_spec text :
  search U score_pattern text = true ↔ has_score U text.
Proof.
  rewrite search_spec. unfold has_score. split.
  - intros (pre & m & suf & Hs & Hm). exists pre, m, suf.
    split; [exact Hs |]. exact (proj1 (score_pattern_denotes m) Hm).
  - intros (pre & m & suf & Hs & Hm). exists pre, m, suf.
    split; [exact Hs |]. exact (proj2 (score_pattern_denotes m) Hm).
Qed.

Lemma score_search_false text :
  search U score_pattern text = false ↔ ¬ has_score U text.
Proof.
  rewrite <- score_search_spec. by destruct (search U score_pattern text).
Qed.

Lemma score_format_not_required : score_format ∉ required_sections.
Proof.
  unfold required_sections. rewrite !elem_of_cons, elem_of_nil.
  intros [H | [H | [H | [H | [H | []]]]]]; vm_compute in H; discriminate.
Qed.

(** Membership in the list of missing items, item by item. *)
Lemma missing_section text section :
  section ∈ required_sections →
  (section ∈ missing_items U text ↔ ¬ occurs section text).
Proof.
  intros Hreq. unfold missing_items.
  assert (Hnf : section ≠ score_format).
  { intros ->. by apply score_format_not_required. }
  assert (Hf : section ∈ List.filter (λ s, negb (contains text s)) required_sections
               ↔ ¬ occurs section text).
  { rewrite list_elem_of_In, filter_In, <- list_elem_of_In, negb_true_iff,
      contains_false. tauto. }
  destruct (search U score_pattern text).
  - exact Hf.
  - rewrite elem_of_app, list_elem_of_singleton. tauto.
Qed.

Lemma missing_score_format text :
  score_format ∈ missing_items U text ↔ ¬ has_score U text.
Proof.
  unfold missing_items.
  assert (Hnot : score_format ∉ List.filter (λ s, negb (contains text s)) required_sections).
  { rewrite list_elem_of_In, filter_In, <- list_elem_of_In.
    intros [Hin _]. by apply score_format_not_required. }
  destruct (search U score_pattern text) eqn:Hs.
  - apply score_search_spec in Hs. tauto.
  - apply score_search_false in Hs.
    rewrite elem_of_app, list_elem_of_singleton. tauto.
Qed.

Lemma missing_only_known text x :
  x ∈ missing_items U text → x ∈ required_sections ∨ x = score_format.
Proof.
  unfold missing_items. intros Hx.
  assert (Hf : ∀ y, y ∈ List.filter (λ s, negb (contains text s)) required_sections
                    → y ∈ required_sections).
  { intros y. rewrite !list_elem_of_In, filter_In. tauto. }
  destruct (search U score_pattern text).
  - left. by apply Hf.
  - apply elem_of_app in Hx as [Hx | Hx]; [left; by apply Hf |].
    right. by apply list_elem_of_singleton in Hx.
Qed.

Lemma missing_nil_iff text :
  missing_items U text = [] ↔ has_all_sections text ∧ has_score U text.
Proof.
  split.
  - intros Hnil. split.
    + intros section Hreq. destruct (contains text section) eqn:Hc.
      * by apply contains_spec.
      * apply contains_false in Hc. apply (missing_section text) in Hc; [| done].
        rewrite Hnil in Hc. by apply elem_of_nil in Hc.
    + destruct (search U score_pattern text) eqn:Hs.
      * by apply score_search_spec.
      * apply score_search_false, missing_score_format in Hs.
        rewrite Hnil in Hs. by apply elem_of_nil in Hs.
  - intros [Hall Hscore]. destruct (missing_items U text) as [|x l] eqn:Hm; [done |].
    assert (Hx : x ∈ missing_items U text) by (rewrite Hm; left).
    destruct (missing_only_known _ _ Hx) as [Hreq | ->].
    + apply missing_section in Hx; [| done]. destruct Hx. by apply Hall.
    + apply missing_score_format in Hx. done.
Qed.

Lemma validate_valid_iff text :
  validate_critique_output U text = (true, [])
  ↔ has_all_sections text ∧ has_score U text.
Proof.
  rewrite <- missing_nil_iff. unfold validate_critique_output.
  destruct (missing_items U text); split; done.
Qed.

Lemma validate_invalid text :
  missing_items U text ≠ [] →
  validate_critique_output U text
  = (false, lit "缺少必要章節：" ++ join (lit ", ") (missing_items U text)).
Proof.
  unfold validate_critique_output. by destruct (missing_items U text).
Qed.

Lemma validate_verdict text :
  (validate_critique_output U text).1 = true
  ↔ validate_critique_output U text = (true, []).
Proof.
  unfold validate_critique_output. destruct (missing_items U text); split; done.
Qed.

(** C5: [validate_critique_output] returns [(True, "")] if and only if all
    five section labels (審核總評, 綜合評分, 通過檢查, 未通過檢查, 下一步行動)
    occur in the text as literal substrings and the score pattern (label,
    colon, a contiguous numeral, [/100], with the optional whitespace the
    pattern allows) matches somewhere in it.  Otherwise it returns
    [(False, reason)], where [reason] is the fixed prefix followed by the
    comma-joined list of failures: that list holds a section label exactly
    when the label does not occur, holds the score-format marker 評分格式
    exactly when the score pattern is absent, and holds nothing else; every
    listed item can be read in the reason.  No failure hides another. *)
Theorem validate_critique_output_spec text :
  let labels := [lit "審核總評"; lit "綜合評分"; lit "通過檢查";
                 lit "未通過檢查"; lit "下一步行動"] in
  (validate_critique_output U text = (true, [])
   ↔ (∀ section, section ∈ labels → occurs section text) ∧ has_score U text)
  ∧ (validate_critique_output U text = (true, [])
     ∨ ∃ missing reason,
         validate_critique_output U text = (false, reason)
         ∧ reason = lit "缺少必要章節：" ++ join (lit ", ") missing
         ∧ (∀ section, section ∈ labels →
              (section ∈ missing ↔ ¬ occurs section text))
         ∧ (lit "評分格式" ∈ missing ↔ ¬ has_score U text)
         ∧ (∀ x, x ∈ missing → x ∈ labels ∨ x = lit "評分格式")
         ∧ (∀ x, x ∈ missing → occurs x reason)).
Proof.
  intros labels. change labels with required_sections.
  change (lit "評分格式") with score_format.
  split; [apply validate_valid_iff |].
  destruct (missing_items U text) as [|x l] eqn:Hm.
  - left. unfold validate_critique_output. by rewrite Hm.
  - right. exists (missing_items U text), (lit "缺少必要章節：" ++ join (lit ", ") (missing_items U text)).
    split; [apply validate_invalid; by rewrite Hm |].
    split; [done |].
    split; [apply missing_section |].
    split; [apply missing_score_format |].
    split; [apply missing_only_known |].
    intros y Hy. destruct (occurs_join (lit ", ") _ _ Hy) as (pre & suf & Hj).
    exists (lit "缺少必要章節：" ++ pre), suf. rewrite Hj. by rewrite <- app_assoc.
Qed.

(** C6: the numerator is not range-checked.  For tables that know the ASCII
    digits and the space, a report with all five sections and the score line
    [綜合評分: 150/100] validates as ok with an empty reason. *)
Theorem validate_accepts_overscored :
  ascii_aware U →
  has_all_sections overscored_report
  ∧ occurs (lit "綜合評分: 150/100") overscored_report
  ∧ 100 < 150
  ∧ validate_critique_output U overscored_report = (true, []).
Proof.
  intros [Hdigit Hspace].
  assert (Hall : has_all_sections overscored_report).
  { intros section Hreq. apply contains_spec.
    revert Hreq. unfold required_sections.
    rewrite !elem_of_cons, elem_of_nil.
    intros [-> | [-> | [-> | [-> | [-> | []]]]]]; vm_compute; reflexivity. }
  split; [exact Hall |].
  split; [apply contains_spec; vm_compute; reflexivity |].
  split; [lia |].
  apply validate_valid_iff. split; [exact Hall |].
  exists (lit "## 審核總評" ++ [10] ++ lit "整體可行。" ++ [10]),
         (lit "綜合評分: 150/100"),
         ([10] ++ join [10] [ lit "## 通過檢查"; lit "- 目標明確";
                              lit "## 未通過檢查"; lit "- 無";
                              lit "## 下一步行動"; lit "- 進入開發" ]).
  split; [vm_compute; reflexivity |].
  exists 58, [32], (lit "150"), [], [].
  split; [vm_compute; reflexivity |].
  split; [by right |].
  split; [by repeat constructor |].
  split; [done |].
  split; [| split; constructor].
  change (lit "150") with [49; 53; 48].
  repeat constructor; apply Hdigit; lia.
Qed.

End validate_facts.

Lemma validate_accepts_overscored_witness :
  re.ascii_aware re.ascii_db
  ∧ gemini_client.validate_critique_output re.ascii_db gemini_client.overscored_report
    = (true, []).
Proof.
  assert (H : re.ascii_aware re.ascii_db).
  { split; [| reflexivity]. intros c Hc. unfold re.ascii_db. simpl.
    apply andb_true_iff. split; lia. }
  split; [exact H |].
  exact (proj2 (proj2 (proj2 (validate_accepts_overscored re.ascii_db H)))).
Defined.

Lemma validate_critique_output_spec_witness :
  gemini_client.validate_critique_output re.ascii_db (lit "LGTM")
  = (false,
     lit "缺少必要章節：審核總評, 綜合評分, 通過檢查, 未通過檢查, 下一步行動, 評分格式")
  ∧ gemini_client.validate_critique_output re.ascii_db
      (lit "審核總評 綜合評分: 87/100 通過檢查 未通過檢查")
    = (false, lit "缺少必要章節：下一步行動")
  ∧ gemini_client.validate_critique_output re.ascii_db
      (lit "審核總評 綜合評分 87/100 未通過檢查 下一步行動")
    = (false, lit "缺少必要章節：評分格式")
  ∧ gemini_client.validate_critique_output re.ascii_db
      (lit "審核總評 綜合評分: 87/100 未通過檢查 下一步行動")
    = (true, [])
  ∧ ∃ missing,
      lit "缺少必要章節：下一步行動"
      = lit "缺少必要章節：" ++ join (lit ", ") missing
      ∧ (lit "下一步行動" ∈ missing
         ↔ ¬ occurs (lit "下一步行動")
               (lit "審核總評 綜合評分: 87/100 通過檢查 未通過檢查")).
Proof.
  split; [by vm_compute |]. split; [by vm_compute |].
  split; [by vm_compute |]. split; [by vm_compute |].
  destruct (proj2 (validate_critique_output_spec re.ascii_db
                     (lit "審核總評 綜合評分: 87/100 通過檢查 未通過檢查")))
    as [Hok | (missing & reason & Hv & Hr & Hsec & _)].
  - vm_compute in Hok. discriminate.
  - exists missing. split.
    + rewrite <- Hr.
      assert (gemini_client.validate_critique_output re.ascii_db
                (lit "審核總評 綜合評分: 87/100 通過檢查 未通過檢查")
              = (false, lit "缺少必要章節：下一步行動")) as Hc by (by vm_compute).
      rewrite Hc in Hv. by injection Hv.
    + apply Hsec. do 4 right. left.
Defined.

(* ===================================================================== *)
(** ** The critique / refine pipeline *)
(* ===================================================================== *)

Section pipeline_facts.
Import re gemini_client.
Variable env : Env.

Lemma get_client_ready w :
  ready env w →
  get_client env w
  = (Ok (the_client env w),
     {| _client := Some (the_client env w); calls := w.(calls);
        trace := w.(trace) |}).
Proof.
  destruct w as [[c|] n tr]; unfold ready, get_client, the_client; simpl.
  - done.
  - intros [[c Hc] | Hkey]; [discriminate |].
    by destruct (get_api_key env).
Qed.


Lemma ready_after c n tr : ready env {| _client := Some c; calls := n; trace := tr |}.
Proof. left. simpl. eauto. Qed.

(** One critique call in a ready world: it never raises, whatever the
    service does. *)
Lemma criticize_plan_ready plan w :
  ready env w →
  criticize_plan env plan w
  = (Ok (critique_at env plan w.(calls)),
     {| _client := Some (the_client env w); calls := S w.(calls);
        trace := w.(trace) ++ [Generate (the_client env w) (critic_request env plan)] |}).
Proof.
  intros Hr. unfold criticize_plan, bind. rewrite (get_client_ready w Hr).
  unfold try_except, bind, generate_content, critique_at, critique_of. simpl.
  by destruct (service env (calls w) (critic_request env plan)).
Qed.

Lemma retry_trace_S c r n :
  retry_trace c r (S (S n)) = Generate c r :: Sleep 1 :: retry_trace c r (S n).
Proof. done. Qed.

Lemma generations_retry_trace c r n : generations (retry_trace c r n) = n.
Proof.
  unfold generations. induction n as [|[|n] IH]; [done | done |].
  rewrite retry_trace_S. simpl. simpl in IH. by rewrite IH.
Qed.

(** The retry loop without a status callback, from attempt [lo] on with
    [S n] attempts left: it stops at the first valid critique, or at the last
    attempt, and returns the critique of the attempt it stopped at. *)
Lemma attempts_run plan max_retry (n : nat) : ∀ lo prev w,
  ready env w →
  lo + Z.of_nat (S n) = max_retry →
  ∃ m : nat,
    (m ≤ n)%nat
    ∧ attempts env plan max_retry None (seqZ lo (Z.of_nat (S n))) prev w
      = (Ok (critique_at env plan (w.(calls) + m)),
         {| _client := Some (the_client env w);
            calls := w.(calls) + S m;
            trace := w.(trace)
                     ++ retry_trace (the_client env w) (critic_request env plan) (S m) |})
    ∧ (∀ k : nat, (k < m)%nat → valid env (critique_at env plan (w.(calls) + k)) = false)
    ∧ (m = n ∨ valid env (critique_at env plan (w.(calls) + m)) = true).
Proof.
  induction n as [|n IH]; intros lo prev w Hr Hlo.
  - exists 0%nat. split; [lia |].
    change (seqZ lo (Z.of_nat 1)) with [lo]. simpl. unfold bind.
    rewrite (criticize_plan_ready plan w Hr). rewrite !Nat.add_0_r.
    split; [| split; [intros k Hk; lia | by left]].
    destruct (validate_critique_output _ _) as [[] msg]; [by rewrite Nat.add_1_r |].
    replace (lo <? max_retry - 1) with false by (symmetry; apply Z.ltb_ge; lia).
    simpl. by rewrite Nat.add_1_r.
  - rewrite seqZ_cons by lia. simpl attempts. unfold bind at 1.
    rewrite (criticize_plan_ready plan w Hr).
    destruct (validate_critique_output _ _) as [is_valid msg] eqn:Hv.
    destruct is_valid.
    + exists 0%nat. rewrite !Nat.add_0_r, Nat.add_1_r.
      split; [lia |]. split; [done |].
      split; [intros k Hk; lia |]. right. unfold valid. by rewrite Hv.
    + replace (lo <? max_retry - 1) with true by (symmetry; apply Z.ltb_lt; lia).
      unfold notify, sleep, emit, ret. unfold bind at 1. unfold bind at 1.
      set (c := the_client env w).
      set (w2 := {| _client := Some c; calls := S (calls w);
                    trace := (trace w ++ [Generate c (critic_request env plan)]) ++ [Sleep 1] |}).
      replace (Z.pred (Z.of_nat (S (S n)))) with (Z.of_nat (S n)) by lia.
      destruct (IH (Z.succ lo) (Some (critique_at env plan (calls w))) w2)
        as (m & Hm & Hrun & Hbefore & Hlast); [apply ready_after | lia |].
      exists (S m). split; [lia |].
      split.
      { cbn [_client calls trace]. fold w2. rewrite Hrun. subst w2.
        cbn [_client calls trace]. 
        assert (Hc : the_client env {| _client := Some c; calls := S (calls w);
                     trace := (trace w ++ [Generate c (critic_request env plan)]) ++ [Sleep 1] |} = c)
          by done.
        rewrite Hc, retry_trace_S, <- !app_assoc.
        f_equal; [f_equal; f_equal; lia |]. f_equal. lia. }
      split.
      * intros k Hk. destruct k as [|k].
        -- rewrite Nat.add_0_r. unfold valid. by rewrite Hv.
        -- replace (calls w + S k)%nat with (calls w2 + k)%nat by (subst w2; simpl; lia).
           apply Hbefore. lia.
      * destruct Hlast as [-> | Hlast]; [by left |]. right.
        replace (calls w + S m)%nat with (calls w2 + m)%nat by (subst w2; simpl; lia).
        done.
Qed.

(** With every critique invalid, all the attempts are used. *)
Lemma attempts_all_invalid plan (n : nat) w :
  ready env w →
  (∀ k, valid env (critique_at env plan k) = false) →
  criticize_plan_with_validation env plan (Z.of_nat (S n)) None w
  = (Ok (critique_at env plan (w.(calls) + n)),
     {| _client := Some (the_client env w);
        calls := w.(calls) + S n;
        trace := w.(trace)
                 ++ retry_trace (the_client env w) (critic_request env plan) (S n) |}).
Proof.
  intros Hr Hinv. unfold criticize_plan_with_validation.
  destruct (attempts_run plan (Z.of_nat (S n)) n 0 None w Hr)
    as (m & Hm & Hrun & _ & Hlast); [lia |].
  destruct Hlast as [-> | Hlast]; [exact Hrun |].
  rewrite Hinv in Hlast. discriminate.
Qed.

(** With no attempt allowed the loop body never runs and the final
    [return critique] reads an unbound local. *)
Lemma no_attempts plan max_retry cb w :
  max_retry ≤ 0 →
  criticize_plan_with_validation env plan max_retry cb w
  = (Raise (UnboundLocalError (lit "critique")), w).
Proof.
  intros H. unfold criticize_plan_with_validation.
  assert (seqZ 0 max_retry = []) as ->; [| done].
  apply length_zero_iff_nil. rewrite length_seqZ. lia.
Qed.

(** A callback that returns normally only leaves its message in the
    trace. *)
Lemma notify_returns cb msg w :
  returns_normally cb →
  notify cb msg w
  = (Ok tt, {| _client := w.(_client); calls := w.(calls);
               trace := w.(trace) ++ announce cb msg |}).
Proof.
  destruct cb as [f|]; cbn [returns_normally notify announce].
  - intros Hf. unfold bind, emit. by rewrite Hf.
  - intros _. unfold ret. destruct w. cbn. by rewrite app_nil_r.
Qed.

Lemma unannounced_app tr1 tr2 :
  unannounced (tr1 ++ tr2) = unannounced tr1 ++ unannounced tr2.
Proof. apply List.filter_app. Qed.

Lemma unannounced_announce cb msg : unannounced (announce cb msg) = [].
Proof. by destruct cb. Qed.

Lemma unannounced_retry_trace c r n :
  unannounced (retry_trace c r n) = retry_trace c r n.
Proof.
  induction n as [|[|n] IH]; [done | done |].
  rewrite retry_trace_S. cbn. cbn in IH. by rewrite IH.
Qed.

(** The retry loop with a status callback that returns normally, from
    attempt [lo] on with [S n] attempts left: the calls, the waits and the
    result are those of the loop without callback. *)
Lemma attempts_returns plan max_retry cb (n : nat) : ∀ lo prev w,
  returns_normally cb →
  ready env w →
  lo + Z.of_nat (S n) = max_retry →
  ∃ (m : nat) tr,
    (m ≤ n)%nat
    ∧ attempts env plan max_retry cb (seqZ lo (Z.of_nat (S n))) prev w
      = (Ok (critique_at env plan (w.(calls) + m)),
         {| _client := Some (the_client env w);
            calls := w.(calls) + S m;
            trace := w.(trace) ++ tr |})
    ∧ unannounced tr
      = retry_trace (the_client env w) (critic_request env plan) (S m)
    ∧ (∀ k : nat, (k < m)%nat → valid env (critique_at env plan (w.(calls) + k)) = false)
    ∧ (m = n ∨ valid env (critique_at env plan (w.(calls) + m)) = true).
Proof.
  induction n as [|n IH]; intros lo prev w Hcb Hr Hlo.
  - exists 0%nat.
    change (seqZ lo (Z.of_nat 1)) with [lo]. cbn [attempts]. unfold bind at 1.
    rewrite (criticize_plan_ready plan w Hr). rewrite !Nat.add_0_r, Nat.add_1_r.
    destruct (validate_critique_output _ _) as [is_valid msg] eqn:Hv.
    destruct is_valid.
    + eexists. split; [lia |]. split; [reflexivity |].
      split; [done |]. split; [intros k Hk; lia | by left].
    + replace (lo <? max_retry - 1) with false by (symmetry; apply Z.ltb_ge; lia).
      unfold bind at 1. rewrite (notify_returns _ _ _ Hcb). cbn [_client calls trace].
      eexists. split; [lia |]. split; [unfold ret; by rewrite <- app_assoc |].
      split; [| split; [intros k Hk; lia | by left]].
      rewrite unannounced_app, unannounced_announce. done.
  - rewrite seqZ_cons by lia. cbn [attempts]. unfold bind at 1.
    rewrite (criticize_plan_ready plan w Hr).
    destruct (validate_critique_output _ _) as [is_valid msg] eqn:Hv.
    destruct is_valid.
    + exists 0%nat. rewrite !Nat.add_0_r, Nat.add_1_r.
      eexists. split; [lia |]. split; [reflexivity |].
      split; [done |]. split; [intros k Hk; lia |].
      right. unfold valid. by rewrite Hv.
    + replace (lo <? max_retry - 1) with true by (symmetry; apply Z.ltb_lt; lia).
      unfold bind at 1. rewrite (notify_returns _ _ _ Hcb). cbn [_client calls trace].
      unfold bind at 1. unfold sleep, emit. cbn [_client calls trace].
      set (c := the_client env w).
      set (w2 := {| _client := Some c; calls := S (calls w); trace := _ |}).
      replace (Z.pred (Z.of_nat (S (S n)))) with (Z.of_nat (S n)) by lia.
      destruct (IH (Z.succ lo) (Some (critique_at env plan (calls w))) w2 Hcb)
        as (m & tr & Hm & Hrun & Htr & Hbefore & Hlast); [apply ready_after | lia |].
      exists (S m). eexists. split; [lia |].
      split.
      { rewrite Hrun. subst w2. cbn [_client calls trace].
        change (the_client env {| _client := Some c; calls := S (calls w);
                  trace := ((trace w ++ [Generate c (critic_request env plan)])
                            ++ announce cb (retry_message msg lo)) ++ [Sleep 1] |})
          with c.
        rewrite <- !app_assoc.
        f_equal; [f_equal; f_equal; lia |]. f_equal. lia. }
      split.
      { rewrite !unannounced_app, unannounced_announce, Htr.
        subst w2. by rewrite retry_trace_S. }
      split.
      * intros k Hk. destruct k as [|k].
        -- rewrite Nat.add_0_r. unfold valid. by rewrite Hv.
        -- replace (calls w + S k)%nat with (calls w2 + k)%nat by (subst w2; simpl; lia).
           apply Hbefore. lia.
      * destruct Hlast as [-> | Hlast]; [by left |]. right.
        replace (calls w + S m)%nat with (calls w2 + m)%nat by (subst w2; simpl; lia).
        done.
Qed.

(** Where a control exception can come from: not from a critique call,
    only from the status callback. *)
Lemma criticize_plan_not_interrupted plan w b w' :
  criticize_plan env plan w ≠ (Interrupt b, w').
Proof.
  unfold criticize_plan, bind, get_client.
  destruct (_client w); [| destruct (get_api_key env)];
    unfold try_except, bind, generate_content; try done;
    by destruct (service env _ _).
Qed.

Lemma notify_interrupted cb msg w b w' :
  notify cb msg w = (Interrupt b, w') →
  ∃ f, cb = Some f ∧ f msg = Some (Control b).
Proof.
  destruct cb as [f|]; cbn [notify]; [| done].
  unfold bind, emit. destruct (f msg) as [[e | b']|] eqn:Hf; try done.
  intros [= <- _]. eauto.
Qed.

Lemma attempts_interrupted plan max_retry cb range : ∀ prev w b w',
  attempts env plan max_retry cb range prev w = (Interrupt b, w') →
  ∃ f msg, cb = Some f ∧ f msg = Some (Control b).
Proof.
  induction range as [|attempt range IH]; intros prev w b w'; cbn [attempts].
  { by destruct prev. }
  unfold bind at 1.
  destruct (criticize_plan env plan w) as [[critique | e | b0] w1] eqn:Hc;
    [| done | by apply criticize_plan_not_interrupted in Hc].
  destruct (validate_critique_output _ _) as [[] msg]; [done |].
  destruct (attempt <? max_retry - 1).
  - unfold bind at 1.
    destruct (notify cb _ w1) as [[[] | e | b0] w2] eqn:Hn; [| done |].
    + unfold bind at 1. unfold sleep, emit. apply IH.
    + intros [= <- _]. apply notify_interrupted in Hn as [f [-> Hf]]. eauto.
  - unfold bind at 1.
    destruct (notify cb _ w1) as [[[] | e | b0] w2] eqn:Hn; [done | done |].
    intros [= <- _]. apply notify_interrupted in Hn as [f [-> Hf]]. eauto.
Qed.

Lemma reflection_steps_interrupted c plan cb w b w' :
  reflection_steps env c plan cb w = (Interrupt b, w') →
  ∃ f msg, cb = Some f ∧ f msg = Some (Control b).
Proof.
  unfold reflection_steps, criticize_plan_with_validation. unfold bind at 1.
  destruct (attempts _ _ _ _ _ _ w) as [[critique | e | b0] w1] eqn:Ha; [| done |].
  - unfold bind, generate_content. by destruct (service env _ _).
  - intros [= <- _]. by apply attempts_interrupted in Ha.
Qed.

End pipeline_facts.

Section notice_facts.
Import re gemini_client.

Lemma occurs_past p y rest s :
  clear_of p y = true → occurs (y ++ rest) (p ++ s) → occurs (y ++ rest) s.
Proof.
  induction p as [|c p IH]; [done |]. cbn [clear_of].
  intros [[Hfit Hbegin]%andb_true_iff Hp]%andb_true_iff.
  apply negb_true_iff in Hfit. apply negb_true_iff in Hbegin.
  intros (pre & suf & Heq). destruct pre as [|d pre].
  - exfalso. cbn [app] in Heq. rewrite <- app_assoc in Heq.
    change (c :: p ++ s) with ((c :: p) ++ s) in Heq.
    apply app_eq_inv in Heq as [(k & Hk & _) | (k & Hk & _)].
    + assert (startswith (c :: p) y = true) as H
        by (apply startswith_spec; eauto).
      by rewrite H in Hfit.
    + assert (startswith y (c :: p) = true) as H
        by (apply startswith_spec; eauto).
      by rewrite H in Hbegin.
  - injection Heq as _ Heq. apply IH; [done |]. by exists pre, suf.
Qed.

Lemma occurs_after p x s : occurs x s → occurs x (p ++ s).
Proof.
  intros (pre & suf & ->). exists (p ++ pre), suf. by rewrite <- app_assoc.
Qed.

(** The failure notice of a critique call validates exactly when the text
    of the exception would validate on its own: the marker in front of it
    holds no section label and no beginning of one. *)
Lemma review_failed_valid env e :
  valid env (review_failed e) = valid env (exn_str e).
Proof.
  assert (∀ text, valid env text = true
                  ↔ has_all_sections text ∧ has_score (unicode env) text) as Hvalid.
  { intros text. unfold valid. rewrite validate_verdict. apply validate_valid_iff. }
  assert (valid env (review_failed e) = true ↔ valid env (exn_str e) = true) as Hiff.
  { rewrite !Hvalid. unfold review_failed. split.
    - intros [Hall Hscore]. split.
      + intros section Hin. specialize (Hall section Hin).
        rewrite <- (app_nil_r section) in Hall |- *.
        revert Hall. apply occurs_past.
        revert Hin. unfold required_sections.
        rewrite !elem_of_cons, elem_of_nil.
        intros [-> | [-> | [-> | [-> | [-> | []]]]]]; by vm_compute.
      + destruct Hscore as (pre & m & suf & Heq & Hm).
        assert (occurs m (exn_str e)) as (pre' & suf' & Heq').
        { destruct Hm as (colon & ws1 & digits & ws2 & ws3 & -> & _).
          apply (occurs_past (lit "❌ 審核失敗：")); [by vm_compute |].
          by exists pre, suf. }
        by exists pre', m, suf'.
    - intros [Hall Hscore]. split.
      + intros section Hin. by apply occurs_after, Hall.
      + destruct Hscore as (pre & m & suf & -> & Hm).
        exists (lit "❌ 審核失敗：" ++ pre), m, suf.
        split; [by rewrite <- app_assoc | done]. }
  destruct (valid env (review_failed e)), (valid env (exn_str e)); try done.
  - symmetry. by apply Hiff.
  - by apply Hiff.
Qed.

End notice_facts.

Section pipeline_claims.
Import re gemini_client.

(** C4: with a collaborator that always returns an invalid critique, a ready
    client and no status callback, [criticize_plan_with_validation(document,
    max_retry=2)] makes exactly two generation calls with one fixed
    one-second wait between them, returns the text of the second call as it
    is, and does not raise. *)
Theorem criticize_plan_with_validation_two_calls env document w :
  ready env w → always_invalid env →
  ∃ second w',
    env.(service) (S w.(calls)) (critic_request env document) = Responds second
    ∧ criticize_plan_with_validation env document 2 None w
      = (Ok (text_or second.(text) []), w')
    ∧ valid env (text_or second.(text) []) = false
    ∧ w'.(trace)
      = w.(trace) ++ [ Generate (the_client env w) (critic_request env document);
                       Sleep 1;
                       Generate (the_client env w) (critic_request env document) ]
    ∧ w'.(calls) = (w.(calls) + 2)%nat.
Proof.
  intros Hr Hinv.
  destruct (Hinv (S (calls w)) (critic_request env document)) as (second & Hs & Hbad).
  assert (Hall : ∀ k, valid env (critique_at env document k) = false).
  { intros k. unfold critique_at.
    destruct (Hinv k (critic_request env document)) as (resp & -> & Hb). exact Hb. }
  pose proof (attempts_all_invalid env document 1 w Hr Hall) as Hrun.
  change (Z.of_nat 2) with 2 in Hrun.
  eexists second, _. split; [exact Hs |].
  split.
  { rewrite Hrun. f_equal. f_equal. unfold critique_at.
    replace (calls w + 1)%nat with (S (calls w)) by lia. by rewrite Hs. }
  split; [exact Hbad |]. simpl. split; [done | lia].
Qed.

Lemma criticize_plan_with_validation_two_calls_witness :
  ready (stub_env (Some (lit "key")) chatty) fresh
  ∧ always_invalid (stub_env (Some (lit "key")) chatty)
  ∧ ∃ w', criticize_plan_with_validation (stub_env (Some (lit "key")) chatty)
            (lit "# PRD") 2 None fresh = (Ok (lit "LGTM"), w')
          ∧ generations w'.(trace) = 2%nat.
Proof.
  assert (Hr : ready (stub_env (Some (lit "key")) chatty) fresh).
  { right. vm_compute. discriminate. }
  assert (Hi : always_invalid (stub_env (Some (lit "key")) chatty)).
  { intros k r. eexists. split; [reflexivity |]. vm_compute. reflexivity. }
  split; [exact Hr |]. split; [exact Hi |].
  destruct (criticize_plan_with_validation_two_calls _ (lit "# PRD") fresh Hr Hi)
    as (second & w' & Hs & Hrun & _ & Htr & _).
  exists w'. injection Hs as <-. split; [exact Hrun |].
  rewrite Htr. reflexivity.
Defined.

(** C10, as worded, fails when the exception's own message reads like a
    well-formed report: the failure notice then passes validation, and the
    loop returns after a single generation call instead of using up its
    attempts. *)
Lemma service_failure_notice_can_validate :
  always_fails (stub_env (Some (lit "key")) echoing)
  ∧ valid (stub_env (Some (lit "key")) echoing)
      (review_failed (Exception overscored_report)) = true
  ∧ ∃ w', criticize_plan_with_validation (stub_env (Some (lit "key")) echoing)
            (lit "# PRD") 2 None fresh
          = (Ok (review_failed (Exception overscored_report)), w')
          ∧ generations w'.(trace) = 1%nat.
Proof.
  split; [intros k r; eexists; reflexivity |].
  split; [vm_compute; reflexivity |].
  eexists. split; [vm_compute; reflexivity | vm_compute; reflexivity].
Qed.

(** A notice whose message lacks the first character of the score label
    cannot validate; this covers the error texts a service ordinarily gives. *)
Lemma review_failed_invalid env e :
  0x7D9C ∉ exn_str e → valid env (review_failed e) = false.
Proof.
  intros Hno. unfold valid.
  destruct (validate_critique_output _ _) as [[] msg] eqn:Hv; [| done].
  exfalso. apply Hno.
  assert (H : validate_critique_output (unicode env) (review_failed e) = (true, [])).
  { apply validate_verdict. by rewrite Hv. }
  apply validate_valid_iff in H as [Hall _].
  destruct (Hall (lit "綜合評分")) as (pre & suf & Heq).
  { unfold required_sections. rewrite !elem_of_cons. auto. }
  assert (Hin : 0x7D9C ∈ review_failed e).
  { rewrite Heq. rewrite !elem_of_app. right. left. vm_compute. left. }
  unfold review_failed in Hin. apply elem_of_app in Hin as [Hin | Hin]; [| done].
  assert (Hp : Forall (λ c, c ≠ 0x7D9C) (lit "❌ 審核失敗：")).
  { vm_compute. repeat (constructor; [discriminate |]). constructor. }
  rewrite Forall_forall in Hp. by apply Hp in Hin.
Qed.

(** A status callback that raises an ordinary error is not covered by what
    follows: the loop does not guard the callback, so the error leaves
    [criticize_plan_with_validation]. *)
Lemma faulty_callback_raises :
  ∃ w', criticize_plan_with_validation (stub_env (Some (lit "key")) broken)
          (lit "# PRD") 2 (Some faulty) fresh
        = (Raise (Exception (lit "callback failed")), w').
Proof. eexists. vm_compute. reflexivity. Qed.

(** C10 (amended): with a ready client, at least one attempt allowed, a
    generation call that raises every time, and a status callback that is
    absent or returns normally (as [st.warning] does), [criticize_plan] does
    not propagate the exception but returns the failure notice, the
    review-failed marker followed by the exception text, and
    [criticize_plan_with_validation] does not raise either and returns the
    failure notice of the last call it made.  Notices are validated like any
    critique: each notice that fails validation costs one attempt, with the
    one-second wait in between and the status messages as the only other
    events, so the loop stops after [max_retry] calls unless an earlier
    notice passes validation.  A notice passes validation exactly when the
    exception text itself contains the five section labels and a score
    line. *)
Theorem service_failure_is_retried env plan status_callback (n : nat) w :
  ready env w → always_fails env → returns_normally status_callback →
  (∃ e w1, env.(service) w.(calls) (critic_request env plan) = Fails e
           ∧ criticize_plan env plan w
             = (Ok (lit "❌ 審核失敗：" ++ exn_str e), w1))
  ∧ (∀ e, valid env (lit "❌ 審核失敗：" ++ exn_str e) = true
          ↔ (∀ section,
               section ∈ [lit "審核總評"; lit "綜合評分"; lit "通過檢查";
                          lit "未通過檢查"; lit "下一步行動"] →
               occurs section (exn_str e))
            ∧ has_score env.(unicode) (exn_str e))
  ∧ ∃ (m : nat) e w' tr,
      (m ≤ n)%nat
      ∧ env.(service) (w.(calls) + m)%nat (critic_request env plan) = Fails e
      ∧ criticize_plan_with_validation env plan (Z.of_nat (S n)) status_callback w
        = (Ok (lit "❌ 審核失敗：" ++ exn_str e), w')
      ∧ w'.(calls) = (w.(calls) + S m)%nat
      ∧ w'.(trace) = w.(trace) ++ tr
      ∧ unannounced tr
        = retry_trace (the_client env w) (critic_request env plan) (S m)
      ∧ (status_callback = None →
         tr = retry_trace (the_client env w) (critic_request env plan) (S m))
      ∧ (∀ k : nat, (k < m)%nat →
           valid env (critique_at env plan (w.(calls) + k)) = false)
      ∧ (m = n ∨ valid env (lit "❌ 審核失敗：" ++ exn_str e) = true).
Proof.
  intros Hr Hfail Hcb. split; [| split].
  - destruct (Hfail (calls w) (critic_request env plan)) as [e He].
    eexists e, _. split; [exact He |].
    rewrite (criticize_plan_ready env plan w Hr). unfold critique_at. by rewrite He.
  - intros e. change (lit "❌ 審核失敗：" ++ exn_str e) with (review_failed e).
    rewrite review_failed_valid. unfold valid. rewrite validate_verdict.
    apply validate_valid_iff.
  - destruct (attempts_returns env plan (Z.of_nat (S n)) status_callback n 0 None w
                Hcb Hr) as (m & tr & Hm & Hrun & Htr & Hbefore & Hlast); [lia |].
    destruct (Hfail (calls w + m)%nat (critic_request env plan)) as [e He].
    assert (Hc : critique_at env plan (calls w + m) = review_failed e).
    { unfold critique_at. by rewrite He. }
    rewrite Hc in Hrun, Hlast.
    eexists m, e, _, tr. split; [exact Hm |]. split; [exact He |].
    split; [exact Hrun |]. cbn [calls trace].
    split; [done |]. split; [done |]. split; [exact Htr |].
    split; [| done].
    intros ->.
    destruct (attempts_run env plan (Z.of_nat (S n)) n 0 None w Hr)
      as (m' & Hm' & Hrun' & _); [lia |].
    unfold criticize_plan_with_validation in Hrun.
    rewrite Hrun' in Hrun. injection Hrun as _ Hcalls Htrace.
    apply app_inv_head in Htrace. assert (m' = m) as -> by lia. done.
Qed.

Lemma service_failure_is_retried_witness :
  ready (stub_env (Some (lit "key")) broken) fresh
  ∧ always_fails (stub_env (Some (lit "key")) broken)
  ∧ returns_normally (Some quiet)
  ∧ ∃ w', criticize_plan_with_validation (stub_env (Some (lit "key")) broken)
            (lit "# PRD") 2 (Some quiet) fresh
          = (Ok (lit "❌ 審核失敗：503 UNAVAILABLE"), w')
          ∧ w'.(calls) = 2%nat.
Proof.
  assert (Hr : ready (stub_env (Some (lit "key")) broken) fresh).
  { right. vm_compute. discriminate. }
  assert (Hf : always_fails (stub_env (Some (lit "key")) broken)).
  { intros k r. eexists. reflexivity. }
  assert (Hq : returns_normally (Some quiet)).
  { intros msg. reflexivity. }
  split; [exact Hr |]. split; [exact Hf |]. split; [exact Hq |].
  destruct (service_failure_is_retried _ (lit "# PRD") (Some quiet) 1 fresh Hr Hf Hq)
    as (_ & _ & m & e & w' & tr & Hm & He & Hrun & Hcalls & _ & _ & _ & _ & Hlast).
  injection He as <-.
  exists w'. split; [exact Hrun |].
  destruct Hlast as [-> | Hv]; [exact Hcalls |].
  vm_compute in Hv. discriminate.
Defined.


(** What [except Exception] lets through: a status callback that raises a
    control exception, as [st.warning] does in a script that is being rerun,
    ends [run_deep_reflection] with that exception. *)
Lemma run_deep_reflection_passes_control :
  ∃ w', run_deep_reflection (stub_env (Some (lit "key")) chatty) (lit "# PRD")
          (Some rerun) fresh
        = (Interrupt (ControlException (lit "RerunException")), w').
Proof. eexists. vm_compute. reflexivity. Qed.



End pipeline_claims.

(* ===================================================================== *)
(** ** [create_prd_zip] *)
(* ===================================================================== *)

Section utils_facts.
Import hashlib utils.

Lemma encodable_app a b : encodable (a ++ b) ↔ encodable a ∧ encodable b.
Proof. unfold encodable. apply Forall_app. Qed.

Lemma encodable_join sep parts :
  encodable sep → Forall encodable parts → encodable (join sep parts).
Proof.
  intros Hsep Hparts. induction Hparts as [|p parts Hp Hparts IH]; [constructor |].
  destruct parts as [|q parts]; [exact Hp |].
  change (join sep (p :: q :: parts)) with (p ++ sep ++ join sep (q :: parts)).
  rewrite !encodable_app. done.
Qed.

Lemma encodable_replace old new s :
  encodable new → encodable s → encodable (replace old new s).
Proof.
  intros Hnew Hs. unfold replace. induction Hs as [|c s Hc Hs IH]; simpl.
  - constructor.
  - apply encodable_app. split; [| exact IH].
    destruct (c =? old); [exact Hnew | by constructor].
Qed.

Lemma encodable_filter (p : char → bool) s :
  encodable s → encodable (List.filter p s).
Proof.
  intros Hs. induction Hs as [|c s Hc Hs IH]; simpl; [constructor |].
  destruct (p c); [by constructor | exact IH].
Qed.

Lemma digit_ascii n : 48 ≤ digit n ≤ 57.
Proof. unfold digit. pose proof (Z.mod_pos_bound n 10). lia. Qed.

Lemma encodable_digit n : is_surrogate (digit n) = false.
Proof.
  pose proof (digit_ascii n). unfold is_surrogate.
  apply andb_false_iff. left. apply Z.leb_gt. lia.
Qed.

Ltac encodable_parts :=
  repeat lazymatch goal with
    | |- Forall encodable (_ :: _) => apply List.Forall_cons
    | |- Forall encodable [] => apply List.Forall_nil
    | |- encodable (_ ++ _) => apply encodable_app; split
    | |- encodable (lit _) => apply encodable_check; vm_compute; reflexivity
    | |- encodable dq => apply encodable_check; vm_compute; reflexivity
    | |- encodable [] => apply List.Forall_nil
    | |- encodable (two_digits _) => unfold two_digits
    | |- encodable (digit _ :: _) =>
        repeat (apply List.Forall_cons; [apply encodable_digit |]);
        apply List.Forall_nil
    end.

Lemma encodable_strftime t : encodable (strftime t).
Proof.
  unfold strftime. encodable_parts.
Qed.

Lemma encodable_html t md title :
  encodable md → encodable title → encodable (convert_markdown_to_html t md title).
Proof.
  intros Hmd Htitle. unfold convert_markdown_to_html.
  apply encodable_join; [apply encodable_check; vm_compute; reflexivity |].
  encodable_parts; try assumption.
  - apply encodable_replace; [apply encodable_check; vm_compute; reflexivity | done].
  - apply encodable_strftime.
Qed.

Lemma convert_markdown_to_txt_filter md :
  convert_markdown_to_txt md = List.filter (λ c, negb (is_markup c)) md.
Proof.
  unfold convert_markdown_to_txt. rewrite !replace_nil_filter.
  induction md as [|c md IH]; simpl; [done |].
  unfold is_markup.
  destruct (c =? ch "#") eqn:H1; simpl; [exact IH |].
  destruct (c =? ch "*") eqn:H2; simpl; [exact IH |].
  destruct (c =? ch "`") eqn:H3; simpl; [exact IH |].
  by rewrite IH.
Qed.

Lemma writestr_encodable zip_file name data :
  encodable data →
  ∃ encoded, encode data = Some encoded
             ∧ writestr zip_file name data = Some (zip_file ++ [(name, encoded)]).
Proof.
  intros [encoded He]%encode_is_Some. exists encoded.
  unfold writestr. by rewrite He.
Qed.

Lemma writestr_unencodable zip_file name data :
  encode data = None → writestr zip_file name data = None.
Proof. intros He. unfold writestr. by rewrite He. Qed.

(** C9, as worded, fails on a primary document holding a lone surrogate:
    the first [writestr] cannot encode it and no archive is produced. *)
Lemma create_prd_zip_lone_surrogate :
  create_prd_zip noon noon [0xDC00] None = None.
Proof. vm_compute. reflexivity. Qed.

(** The archive, once the three renderings of the primary document are
    known to encode. *)
Lemma create_prd_zip_encoded now1 now2 prd_content critique_content md html txt :
  encode prd_content = Some md →
  encode (convert_markdown_to_html now1 prd_content (lit "PRD")) = Some html →
  encode (convert_markdown_to_txt prd_content) = Some txt →
  create_prd_zip now1 now2 prd_content critique_content
  = match given critique_content with
    | Some critique =>
        match encode critique,
              encode (convert_markdown_to_html now2 critique (lit "CTO 審核報告")) with
        | Some cmd, Some chtml =>
            Some [(lit "prd.md", md); (lit "prd.html", html); (lit "prd.txt", txt);
                  (lit "critique.md", cmd); (lit "critique.html", chtml)]
        | _, _ => None
        end
    | None =>
        Some [(lit "prd.md", md); (lit "prd.html", html); (lit "prd.txt", txt)]
    end.
Proof.
  intros H1 H2 H3. unfold create_prd_zip, writestr.
  rewrite H1. cbn [mbind option_bind app]. rewrite H2. cbn [mbind option_bind app].
  rewrite H3. cbn [mbind option_bind app].
  destruct (given critique_content) as [critique|]; [| done].
  destruct (encode critique) as [cmd|]; cbn [mbind option_bind app]; [| done].
  by destruct (encode (convert_markdown_to_html now2 critique (lit "CTO 審核報告"))).
Qed.

Lemma read_prd_md (md : list Z) rest :
  read ((lit "prd.md", md) :: rest) (lit "prd.md") = Some md.
Proof. vm_compute. reflexivity. Qed.

Lemma read_prd_txt (md html txt : list Z) rest :
  read ((lit "prd.md", md) :: (lit "prd.html", html) :: (lit "prd.txt", txt) :: rest)
    (lit "prd.txt") = Some txt.
Proof. vm_compute. reflexivity. Qed.

(** C9 (amended): for every primary document that [str.encode()] accepts (no
    lone surrogate), and a secondary document that is absent or likewise
    encodable, [create_prd_zip] produces an archive.  Its entry names are
    exactly [prd.md], [prd.html], [prd.txt], [critique.md], [critique.html]
    when the secondary document is a non-empty string, and exactly [prd.md],
    [prd.html], [prd.txt] when there is none (or it is empty).  The [prd.md]
    entry is the encoded primary content verbatim, and the [prd.txt] entry is
    the encoded primary content with every [#], [*] and backquote removed. *)
Theorem create_prd_zip_entries now1 now2 prd_content critique_content :
  encodable prd_content →
  (∀ critique, critique_content = Some critique → encodable critique) →
  ∃ archive,
    create_prd_zip now1 now2 prd_content critique_content = Some archive
    ∧ (∀ critique, critique_content = Some critique → critique ≠ [] →
         names archive = [lit "prd.md"; lit "prd.html"; lit "prd.txt";
                          lit "critique.md"; lit "critique.html"])
    ∧ (critique_content = None ∨ critique_content = Some [] →
         names archive = [lit "prd.md"; lit "prd.html"; lit "prd.txt"])
    ∧ read archive (lit "prd.md") = encode prd_content
    ∧ read archive (lit "prd.txt")
      = encode (List.filter (λ c, negb (is_markup c)) prd_content).
Proof.
  intros Hprd Hcrit.
  destruct (proj1 (encode_is_Some prd_content) Hprd) as [md Hmd].
  destruct (proj1 (encode_is_Some (convert_markdown_to_html now1 prd_content (lit "PRD"))))
    as [html Hhtml].
  { apply encodable_html; [exact Hprd | apply encodable_check; vm_compute; reflexivity]. }
  destruct (proj1 (encode_is_Some (convert_markdown_to_txt prd_content)))
    as [txt Htxt].
  { rewrite convert_markdown_to_txt_filter. by apply encodable_filter. }
  rewrite (create_prd_zip_encoded _ _ _ _ _ _ _ Hmd Hhtml Htxt).
  rewrite convert_markdown_to_txt_filter in Htxt. rewrite Hmd, Htxt.
  destruct critique_content as [[|c critique]|]; cbn [given].
  - eexists. split; [reflexivity |].
    split; [by intros ? [= <-] |]. split; [done |].
    split; [apply read_prd_md | apply read_prd_txt].
  - destruct (proj1 (encode_is_Some (c :: critique))) as [cmd Hcmd];
      [by apply Hcrit |].
    destruct (proj1 (encode_is_Some
                (convert_markdown_to_html now2 (c :: critique) (lit "CTO 審核報告"))))
      as [chtml Hchtml].
    { apply encodable_html;
        [by apply Hcrit | apply encodable_check; vm_compute; reflexivity]. }
    rewrite Hcmd, Hchtml.
    eexists. split; [reflexivity |].
    split; [done |]. split; [by intros [? | ?] |].
    split; [apply read_prd_md | apply read_prd_txt].
  - eexists. split; [reflexivity |].
    split; [by intros ? ? |]. split; [done |].
    split; [apply read_prd_md | apply read_prd_txt].
Qed.

Lemma create_prd_zip_entries_witness :
  encodable (lit "# PRD")
  ∧ ∃ archive,
      create_prd_zip noon noon (lit "# PRD") (Some (lit "ok")) = Some archive
      ∧ names archive = [lit "prd.md"; lit "prd.html"; lit "prd.txt";
                         lit "critique.md"; lit "critique.html"]
      ∧ read archive (lit "prd.txt") = Some [32; 80; 82; 68].
Proof.
  assert (H1 : encodable (lit "# PRD")).
  { apply encodable_check. vm_compute. reflexivity. }
  assert (H2 : ∀ critique, Some (lit "ok") = Some critique → encodable critique).
  { intros ? [= <-]. apply encodable_check. vm_compute. reflexivity. }
  split; [exact H1 |].
  destruct (create_prd_zip_entries noon noon (lit "# PRD") (Some (lit "ok")) H1 H2)
    as (archive & Hzip & Hfive & _ & _ & Htxt).
  exists archive. split; [exact Hzip |]. split.
  - apply (Hfive (lit "ok")); [reflexivity | vm_compute; discriminate].
  - rewrite Htxt. vm_compute. reflexivity.
Defined.

End utils_facts.

(* ===================================================================== *)
(** ** [show_diff]: the rendering *)
(* ===================================================================== *)

Section render_facts.
Import version_manager.

Lemma replace_app old new a b :
  replace old new (a ++ b) = replace old new a ++ replace old new b.
Proof. unfold replace. apply flat_map_app. Qed.

(** The three chained [replace] calls amount to one pass that turns each
    markup character into its entity; since [&] goes first, the ampersands of
    the entities written for [<] and [>] are not escaped again. *)
Lemma escape_entities line : escape line = flat_map entity line.
Proof.
  unfold escape. induction line as [|c line IH]; [done |].
  change (c :: line) with ([c] ++ line).
  rewrite !replace_app, IH. simpl flat_map. f_equal.
  unfold entity, replace.
  change (ch "&") with 38. change (ch "<") with 60. change (ch ">") with 62.
  change (lit "&amp;") with [38; 97; 109; 112; 59].
  change (lit "&lt;") with [38; 108; 116; 59].
  change (lit "&gt;") with [38; 103; 116; 59].
  destruct (c =? 38) eqn:E1.
  { apply Z.eqb_eq in E1 as ->. vm_compute. reflexivity. }
  destruct (c =? 60) eqn:E2.
  { apply Z.eqb_eq in E2 as ->. vm_compute. reflexivity. }
  destruct (c =? 62) eqn:E3.
  { apply Z.eqb_eq in E3 as ->. vm_compute. reflexivity. }
  cbn [flat_map app]. rewrite E1. cbn [flat_map app]. rewrite E2.
  cbn [flat_map app]. rewrite E3. reflexivity.
Qed.

Lemma startswith_one s c :
  startswith s [c] = true ↔ ∃ s', s = c :: s'.
Proof. rewrite startswith_spec. done. Qed.

Lemma startswith_longer s c : startswith s [c; c; c] = true → startswith s [c] = true.
Proof. rewrite !startswith_spec. intros [suf ->]. by exists (c :: c :: suf). Qed.

Lemma startswith_first s c d :
  c ≠ d → startswith s [c] = true → startswith s (d :: []) = false.
Proof.
  intros Hne [s' ->]%startswith_one.
  destruct (startswith (c :: s') [d]) eqn:H; [| done].
  apply startswith_one in H as [s'' H]. congruence.
Qed.

Lemma startswith_at s c :
  startswith s [c] = true → startswith s [64; 64] = true → c = 64.
Proof.
  intros [s' ->]%startswith_one [suf H]%startswith_spec.
  simpl in H. congruence.
Qed.

(** C8: in every rendering other than the no-difference marker, the diff
    text is cut at newlines, each line has [&], [<] and [>] replaced by
    their entities ([&] first) before it is embedded, and each line is tagged
    by its prefix: [+++] and [---] lines are wrapped in a [span] element with
    the neutral header style, and that rule wins over the one-character
    rules; other [+] lines get the [span] with the addition style, other [-]
    lines the one with the removal style, [@@] lines the one with the hunk
    style, and every remaining line is emitted as plain escaped context.  The
    lines are joined by newlines inside the [pre] element. *)
Theorem show_diff_rendering old_content new_content :
  diff_text old_content new_content ≠ [] →
  let lines := split 10 (diff_text old_content new_content) in
  show_diff old_content new_content
  = lit "<pre style=" ++ dq
    ++ lit "background: #1e1e1e; padding: 1rem; border-radius: 8px; overflow-x: auto; font-size: 0.85rem;"
    ++ dq ++ lit ">"
    ++ join [10] (map render_line lines) ++ lit "</pre>"
  ∧ ∀ line, line ∈ lines →
      let escaped :=
        replace (ch ">") (lit "&gt;")
          (replace (ch "<") (lit "&lt;")
             (replace (ch "&") (lit "&amp;") line)) in
      let header := startswith line (lit "+++") || startswith line (lit "---") in
      escaped = flat_map entity line
      ∧ (header = true →
           render_line line
           = lit "<span style=" ++ dq ++ lit "color: #888;" ++ dq ++ lit ">"
             ++ escaped ++ lit "</span>")
      ∧ (header = false → startswith line (lit "+") = true →
           render_line line
           = lit "<span style=" ++ dq
             ++ lit "color: #2ed573; background: rgba(46,213,115,0.1);"
             ++ dq ++ lit ">" ++ escaped ++ lit "</span>")
      ∧ (header = false → startswith line (lit "-") = true →
           render_line line
           = lit "<span style=" ++ dq
             ++ lit "color: #ff4757; background: rgba(255,71,87,0.1);"
             ++ dq ++ lit ">" ++ escaped ++ lit "</span>")
      ∧ (startswith line (lit "@@") = true →
           render_line line
           = lit "<span style=" ++ dq ++ lit "color: #5352ed;" ++ dq ++ lit ">"
             ++ escaped ++ lit "</span>")
      ∧ (startswith line (lit "+") = false → startswith line (lit "-") = false →
         startswith line (lit "@@") = false → render_line line = escaped).
Proof.
  intros Hne. split.
  - unfold show_diff. destruct (diff_text old_content new_content); [done |].
    unfold pre_open, pre_close. by rewrite <- !app_assoc.
  - intros line _. cbv zeta. fold (escape line).
    split; [apply escape_entities |].
    unfold render_line, span, header_style, added_style, removed_style, hunk_style.
    change (lit "+++") with [43; 43; 43]. change (lit "---") with [45; 45; 45].
    change (lit "+") with [43]. change (lit "-") with [45].
    change (lit "@@") with [64; 64].
    destruct (startswith line [43; 43; 43]) eqn:Hppp.
    { pose proof (startswith_longer _ _ Hppp) as Hp. cbn [orb].
      split; [done |]. split; [done |]. split; [done |]. split.
      - intros Hat. by pose proof (startswith_at _ _ Hp Hat).
      - intros Hp'. pose proof (eq_trans (eq_sym Hp) Hp'). discriminate. }
    destruct (startswith line [45; 45; 45]) eqn:Hmmm.
    { pose proof (startswith_longer _ _ Hmmm) as Hm. cbn [orb].
      split; [done |]. split; [done |]. split; [done |]. split.
      - intros Hat. by pose proof (startswith_at _ _ Hm Hat).
      - intros _ Hm'. pose proof (eq_trans (eq_sym Hm) Hm'). discriminate. }
    cbn [orb]. split; [done |]. split; [by intros _ -> |]. split; [| split].
    + intros _ Hm. destruct (startswith line [43]) eqn:Hp; [| by rewrite Hm].
      pose proof (startswith_first line 43 45 ltac:(done) Hp) as Hm'.
      pose proof (eq_trans (eq_sym Hm) Hm'). discriminate.
    + intros Hat. destruct (startswith line [43]) eqn:Hp.
      { by pose proof (startswith_at _ _ Hp Hat). }
      destruct (startswith line [45]) eqn:Hm.
      { by pose proof (startswith_at _ _ Hm Hat). }
      by rewrite Hat.
    + by intros -> -> ->.
Qed.

Lemma show_diff_rendering_witness :
  diff_text (lit "x>y" ++ [10] ++ lit "a<b") (lit "x>y" ++ [10] ++ lit "a&b") ≠ []
  ∧ show_diff (lit "x>y" ++ [10] ++ lit "a<b") (lit "x>y" ++ [10] ++ lit "a&b")
    = lit "<pre style=" ++ dq
      ++ lit "background: #1e1e1e; padding: 1rem; border-radius: 8px; overflow-x: auto; font-size: 0.85rem;"
      ++ dq ++ lit ">"
      ++ join [10]
           [ lit "<span style=" ++ dq ++ lit "color: #888;" ++ dq
             ++ lit ">--- 舊版本</span>";
             lit "<span style=" ++ dq ++ lit "color: #888;" ++ dq
             ++ lit ">+++ 新版本</span>";
             lit "<span style=" ++ dq ++ lit "color: #5352ed;" ++ dq
             ++ lit ">@@ -1,2 +1,2 @@</span>";
             lit " x&gt;y";
             [];
             lit "<span style=" ++ dq
             ++ lit "color: #ff4757; background: rgba(255,71,87,0.1);" ++ dq
             ++ lit ">-a&lt;b</span>";
             lit "<span style=" ++ dq
             ++ lit "color: #2ed573; background: rgba(46,213,115,0.1);" ++ dq
             ++ lit ">+a&amp;b</span>" ]
      ++ lit "</pre>".
Proof.
  assert (H : diff_text (lit "x>y" ++ [10] ++ lit "a<b")
                (lit "x>y" ++ [10] ++ lit "a&b") ≠ []).
  { vm_compute. discriminate. }
  split; [exact H |].
  rewrite (proj1 (show_diff_rendering _ _ H)).
  vm_compute. reflexivity.
Defined.

End render_facts.

(* ===================================================================== *)
(** ** [difflib]: a sequence compared with itself *)
(* ===================================================================== *)

Section index_facts.
Import difflib.

Lemma index_from_lookup b : ∀ i (m : gmap str (list Z)) x,
  default [] (index_from i b m !! x) = default [] (m !! x) ++ positions i x b.
Proof.
  induction b as [|elt b IH]; intros i m x; simpl.
  - by rewrite app_nil_r.
  - rewrite IH. unfold str_eqb. destruct (decide (elt = x)) as [-> | Hne].
    + rewrite lookup_insert_eq, bool_decide_eq_true_2 by done.
      simpl. by rewrite <- app_assoc.
    + rewrite lookup_insert_ne, bool_decide_eq_false_2 by done. done.
Qed.

Lemma js_of_cases b x : js_of b x = [] ∨ js_of b x = positions 0 x b.
Proof.
  unfold js_of, chain_b.
  pose proof (index_from_lookup b 0 ∅ x) as Hall.
  rewrite lookup_empty in Hall. simpl in Hall.
  destruct (200 <=? Z.of_nat (length b)); [| by right].
  destruct (filter _ _ !! x) as [js|] eqn:Hf; [| by left].
  apply map_lookup_filter_Some in Hf as [Hf _].
  rewrite Hf in Hall. simpl in Hall. right. exact Hall.
Qed.

Lemma positions_app x b1 : ∀ i b2,
  positions i x (b1 ++ b2)
  = positions i x b1 ++ positions (i + Z.of_nat (length b1)) x b2.
Proof.
  induction b1 as [|elt b1 IH]; intros i b2; simpl.
  - by rewrite Z.add_0_r.
  - rewrite IH, <- app_assoc. do 3 f_equal. lia.
Qed.

Lemma positions_range x b : ∀ i j,
  j ∈ positions i x b → i ≤ j < i + Z.of_nat (length b).
Proof.
  induction b as [|elt b IH]; intros i j; simpl.
  - by rewrite elem_of_nil.
  - rewrite elem_of_app. intros [Hj | Hj].
    + destruct (str_eqb elt x); [| by apply elem_of_nil in Hj].
      apply list_elem_of_singleton in Hj. lia.
    + apply IH in Hj. lia.
Qed.

Lemma positions_lookup x b : ∀ i j,
  j ∈ positions i x b → b !! Z.to_nat (j - i) = Some x.
Proof.
  induction b as [|elt b IH]; intros i j; simpl.
  - by rewrite elem_of_nil.
  - rewrite elem_of_app. intros [Hj | Hj].
    + unfold str_eqb in Hj. case_bool_decide as He; [| by apply elem_of_nil in Hj].
      apply list_elem_of_singleton in Hj. subst.
      by replace (Z.to_nat (i - i)) with 0%nat by lia.
    + pose proof (positions_range _ _ _ _ Hj).
      apply IH in Hj.
      replace (Z.to_nat (j - i)) with (S (Z.to_nat (j - (i + 1)))) by lia.
      exact Hj.
Qed.

(** The occurrences of the element at position [k], cut at [k]. *)
Lemma positions_split b (k : nat) x :
  b !! k = Some x →
  positions 0 x b
  = positions 0 x (take k b) ++ [Z.of_nat k]
    ++ positions (Z.of_nat k + 1) x (drop (S k) b).
Proof.
  intros Hk. rewrite <- (take_drop_middle b k x Hk) at 1.
  rewrite positions_app. simpl. unfold str_eqb.
  rewrite bool_decide_eq_true_2 by done.
  apply lookup_lt_Some in Hk.
  rewrite length_take, Nat.min_l by lia. done.
Qed.

End index_facts.

Section self_match.
Import difflib.
Variable L : list str.

Lemma run_neg j : j < 0 → run L j = 0.
Proof. intros H. unfold run. by rewrite (proj2 (Z.ltb_lt j 0) H). Qed.

Lemma run_step j :
  0 ≤ j →
  run L j = if visible L (Z.to_nat j) then 1 + run L (j - 1) else 0.
Proof.
  intros Hj. unfold run. rewrite (proj2 (Z.ltb_ge j 0) Hj).
  destruct (Z.to_nat j) as [|j'] eqn:Hn; simpl.
  - by replace (j - 1 <? 0) with true by (symmetry; apply Z.ltb_lt; lia).
  - replace (j - 1 <? 0) with false by (symmetry; apply Z.ltb_ge; lia).
    by replace (Z.to_nat (j - 1)) with j' by lia.
Qed.

Lemma run_nat_bounds vis j : 0 ≤ run_nat vis j ≤ Z.of_nat j + 1.
Proof.
  induction j as [|j IH]; simpl; destruct (vis _); lia.
Qed.

Lemma run_nonneg j : 0 ≤ run L j.
Proof.
  unfold run. destruct (j <? 0); [done |]. apply run_nat_bounds.
Qed.

Lemma run_bound j : 0 ≤ j → run L j ≤ j + 1.
Proof.
  intros Hj. unfold run. rewrite (proj2 (Z.ltb_ge j 0) Hj).
  pose proof (run_nat_bounds (visible L) (Z.to_nat j)). lia.
Qed.

(** Inside the range the row loop neither skips nor breaks, and its two
    results can be followed separately. *)
Lemma scan_row_in_range blo bhi i j2len js : ∀ bst newj2len,
  Forall (λ j, blo ≤ j < bhi) js →
  scan_row blo bhi i j2len js bst newj2len
  = (fold_left (best_step i j2len) js bst,
     fold_left (len_step j2len) js newj2len).
Proof.
  induction js as [|j js IH]; intros bst newj2len Hjs; simpl; [done |].
  inversion Hjs as [|? ? Hj Hjs']; subst.
  replace (j <? blo) with false by (symmetry; apply Z.ltb_ge; lia).
  replace (bhi <=? j) with false by (symmetry; apply Z.leb_gt; lia).
  destruct bst as [[besti bestj] bestsize].
  unfold best_step at 2. unfold len_step at 2. unfold get. simpl.
  destruct (bestsize <? default 0 (j2len !! (j - 1)) + 1); by rewrite IH.
Qed.

Lemma len_fold_get j2len js : ∀ m j,
  get (fold_left (len_step j2len) js m) j
  = if bool_decide (j ∈ js) then get j2len (j - 1) + 1 else get m j.
Proof.
  induction js as [|j0 js IH]; intros m j; cbn [fold_left].
  - rewrite bool_decide_eq_false_2; [done | apply not_elem_of_nil].
  - rewrite IH. case_bool_decide as Hin.
    + rewrite bool_decide_eq_true_2; [done | by right].
    + unfold len_step, get. destruct (decide (j = j0)) as [-> | Hne].
      * rewrite lookup_insert_eq, bool_decide_eq_true_2; [done | by left].
      * rewrite lookup_insert_ne by done.
        rewrite bool_decide_eq_false_2; [done |].
        intros [? | ?]%elem_of_cons; done.
Qed.

Lemma best_fold_keep i j2len js : ∀ bst,
  (∀ j, j ∈ js → get j2len (j - 1) + 1 ≤ bst.2) →
  fold_left (best_step i j2len) js bst = bst.
Proof.
  induction js as [|j js IH]; intros bst Hle; simpl; [done |].
  assert (best_step i j2len bst j = bst) as ->.
  { unfold best_step.
    replace (bst.2 <? get j2len (j - 1) + 1) with false; [done |].
    symmetry. apply Z.ltb_ge. apply Hle. by left. }
  apply IH. intros j' Hj'. apply Hle. by right.
Qed.

Lemma visible_of_js (k : nat) x j0 js :
  L !! k = Some x → js_of L x = j0 :: js → visible L k = true.
Proof. intros Hk Hjs. unfold visible. by rewrite Hk, Hjs. Qed.

Lemma invisible_of_js (k : nat) x :
  L !! k = Some x → js_of L x = [] → visible L k = false.
Proof. intros Hk Hjs. unfold visible. by rewrite Hk, Hjs. Qed.

End self_match.

Section self_scan.
Import difflib.
Variable L : list str.

(** One row of the scan keeps the invariant. *)
Lemma scan_step_inv i st :
  0 ≤ i < Z.of_nat (length L) →
  scan_inv L i st →
  scan_inv L (i + 1) (scan_step L (chain_b L) 0 (Z.of_nat (length L)) st i).
Proof.
  destruct st as [[[bi bj] bs] j2len].
  intros Hi (Hd & Hbi & Hbs & Hsum & Hruns & Hle & Hlei & Hdiag).
  unfold scan_step, item.
  replace (i <? 0) with false by (symmetry; apply Z.ltb_ge; lia).
  destruct (L !! Z.to_nat i) as [ai|] eqn:Hai.
  2: { apply lookup_ge_None in Hai. lia. }
  fold (js_of L ai).
  pose proof (run_step L i ltac:(lia)) as Hrun.
  destruct (js_of L ai) as [|j0 js0] eqn:Hjs.
  - rewrite (invisible_of_js L _ _ Hai Hjs) in Hrun.
    cbn [scan_row]. unfold scan_inv. replace (i + 1 - 1) with i by lia.
    split; [done |]. split; [done |]. split; [done |]. split; [lia |].
    split.
    { intros j Hj. destruct (decide (j = i)) as [-> |]; [lia | apply Hruns; lia]. }
    split. { intros j. unfold get. rewrite lookup_empty. apply run_nonneg. }
    split. { intros j. unfold get. rewrite lookup_empty. simpl. lia. }
    unfold get. rewrite lookup_empty. simpl. lia.
  - rewrite (visible_of_js L _ _ _ _ Hai Hjs) in Hrun.
    assert (Hpos : j0 :: js0 = positions 0 ai L).
    { destruct (js_of_cases L ai) as [H | H]; congruence. }
    rewrite Hpos.
    assert (Hrange : Forall (λ j, 0 ≤ j < Z.of_nat (length L)) (positions 0 ai L)).
    { apply Forall_forall. intros j Hj. apply positions_range in Hj. lia. }
    rewrite (scan_row_in_range _ _ _ _ _ _ _ Hrange).
    assert (HK : ∀ j, j ∈ positions 0 ai L →
                 get j2len (j - 1) + 1 ≤ run L j ∧ get j2len (j - 1) + 1 ≤ run L i).
    { intros j Hj. pose proof (positions_range _ _ _ _ Hj) as Hr.
      pose proof (positions_lookup _ _ _ _ Hj) as Hl.
      replace (j - 0) with j in Hl by lia.
      rewrite (run_step L j) by lia.
      rewrite (visible_of_js L _ _ _ _ Hl Hjs).
      pose proof (Hle (j - 1)). pose proof (Hlei (j - 1)). lia. }
    pose proof (positions_split L (Z.to_nat i) ai Hai) as Hsplit.
    rewrite Z2Nat.id in Hsplit by lia.
    assert (Hi_in : i ∈ positions 0 ai L).
    { rewrite Hsplit, !elem_of_app. right. left. by apply list_elem_of_singleton. }
    set (new := fold_left (len_step j2len) (positions 0 ai L) ∅).
    assert (Hnew : ∀ j, get new j
                        = if bool_decide (j ∈ positions 0 ai L)
                          then get j2len (j - 1) + 1 else 0).
    { intros j. unfold new. rewrite len_fold_get.
      assert (get ∅ j = 0) as -> by (unfold get; by rewrite lookup_empty).
      done. }
    assert (Hmap : (∀ j, get new j ≤ run L j) ∧ (∀ j, get new j ≤ run L i)
                   ∧ get new i = run L i).
    { split; [| split].
      - intros j. rewrite Hnew. case_bool_decide as Hj; [by apply HK |].
        apply run_nonneg.
      - intros j. rewrite Hnew. case_bool_decide as Hj; [by apply HK |].
        pose proof (run_nonneg L (i - 1)). lia.
      - rewrite Hnew, bool_decide_eq_true_2 by done. lia. }
    destruct Hmap as (Hm1 & Hm2 & Hm3).
    set (js1 := positions 0 ai (take (Z.to_nat i) L)) in *.
    set (js2 := positions (i + 1) ai (drop (S (Z.to_nat i)) L)) in *.
    assert (Hin1 : ∀ j, j ∈ js1 → j ∈ positions 0 ai L ∧ 0 ≤ j < i).
    { intros j Hj. split.
      - rewrite Hsplit, elem_of_app. by left.
      - apply positions_range in Hj. rewrite length_take in Hj. lia. }
    assert (Hin2 : ∀ j, j ∈ js2 → j ∈ positions 0 ai L).
    { intros j Hj. rewrite Hsplit, !elem_of_app. by right; right. }
    rewrite Hsplit, !fold_left_app.
    rewrite (best_fold_keep i j2len js1 (bi, bj, bs)).
    2: { intros j Hj. destruct (Hin1 j Hj) as [Hj' Hlt].
         destruct (HK j Hj') as [Hk _]. pose proof (Hruns j Hlt). simpl. lia. }
    cbn [fold_left]. unfold best_step at 2. cbn [snd].
    assert (HKi : get j2len (i - 1) + 1 = run L i) by lia.
    rewrite HKi.
    pose proof (run_bound L i ltac:(lia)) as Hbound.
    pose proof (run_nonneg L (i - 1)) as Hnn.
    destruct (Z.ltb_spec bs (run L i)) as [Hlt | Hge].
    + rewrite best_fold_keep.
      2: { intros j Hj. destruct (HK j (Hin2 j Hj)) as [_ Hk]. simpl. lia. }
      unfold scan_inv. replace (i + 1 - 1) with i by lia.
      split; [done |]. split; [lia |]. split; [lia |]. split; [lia |].
      split; [| done].
      intros j Hj. destruct (decide (j = i)) as [-> |]; [lia |].
      pose proof (Hruns j ltac:(lia)). lia.
    + rewrite best_fold_keep.
      2: { intros j Hj. destruct (HK j (Hin2 j Hj)) as [_ Hk]. simpl. lia. }
      unfold scan_inv. replace (i + 1 - 1) with i by lia.
      split; [done |]. split; [lia |]. split; [lia |]. split; [lia |].
      split; [| done].
      intros j Hj. destruct (decide (j = i)) as [-> |]; [lia |].
      apply Hruns. lia.
Qed.

End self_scan.

Section self_blocks.
Import difflib.
Variable L : list str.

Lemma scan_inv_init : scan_inv L 0 ((0, 0, 0), ∅).
Proof.
  unfold scan_inv.
  assert (Hget : ∀ j, get ∅ j = 0) by (intros j; unfold get; by rewrite lookup_empty).
  split; [done |]. split; [done |]. split; [done |]. split; [done |].
  split; [intros j Hj; lia |].
  split; [intros j; rewrite Hget; apply run_nonneg |].
  split; [intros j; rewrite Hget; by rewrite run_neg |].
  rewrite Hget. by rewrite run_neg.
Qed.

Lemma scan_rows_inv (k : nat) :
  (k ≤ length L)%nat →
  scan_inv L (Z.of_nat k)
    (fold_left (scan_step L (chain_b L) 0 (Z.of_nat (length L)))
       (seqZ 0 (Z.of_nat k)) ((0, 0, 0), ∅)).
Proof.
  induction k as [|k IH]; intros Hk.
  - apply scan_inv_init.
  - rewrite seqZ_S, fold_left_app. cbn [fold_left].
    replace (Z.of_nat (S k)) with (Z.of_nat k + 1) by lia.
    rewrite Z.add_0_l. apply scan_step_inv; [lia |]. apply IH. lia.
Qed.

(** The scan of a sequence against itself ends with a block on the diagonal
    that lies inside the sequence. *)
Lemma scan_self :
  ∃ besti bestsize,
    scan L (chain_b L) 0 (Z.of_nat (length L)) 0 (Z.of_nat (length L))
    = (besti, besti, bestsize)
    ∧ 0 ≤ besti ∧ 0 ≤ bestsize ∧ besti + bestsize ≤ Z.of_nat (length L).
Proof.
  unfold scan. rewrite Z.sub_0_r.
  pose proof (scan_rows_inv (length L) ltac:(lia)) as Hinv.
  destruct (fold_left _ _ _) as [[[bi bj] bs] j2len].
  destruct Hinv as (-> & Hbi & Hbs & Hsum & _).
  exists bj, bs. done.
Qed.

Lemma junk_at_false (b : list str) j : junk_at b j = false.
Proof. unfold junk_at, isbjunk. by destruct (item b j). Qed.

Lemma same_item_self j :
  0 ≤ j < Z.of_nat (length L) → same_item L L j j = true.
Proof.
  intros Hj. unfold same_item, item.
  replace (j <? 0) with false by (symmetry; apply Z.ltb_ge; lia).
  destruct (L !! Z.to_nat j) eqn:Hl.
  - unfold str_eqb. by apply bool_decide_eq_true_2.
  - apply lookup_ge_None in Hl. lia.
Qed.

Lemma extend_left_self (fuel : nat) : ∀ besti bestsize,
  besti = Z.of_nat fuel → besti ≤ Z.of_nat (length L) →
  extend_left fuel false L L 0 0 (besti, besti, bestsize)
  = (0, 0, bestsize + besti).
Proof.
  induction fuel as [|fuel IH]; intros besti bestsize Hf Hle; simpl.
  - subst. by rewrite Z.add_0_r.
  - replace (0 <? besti) with true by (symmetry; apply Z.ltb_lt; lia).
    rewrite junk_at_false, same_item_self by lia. simpl.
    rewrite IH by lia. f_equal. lia.
Qed.

Lemma extend_right_self (fuel : nat) : ∀ bestsize,
  0 ≤ bestsize → bestsize + Z.of_nat fuel = Z.of_nat (length L) →
  extend_right fuel false L L (Z.of_nat (length L)) (Z.of_nat (length L))
    (0, 0, bestsize)
  = (0, 0, Z.of_nat (length L)).
Proof.
  induction fuel as [|fuel IH]; intros bestsize Hb Hf; simpl.
  - f_equal. lia.
  - rewrite !Z.add_0_l.
    replace (bestsize <? Z.of_nat (length L)) with true
      by (symmetry; apply Z.ltb_lt; lia).
    rewrite junk_at_false, same_item_self by lia. simpl.
    apply IH; lia.
Qed.

Lemma extend_left_junk fuel (a b : list str) alo blo bst :
  extend_left fuel true a b alo blo bst = bst.
Proof.
  destruct fuel as [|fuel]; simpl; [done |].
  destruct bst as [[besti bestj] bestsize].
  rewrite junk_at_false. simpl. by rewrite andb_false_r.
Qed.

Lemma extend_right_junk fuel (a b : list str) ahi bhi bst :
  extend_right fuel true a b ahi bhi bst = bst.
Proof.
  destruct fuel as [|fuel]; simpl; [done |].
  destruct bst as [[besti bestj] bestsize].
  rewrite junk_at_false. simpl. by rewrite andb_false_r.
Qed.

(** The longest block of a sequence against itself is the whole sequence. *)
Lemma find_longest_match_self :
  find_longest_match L L (chain_b L) 0 (Z.of_nat (length L)) 0 (Z.of_nat (length L))
  = (0, 0, Z.of_nat (length L)).
Proof.
  unfold find_longest_match.
  destruct scan_self as (bi & bs & -> & Hbi & Hbs & Hsum).
  cbv zeta. rewrite extend_right_junk, extend_left_junk.
  assert (Hl : extend_left (left_room 0 (bi, bi, bs)) false L L 0 0 (bi, bi, bs)
               = (0, 0, bs + bi)).
  { apply extend_left_self; unfold left_room; simpl; lia. }
  rewrite Hl. apply extend_right_self; unfold right_room; simpl; lia.
Qed.

End self_blocks.

Section self_diff.
Import difflib.

Lemma match_loop_done fuel (a b : list str) b2j blocks :
  match_loop fuel a b b2j [] blocks = blocks.
Proof. by destruct fuel. Qed.

Lemma get_matching_blocks_self (L : list str) :
  L ≠ [] →
  get_matching_blocks L L
  = [(0, 0, Z.of_nat (length L)); (Z.of_nat (length L), Z.of_nat (length L), 0)].
Proof.
  intros Hne. unfold get_matching_blocks.
  assert (Hpos : 0 < Z.of_nat (length L)) by (destruct L; [done | simpl; lia]).
  replace (2 * length L + 1)%nat with (S (2 * length L)) by lia.
  cbn [match_loop]. rewrite find_longest_match_self.
  replace (Z.of_nat (length L) =? 0) with false by (symmetry; apply Z.eqb_neq; lia).
  change (0 <? 0) with false. rewrite ?Z.add_0_l, ?Z.ltb_irrefl. cbn [andb].
  rewrite match_loop_done. cbn [app sort foldr insert_sorted fold_left collapse_step].
  change (0 + 0 =? 0) with true. cbn [andb]. rewrite Z.add_0_l.
  replace (Z.of_nat (length L) =? 0) with false by (symmetry; apply Z.eqb_neq; lia).
  done.
Qed.

Lemma get_opcodes_self (L : list str) :
  L ≠ [] →
  get_opcodes L L = [(Equal, 0, Z.of_nat (length L), 0, Z.of_nat (length L))].
Proof.
  intros Hne. unfold get_opcodes. rewrite get_matching_blocks_self by done.
  assert (Hpos : 0 < Z.of_nat (length L)) by (destruct L; [done | simpl; lia]).
  cbn [fold_left opcode_step]. change (0 <? 0) with false. cbn [andb].
  rewrite ?Z.add_0_l, ?Z.add_0_r, ?Z.ltb_irrefl. cbn [andb].
  replace (Z.of_nat (length L) =? 0) with false by (symmetry; apply Z.eqb_neq; lia).
  change (0 =? 0) with true. cbn [app snd]. done.
Qed.

(** A single "equal" opcode never makes a group, whatever its length. *)
Lemma group_codes_equal n :
  0 ≤ n → group_codes 3 [(Equal, 0, n, 0, n)] = [].
Proof.
  intros Hn. unfold group_codes. cbn [trim_first].
  unfold trim_last. cbn [last length pred]. cbn [list_insert insert].
  simpl insert. cbn [fold_left group_step is_equal andb].
  replace (3 + 3 <? Z.min n (Z.max 0 (n - 3) + 3) - Z.max 0 (n - 3)) with false
    by (symmetry; apply Z.ltb_ge; lia).
  done.
Qed.

Lemma get_grouped_opcodes_self (L : list str) : get_grouped_opcodes L L 3 = [].
Proof.
  destruct L as [|x L]; [vm_compute; reflexivity |].
  unfold get_grouped_opcodes. rewrite get_opcodes_self by done.
  apply group_codes_equal. lia.
Qed.

Lemma unified_diff_self (L : list str) fromfile tofile lineterm :
  unified_diff L L fromfile tofile 3 lineterm = [].
Proof. unfold unified_diff. by rewrite get_grouped_opcodes_self. Qed.

(** For every text [X], the empty string included, [show_diff(X, X)] is the
    no-difference marker: the matcher finds the whole sequence of lines as
    one block (also past the 200-line threshold where frequent lines leave
    the index), so the unified diff has no hunk and its text is empty. *)
Theorem show_diff_same (X : str) :
  version_manager.show_diff X X = version_manager.no_difference
  ∧ version_manager.no_difference ≠ [].
Proof.
  split; [| vm_compute; discriminate].
  unfold version_manager.show_diff, version_manager.diff_text.
  by rewrite unified_diff_self.
Qed.

(** C7: for every text [X], [show_diff(X, X)] is the no-difference marker
    ⚪ 兩個版本內容相同, and so it is for the empty string; the marker is not
    the empty string and is not a rendering, which would begin with the
    opening of the [pre] element. *)
Theorem show_diff_of_equal_texts (X : str) :
  version_manager.show_diff X X = lit "⚪ 兩個版本內容相同"
  ∧ version_manager.show_diff [] [] = lit "⚪ 兩個版本內容相同"
  ∧ version_manager.show_diff X X ≠ []
  ∧ ∀ rest,
      version_manager.show_diff X X
      ≠ lit "<pre style=" ++ dq
        ++ lit "background: #1e1e1e; padding: 1rem; border-radius: 8px; overflow-x: auto; font-size: 0.85rem;"
        ++ dq ++ lit ">" ++ rest.
Proof.
  assert (∀ Y, version_manager.show_diff Y Y = lit "⚪ 兩個版本內容相同") as H.
  { intros Y. unfold version_manager.show_diff, version_manager.diff_text.
    by rewrite unified_diff_self. }
  rewrite !H. split; [done |]. split; [done |].
  split; [by vm_compute |].
  intros rest Heq. apply (f_equal head) in Heq.
  by vm_compute in Heq.
Qed.

End self_diff.

(* ===================================================================== *)
(** ** More on the version store *)
(* ===================================================================== *)

Section store_facts.
Import version_manager.

Lemma after_call_cases vs c :
  after_call vs c = vs ∨ ∃ v, after_call vs c = vs ++ [v].
Proof.
  unfold after_call.
  destruct (hashlib.encode (call_content c)) as [encoded|] eqn:He.
  - rewrite (save_version_encoded _ _ _ _ _ _ He).
    case_bool_decide; simpl; [by left | right; eauto].
  - rewrite (save_version_unencodable _ _ _ _ _ He). by left.
Qed.

Lemma after_call_prefix vs c : vs `prefix_of` after_call vs c.
Proof.
  destruct (after_call_cases vs c) as [-> | [v ->]].
  - done.
  - by apply prefix_app_r.
Qed.

Lemma fold_after_call_prefix calls : ∀ vs,
  vs `prefix_of` fold_left after_call calls vs.
Proof.
  induction calls as [|c calls IH]; intros vs; simpl; [done |].
  etrans; [apply after_call_prefix | apply IH].
Qed.

(** The history is append-only: whatever calls follow, the store as it
    stood after the first [k] calls is still there, unchanged and in place,
    as a prefix of the later store; and one call adds at most one record. *)
Theorem save_version_append_only (calls : list SaveCall) (k : nat) vs c :
  after_calls (take k calls) `prefix_of` after_calls calls
  ∧ (length vs ≤ length (after_call vs c) ≤ S (length vs))%nat.
Proof.
  split.
  - unfold after_calls. rewrite <- (take_drop k calls) at 2.
    rewrite fold_left_app. apply fold_after_call_prefix.
  - destruct (after_call_cases vs c) as [-> | [v ->]].
    + lia.
    + rewrite length_app. simpl. lia.
Qed.

Lemma latest_after_save now vs vt text note encoded :
  hashlib.encode text = Some encoded →
  latest_content (save_version now vs vt text note).2 = Some text.
Proof.
  intros He. rewrite (save_version_encoded _ _ _ _ _ _ He).
  case_bool_decide as Hsame; simpl; [done |].
  by rewrite latest_content_snoc.
Qed.

(** Saving the same content twice in a row: whatever the first call did,
    the second one reports [False] and leaves the store as the first call
    left it, also when type, note and time differ. *)
Theorem save_version_twice now1 now2 vs type1 type2 text note1 note2 :
  hashlib.encodable text →
  let vs1 := (save_version now1 vs type1 text note1).2 in
  save_version now2 vs1 type2 text note2 = (Returns false, vs1).
Proof.
  intros [encoded He]%encode_is_Some. simpl.
  rewrite (save_version_encoded now2 _ _ _ _ _ He).
  rewrite bool_decide_eq_true_2; [done |].
  by eapply latest_after_save.
Qed.

Lemma save_version_twice_witness :
  hashlib.encodable (lit "# PRD")
  ∧ save_version (lit "t2")
      (save_version (lit "t1") [] (lit "manual") (lit "# PRD") []).2
      (lit "deep_review") (lit "# PRD") (lit "again")
    = (Returns false, (save_version (lit "t1") [] (lit "manual") (lit "# PRD") []).2).
Proof.
  assert (H : hashlib.encodable (lit "# PRD")).
  { apply encodable_check. vm_compute. reflexivity. }
  split; [exact H |].
  exact (save_version_twice (lit "t1") (lit "t2") [] (lit "manual")
           (lit "deep_review") (lit "# PRD") [] (lit "again") H).
Defined.

Lemma after_call_records_ok vs c :
  Forall record_ok vs → Forall record_ok (after_call vs c).
Proof.
  intros Hvs. unfold after_call.
  destruct (hashlib.encode (call_content c)) as [encoded|] eqn:He.
  - rewrite (save_version_encoded _ _ _ _ _ _ He).
    case_bool_decide; simpl; [done |].
    apply Forall_app. split; [done |]. apply Forall_singleton.
    exists encoded. simpl. split; [done |]. split; [done |]. split; [| done].
    rewrite length_take, length_hexdigest, length_md5. done.
  - by rewrite (save_version_unencodable _ _ _ _ _ He).
Qed.

Lemma fold_after_call_records_ok calls : ∀ vs,
  Forall record_ok vs → Forall record_ok (fold_left after_call calls vs).
Proof.
  induction calls as [|c calls IH]; intros vs Hvs; simpl; [done |].
  by apply IH, after_call_records_ok.
Qed.

(** Every record of a store that only [save_version] has written is
    consistent: its content can be encoded, its [hash] is the 8-character
    digest prefix of that very content, and its [word_count] is the length of
    the content in characters. *)
Theorem save_version_records_consistent (calls : list SaveCall) :
  Forall record_ok (after_calls calls).
Proof. apply fold_after_call_records_ok. constructor. Qed.

End store_facts.

Section restore_facts.
Import version_manager legacy_app.

(** Restoring an entry of a consistent store never raises and never rewrites
    history: the store either stays as it is (the entry's content is already
    the latest content) or gains exactly one [manual] record with the
    restored content and the next version number; the shown document becomes
    the restored content and the view returns to the latest entry. *)
Theorem restore_appends now s (i : nat) v :
  Forall record_ok s.(versions) →
  s.(versions) !! i = Some v →
  is_current s i = false →
  ∃ saved s',
    restore now s i = Some (Returns saved, s')
    ∧ s'.(plan_content) = v.(version_manager.content)
    ∧ s'.(current_version_index) = -1
    ∧ ((saved = false ∧ s'.(versions) = s.(versions)
        ∧ latest_content s.(versions) = Some v.(version_manager.content))
       ∨ (saved = true
          ∧ latest_content s.(versions) ≠ Some v.(version_manager.content)
          ∧ ∃ w, s'.(versions) = s.(versions) ++ [w]
                 ∧ w.(version_manager.content) = v.(version_manager.content)
                 ∧ w.(type) = lit "manual"
                 ∧ w.(note) = restore_note v
                 ∧ w.(version_number) = Z.of_nat (length s.(versions)) + 1)).
Proof.
  intros Hok Hv Hcur. unfold restore. rewrite Hv, Hcur.
  rewrite Forall_forall in Hok.
  destruct (Hok v) as (encoded & He & _).
  { apply list_elem_of_lookup. eauto. }
  rewrite (save_version_encoded _ _ _ _ _ _ He).
  case_bool_decide as Hsame.
  - exists false. eexists. split; [reflexivity |]. simpl.
    split; [done |]. split; [done |]. left. done.
  - exists true. eexists. split; [reflexivity |]. simpl.
    split; [done |]. split; [done |]. right. split; [done |]. split; [done |].
    eexists. split; [reflexivity |]. done.
Qed.

Lemma restore_appends_witness :
  ∃ s v, Forall record_ok s.(versions) ∧ s.(versions) !! 0%nat = Some v
         ∧ is_current s 0 = false
         ∧ ∃ s', restore (lit "t3") s 0 = Some (Returns true, s')
                 ∧ length s'.(versions) = 3%nat.
Proof.
  set (vs := after_calls
               [ {| call_now := lit "t1"; call_type := lit "manual";
                    call_content := lit "one"; call_note := [] |};
                 {| call_now := lit "t2"; call_type := lit "manual";
                    call_content := lit "two"; call_note := [] |} ]).
  set (s := {| versions := vs; plan_content := lit "two";
               current_version_index := -1 |}).
  assert (Hok : Forall record_ok s.(versions)).
  { apply fold_after_call_records_ok. constructor. }
  destruct (vs !! 0%nat) as [v|] eqn:Hv; [| vm_compute in Hv; discriminate].
  assert (Hcur : is_current s 0 = false) by (vm_compute; reflexivity).
  exists s, v. split; [exact Hok |]. split; [exact Hv |]. split; [exact Hcur |].
  destruct (restore_appends (lit "t3") s 0 v Hok Hv Hcur)
    as (saved & s' & Hr & _ & _ & [(-> & _ & Hl) | (-> & _ & w & Hw & _)]).
  - exfalso. assert (Hv0 : vs !! 0%nat = Some v) by exact Hv.
    vm_compute in Hv0. injection Hv0 as <-. vm_compute in Hl. discriminate.
  - exists s'. split; [exact Hr |]. rewrite Hw, length_app. reflexivity.
Defined.

End restore_facts.

(* ===================================================================== *)
(** ** More on the rendering: what escaping achieves *)
(* ===================================================================== *)

Section escape_facts.
Import version_manager.

Lemma entity_cases c :
  (c = 38 ∧ entity c = [38; 97; 109; 112; 59])
  ∨ (c = 60 ∧ entity c = [38; 108; 116; 59])
  ∨ (c = 62 ∧ entity c = [38; 103; 116; 59])
  ∨ (c ≠ 38 ∧ c ≠ 60 ∧ c ≠ 62 ∧ entity c = [c]).
Proof.
  unfold entity.
  change (ch "&") with 38. change (ch "<") with 60. change (ch ">") with 62.
  change (lit "&amp;") with [38; 97; 109; 112; 59].
  change (lit "&lt;") with [38; 108; 116; 59].
  change (lit "&gt;") with [38; 103; 116; 59].
  destruct (Z.eqb_spec c 38) as [-> | H1]; [by left |].
  destruct (Z.eqb_spec c 60) as [-> | H2]; [by right; left |].
  destruct (Z.eqb_spec c 62) as [-> | H3]; [by right; right; left |].
  by right; right; right.
Qed.

(** No character of a diff line can open or close a tag in the rendering:
    after escaping, the line holds neither [<] nor [>]. *)
Theorem escape_has_no_angle_brackets line :
  Forall (λ c, c ≠ ch "<" ∧ c ≠ ch ">") (escape line).
Proof.
  rewrite escape_entities.
  change (ch "<") with 60. change (ch ">") with 62.
  induction line as [|c line IH]; simpl; [constructor |].
  apply Forall_app. split; [| exact IH].
  destruct (entity_cases c) as [[_ ->] | [[_ ->] | [[_ ->] | (H1 & H2 & H3 & ->)]]];
    repeat (constructor; [done |]); constructor.
Qed.

Lemma entity_head c d r1 r2 :
  entity c ++ r1 = entity d ++ r2 → c = d ∧ r1 = r2.
Proof.
  destruct (entity_cases c) as [[-> ->] | [[-> ->] | [[-> ->] | (C1 & C2 & C3 & ->)]]];
  destruct (entity_cases d) as [[-> ->] | [[-> ->] | [[-> ->] | (D1 & D2 & D3 & ->)]]];
    simpl; intros H; injection H; intros; subst; try done; try lia.
Qed.

(** Escaping loses nothing: two lines with the same escaped form are the
    same line, so the rendering shows each document line unambiguously. *)
Theorem escape_injective line1 line2 :
  escape line1 = escape line2 → line1 = line2.
Proof.
  rewrite !escape_entities. revert line2.
  induction line1 as [|c line1 IH]; intros [|d line2]; simpl; try done.
  - destruct (entity_cases d) as [[_ ->] | [[_ ->] | [[_ ->] | (_ & _ & _ & ->)]]];
      discriminate.
  - destruct (entity_cases c) as [[_ ->] | [[_ ->] | [[_ ->] | (_ & _ & _ & ->)]]];
      discriminate.
  - intros [-> Hrest]%entity_head. f_equal. by apply IH.
Qed.

Lemma escape_injective_witness :
  escape (lit "a<b") = escape (lit "a<b") ∧ lit "a<b" = lit "a<b".
Proof.
  split; [reflexivity |].
  exact (escape_injective (lit "a<b") (lit "a<b") eq_refl).
Defined.

End escape_facts.

(* ===================================================================== *)
(** ** More on the validator: what it cannot tell apart *)
(* ===================================================================== *)

Section validator_limits.
Import re gemini_client.
Variable U : unicode_db.

Lemma occurs_trans a b c : occurs a b → occurs b c → occurs a c.
Proof.
  intros (p1 & s1 & ->) (p2 & s2 & ->).
  exists (p2 ++ p1), (s1 ++ s2). by rewrite <- !app_assoc.
Qed.

(** The label of the passed-checks section is part of the label of the
    failed-checks section, so a report that names the failed checks is never
    found to lack the passed-checks section, whether it has one or not. *)
Theorem passed_checks_label_is_shadowed text :
  occurs (lit "未通過檢查") text →
  lit "通過檢查" ∉ missing_items U text.
Proof.
  intros Hocc Hin.
  assert (Hreq : lit "通過檢查" ∈ required_sections).
  { unfold required_sections. rewrite !elem_of_cons. auto. }
  apply (missing_section U text _ Hreq) in Hin. apply Hin.
  eapply occurs_trans; [| exact Hocc].
  apply contains_spec. vm_compute. reflexivity.
Qed.

(** The score pattern begins with the score label, so a report without that
    label can have no score line: whenever the label is reported missing,
    the score-format marker is reported with it. *)
Theorem missing_score_label_brings_marker text :
  lit "綜合評分" ∈ missing_items U text → score_format ∈ missing_items U text.
Proof.
  intros Hin.
  assert (Hreq : lit "綜合評分" ∈ required_sections).
  { unfold required_sections. rewrite !elem_of_cons. auto. }
  apply (missing_section U text _ Hreq) in Hin.
  apply missing_score_format. intros (pre & m & suf & -> & Hm). apply Hin.
  destruct Hm as (colon & ws1 & ds & ws2 & ws3 & -> & _).
  exists pre, (([colon] ++ ws1 ++ ds ++ ws2 ++ lit "/" ++ ws3 ++ lit "100") ++ suf).
  by rewrite <- !app_assoc.
Qed.

Lemma filter_sublist {A} (f : A → bool) (l : list A) :
  List.filter f l `sublist_of` l.
Proof.
  induction l as [|x l IH]; simpl; [constructor |].
  destruct (f x); by constructor.
Qed.

(** The failures are always listed in the same order, the five sections as
    the code names them and the score-format marker last, each at most once. *)
Theorem missing_items_in_order text :
  missing_items U text `sublist_of` required_sections ++ [score_format].
Proof.
  unfold missing_items. destruct (search U score_pattern text).
  - etrans; [apply filter_sublist |]. by apply sublist_inserts_r.
  - apply sublist_app; [apply filter_sublist | done].
Qed.

End validator_limits.

Lemma passed_checks_label_is_shadowed_witness :
  occurs (lit "未通過檢查") (lit "## 未通過檢查")
  ∧ lit "通過檢查" ∉ gemini_client.missing_items re.ascii_db (lit "## 未通過檢查").
Proof.
  assert (H : occurs (lit "未通過檢查") (lit "## 未通過檢查")).
  { apply contains_spec. vm_compute. reflexivity. }
  split; [exact H |].
  exact (passed_checks_label_is_shadowed re.ascii_db (lit "## 未通過檢查") H).
Defined.

Lemma missing_score_label_brings_marker_witness :
  lit "綜合評分" ∈ gemini_client.missing_items re.ascii_db []
  ∧ gemini_client.score_format ∈ gemini_client.missing_items re.ascii_db [].
Proof.
  assert (H : lit "綜合評分" ∈ gemini_client.missing_items re.ascii_db []).
  { apply (missing_section re.ascii_db [] (lit "綜合評分")).
    - unfold gemini_client.required_sections. rewrite !elem_of_cons. auto.
    - apply contains_false. vm_compute. reflexivity. }
  split; [exact H |].
  exact (missing_score_label_brings_marker re.ascii_db [] H).
Defined.

(* ===================================================================== *)
(** ** More on the pipeline *)
(* ===================================================================== *)

Section pipeline_extras.
Import re gemini_client.

(** The client is a singleton: once [get_client] has succeeded, every later
    call hands out the same client and changes nothing, whatever the
    environment says by then (a key that was removed or replaced is not
    looked at again); and obtaining the client contacts no service. *)
Theorem get_client_is_cached env env' w c w1 :
  get_client env w = (Ok c, w1) →
  get_client env' w1 = (Ok c, w1)
  ∧ w1.(calls) = w.(calls) ∧ w1.(trace) = w.(trace).
Proof.
  unfold get_client. destruct w as [[c0|] n tr]; simpl.
  - intros [= <- <-]. done.
  - destruct (get_api_key env); [discriminate |].
    intros [= <- <-]. done.
Qed.

Lemma get_client_is_cached_witness :
  get_client (stub_env (Some (lit "key")) chatty) fresh
  = (Ok {| api_key := lit "key" |},
     {| _client := Some {| api_key := lit "key" |}; calls := 0; trace := [] |})
  ∧ get_client (stub_env None broken)
      {| _client := Some {| api_key := lit "key" |}; calls := 0; trace := [] |}
    = (Ok {| api_key := lit "key" |},
       {| _client := Some {| api_key := lit "key" |}; calls := 0; trace := [] |}).
Proof.
  assert (H : get_client (stub_env (Some (lit "key")) chatty) fresh
              = (Ok {| api_key := lit "key" |},
                 {| _client := Some {| api_key := lit "key" |}; calls := 0;
                    trace := [] |})).
  { vm_compute. reflexivity. }
  split; [exact H |].
  exact (proj1 (get_client_is_cached _ (stub_env None broken) _ _ _ H)).
Defined.

(** With [max_retry] zero or negative the loop body never runs: the call
    raises [UnboundLocalError] at its last line, before any client is built
    or any generation call is made. *)
Theorem criticize_plan_with_validation_needs_an_attempt
    env plan max_retry status_callback w :
  max_retry ≤ 0 →
  criticize_plan_with_validation env plan max_retry status_callback w
  = (Raise (UnboundLocalError (lit "critique")), w).
Proof.
  intros H. unfold criticize_plan_with_validation.
  rewrite seqZ_nil by done. reflexivity.
Qed.

Lemma criticize_plan_with_validation_needs_an_attempt_witness :
  0 ≤ 0
  ∧ criticize_plan_with_validation (stub_env (Some (lit "key")) chatty)
      (lit "# PRD") 0 None fresh
    = (Raise (UnboundLocalError (lit "critique")), fresh).
Proof.
  split; [lia |].
  apply (criticize_plan_with_validation_needs_an_attempt
           (stub_env (Some (lit "key")) chatty) (lit "# PRD") 0 None fresh).
  lia.
Defined.

(** The retry loop stops at the first valid critique: if the critiques of
    the first [m] calls are invalid and the next one is valid, with [m] below
    [max_retry], exactly [m + 1] generation calls are made, with a one-second
    wait between consecutive calls and none after the last, and the valid
    critique is returned. *)
Theorem criticize_plan_with_validation_stops_at_first_valid
    env plan (n m : nat) w :
  ready env w →
  (m ≤ n)%nat →
  (∀ k : nat, (k < m)%nat → valid env (critique_at env plan (w.(calls) + k)) = false) →
  valid env (critique_at env plan (w.(calls) + m)) = true →
  criticize_plan_with_validation env plan (Z.of_nat (S n)) None w
  = (Ok (critique_at env plan (w.(calls) + m)),
     {| _client := Some (the_client env w);
        calls := w.(calls) + S m;
        trace := w.(trace)
                 ++ retry_trace (the_client env w) (critic_request env plan) (S m) |}).
Proof.
  intros Hr Hm Hbefore Hvalid. unfold criticize_plan_with_validation.
  destruct (attempts_run env plan (Z.of_nat (S n)) n 0 None w Hr)
    as (m' & Hm' & Hrun & Hbefore' & Hlast); [lia |].
  assert (m' = m) as ->; [| exact Hrun].
  destruct (Nat.lt_trichotomy m' m) as [Hlt | [-> | Hgt]]; [| done |].
  - destruct Hlast as [-> | Hv]; [lia |].
    rewrite (Hbefore m' Hlt) in Hv. discriminate.
  - rewrite (Hbefore' m Hgt) in Hvalid. discriminate.
Qed.

Lemma criticize_plan_with_validation_stops_at_first_valid_witness :
  ∃ w', criticize_plan_with_validation (stub_env (Some (lit "key")) flaky)
          (lit "# PRD") 3 None fresh = (Ok overscored_report, w')
        ∧ w'.(calls) = 2%nat.
Proof.
  assert (Hr : ready (stub_env (Some (lit "key")) flaky) fresh).
  { right. vm_compute. discriminate. }
  eexists. split.
  - refine (criticize_plan_with_validation_stops_at_first_valid
              (stub_env (Some (lit "key")) flaky) (lit "# PRD") 2 1 fresh Hr _ _ _).
    + lia.
    + intros k Hk. assert (k = 0%nat) as -> by lia. vm_compute. reflexivity.
    + vm_compute. reflexivity.
  - reflexivity.
Defined.

Lemma reflection_steps_run env plan w :
  ready env w →
  ∃ m : nat,
    (m ≤ 1)%nat
    ∧ (m = 1%nat ∨ valid env (critique_at env plan (w.(calls) + m)) = true)
    ∧ (m = 1%nat → valid env (critique_at env plan w.(calls)) = false)
    ∧ criticize_plan_with_validation env plan 2 None
        {| _client := Some (the_client env w); calls := w.(calls);
           trace := w.(trace) |}
      = (Ok (critique_at env plan (w.(calls) + m)),
         {| _client := Some (the_client env w);
            calls := w.(calls) + S m;
            trace := w.(trace)
                     ++ retry_trace (the_client env w) (critic_request env plan) (S m) |}).
Proof.
  intros Hr. unfold criticize_plan_with_validation.
  destruct (attempts_run env plan 2 1 0 None
              {| _client := Some (the_client env w); calls := w.(calls);
                 trace := w.(trace) |})
    as (m & Hm & Hrun & Hbefore & Hlast); [apply ready_after | lia |].
  exists m. split; [exact Hm |]. split; [exact Hlast |].
  split; [| exact Hrun].
  intros ->. specialize (Hbefore 0%nat ltac:(lia)). simpl in Hbefore.
  by rewrite Nat.add_0_r in Hbefore.
Qed.

(** What a deep review does when no status callback is given and the client
    can be obtained: one or two critique calls (the second, after a
    one-second wait, only if the first critique is invalid), then exactly one
    refine call.  If the refine call answers, the result is the critique with
    the refined text (or the original document when that text is empty); if
    it raises, the critique is dropped and the result is the failure notice
    with the original document. *)
Theorem run_deep_reflection_outcome env plan w :
  ready env w →
  ∃ (m : nat) w',
    (m ≤ 1)%nat
    ∧ (m = 1%nat → valid env (critique_at env plan w.(calls)) = false)
    ∧ (m = 1%nat ∨ valid env (critique_at env plan (w.(calls) + m)) = true)
    ∧ run_deep_reflection env plan None w
      = (Ok (match env.(service) (w.(calls) + S m)%nat
                     (refine_request env plan (critique_at env plan (w.(calls) + m))) with
             | Responds r =>
                 (critique_at env plan (w.(calls) + m), text_or r.(text) plan)
             | Fails e => (reflection_failed e, plan)
             end), w')
    ∧ w'.(calls) = (w.(calls) + S (S m))%nat
    ∧ w'.(trace)
      = w.(trace)
        ++ retry_trace (the_client env w) (critic_request env plan) (S m)
        ++ [Generate (the_client env w)
              (refine_request env plan (critique_at env plan (w.(calls) + m)))].
Proof.
  intros Hr.
  destruct (reflection_steps_run env plan w Hr) as (m & Hm & Hlast & Hfirst & Hrun).
  exists m. eexists. split; [exact Hm |]. split; [exact Hfirst |].
  split; [exact Hlast |].
  unfold run_deep_reflection, bind. rewrite (get_client_ready env w Hr).
  unfold try_except, reflection_steps, bind. rewrite Hrun.
  unfold generate_content. cbn [calls trace _client].
  destruct (service env (calls w + S m)
              (refine_request env plan (critique_at env plan (calls w + m))));
    (split; [reflexivity |]); cbn [calls trace]; (split; [lia |]);
    by rewrite <- app_assoc.
Qed.

Lemma run_deep_reflection_outcome_witness :
  ready (stub_env (Some (lit "key")) flaky) fresh
  ∧ ∃ w', run_deep_reflection (stub_env (Some (lit "key")) flaky) (lit "# PRD") None fresh
          = (Ok (overscored_report, overscored_report), w')
          ∧ w'.(calls) = 3%nat.
Proof.
  assert (Hr : ready (stub_env (Some (lit "key")) flaky) fresh).
  { right. vm_compute. discriminate. }
  split; [exact Hr |].
  destruct (run_deep_reflection_outcome _ (lit "# PRD") fresh Hr)
    as (m & w' & Hm & Hfirst & Hlast & Hrun & Hcalls & _).
  assert (m = 1%nat) as ->.
  { destruct Hlast as [-> | Hv]; [done |].
    destruct m as [|m]; [vm_compute in Hv; discriminate | lia]. }
  exists w'. split; [exact Hrun | exact Hcalls].
Defined.

(** [quick_update_plan] with an obtainable client makes exactly one
    generation call and never raises: it returns the generated text (the
    empty string when there is none), or the update-failed notice carrying
    the text of whatever the call raised. *)
Theorem quick_update_plan_outcome env PLAN_SYSTEM_PROMPT history_messages w :
  ready env w →
  quick_update_plan env PLAN_SYSTEM_PROMPT history_messages w
  = (Ok (match env.(service) w.(calls)
                 (plan_request env PLAN_SYSTEM_PROMPT history_messages) with
         | Responds r => text_or r.(text) []
         | Fails e => update_failed e
         end),
     {| _client := Some (the_client env w); calls := S w.(calls);
        trace := w.(trace)
                 ++ [Generate (the_client env w)
                       (plan_request env PLAN_SYSTEM_PROMPT history_messages)] |}).
Proof.
  intros Hr. unfold quick_update_plan, bind. rewrite (get_client_ready env w Hr).
  unfold try_except, bind, generate_content. simpl.
  by destruct (service env (calls w) _).
Qed.

Lemma quick_update_plan_outcome_witness :
  ready (stub_env (Some (lit "key")) broken) fresh
  ∧ ∃ w', quick_update_plan (stub_env (Some (lit "key")) broken) (lit "plan")
            [ {| role := lit "user"; content := lit "Build a todo app" |} ] fresh
          = (Ok (lit "更新失敗: 503 UNAVAILABLE"), w').
Proof.
  assert (Hr : ready (stub_env (Some (lit "key")) broken) fresh).
  { right. vm_compute. discriminate. }
  split; [exact Hr |]. eexists.
  rewrite (quick_update_plan_outcome _ (lit "plan") _ fresh Hr).
  vm_compute. reflexivity.
Defined.

End pipeline_extras.

Section api_facts.
Import re gemini_client api.

Lemma configured_ready env w : is_api_key_configured env = true → ready env w.
Proof.
  unfold is_api_key_configured, ready. intros H. right.
  by destruct (get_api_key env).
Qed.

Lemma run_deep_reflection_returns env plan cb w :
  ready env w → returns_normally cb →
  ∃ result w', run_deep_reflection env plan cb w = (Ok result, w').
Proof.
  intros Hr Hcb. unfold run_deep_reflection, bind.
  rewrite (get_client_ready env w Hr). unfold try_except.
  destruct (reflection_steps _ _ _ _ _) as [[result | e | b] w1] eqn:Hsteps;
    [eauto | eauto |].
  apply reflection_steps_interrupted in Hsteps as (f & msg & -> & Hf).
  cbn in Hcb. by rewrite Hcb in Hf.
Qed.

(** The three generation endpoints answer by configuration alone.  Without a
    key they raise the 500 error at once, contacting no service and leaving
    the process as it was, even if a client built earlier is still cached.
    With a key they always answer with a body and never with the 502 error:
    a failing service shows up as a failure notice inside the body. *)
Theorem generation_endpoints_status env PLAN_SYSTEM_PROMPT messages prd w :
  (is_api_key_configured env = false →
     generate_prd env PLAN_SYSTEM_PROMPT messages w
       = (Ok (HTTPException 500 key_missing), w)
     ∧ critique_prd env prd w = (Ok (HTTPException 500 key_missing), w)
     ∧ deep_review env prd w = (Ok (HTTPException 500 key_missing), w))
  ∧ (is_api_key_configured env = true →
     (∃ w', generate_prd env PLAN_SYSTEM_PROMPT messages w
            = (Ok (Response
                     (match env.(service) w.(calls)
                              (plan_request env PLAN_SYSTEM_PROMPT messages) with
                      | Responds r => text_or r.(text) []
                      | Fails e => update_failed e
                      end)), w'))
     ∧ (∃ w', critique_prd env prd w
              = (Ok (Response (critique_at env prd w.(calls))), w'))
     ∧ (∃ result w', deep_review env prd w = (Ok (Response result), w'))).
Proof.
  split.
  - intros Hno. unfold generate_prd, critique_prd, deep_review.
    rewrite Hno. done.
  - intros Hyes. pose proof (configured_ready env w Hyes) as Hr.
    unfold generate_prd, critique_prd, deep_review. rewrite Hyes.
    unfold try_except, bind. split; [| split].
    + unfold quick_update_plan, bind. rewrite (get_client_ready env w Hr).
      unfold try_except, bind, generate_content. simpl.
      destruct (service env (calls w) _); eexists; reflexivity.
    + rewrite (criticize_plan_ready env prd w Hr). eexists. reflexivity.
    + destruct (run_deep_reflection_returns env prd None w Hr I) as (result & w' & ->).
      by exists result, w'.
Qed.

End api_facts.

(* ===================================================================== *)
(** ** More on the export helpers *)
(* ===================================================================== *)

Section export_facts.
Import hashlib utils.

Lemma filter_all {A} (f : A → bool) (l : list A) :
  Forall (λ x, f x = true) l → List.filter f l = l.
Proof.
  intros H. induction H as [|x l Hx Hl IH]; simpl; [done |].
  by rewrite Hx, IH.
Qed.

Lemma filter_holds {A} (f : A → bool) (l : list A) :
  Forall (λ x, f x = true) (List.filter f l).
Proof.
  induction l as [|x l IH]; simpl; [constructor |].
  destruct (f x) eqn:Hx; [by constructor | done].
Qed.

Lemma filter_is_sublist {A} (f : A → bool) (l : list A) :
  List.filter f l `sublist_of` l.
Proof.
  induction l as [|x l IH]; simpl; [constructor |].
  destruct (f x); by constructor.
Qed.

(** The plain-text rendering drops the three markup characters and nothing
    else: the result is the text with every [#], [*] and backquote taken out
    and every other character kept, in place and in order.  So no [#], [*] or
    backquote is left, the remaining characters keep their order, a text
    without markup is returned as it is, and converting twice is the same as
    converting once. *)
Theorem convert_markdown_to_txt_strips md :
  convert_markdown_to_txt md
  = List.filter (λ c, negb ((c =? ch "#") || (c =? ch "*") || (c =? ch "`"))) md
  ∧ Forall (λ c, is_markup c = false) (convert_markdown_to_txt md)
  ∧ convert_markdown_to_txt md `sublist_of` md
  ∧ (Forall (λ c, is_markup c = false) md → convert_markdown_to_txt md = md)
  ∧ convert_markdown_to_txt (convert_markdown_to_txt md) = convert_markdown_to_txt md.
Proof.
  split; [apply convert_markdown_to_txt_filter |].
  rewrite !convert_markdown_to_txt_filter.
  assert (Hclean : Forall (λ c, is_markup c = false)
                     (List.filter (λ c, negb (is_markup c)) md)).
  { eapply Forall_impl; [apply filter_holds |].
    intros c Hc. by apply negb_true_iff in Hc. }
  split; [exact Hclean |].
  split; [apply filter_is_sublist |].
  split.
  - intros Hmd. apply filter_all. eapply Forall_impl; [exact Hmd |].
    intros c Hc. simpl in Hc. by rewrite Hc.
  - apply filter_all. eapply Forall_impl; [exact Hclean |].
    intros c Hc. simpl in Hc. by rewrite Hc.
Qed.

Lemma replace_absent old new s : old ∉ s → replace old new s = s.
Proof.
  unfold replace. induction s as [|c s IH]; intros Hno; simpl; [done |].
  apply not_elem_of_cons in Hno as [Hc Hs].
  rewrite (proj2 (Z.eqb_neq c old)) by congruence. simpl. by rewrite IH.
Qed.

(** The HTML rendering escapes nothing: the title goes into the [<title>]
    element as it is, and the document goes into the body with its newlines
    turned into [<br>] and no other change, so any markup in the document
    reaches the page verbatim. *)
Theorem convert_markdown_to_html_embeds_raw t md title :
  occurs (lit "    <title>" ++ title ++ lit "</title>")
    (convert_markdown_to_html t md title)
  ∧ occurs (replace 10 (lit "<br>") md) (convert_markdown_to_html t md title)
  ∧ (10 ∉ md → occurs md (convert_markdown_to_html t md title)).
Proof.
  assert (Hbody : occurs (replace 10 (lit "<br>") md)
                    (convert_markdown_to_html t md title)).
  { unfold convert_markdown_to_html. apply occurs_join.
    apply list_elem_of_lookup. exists 57%nat. reflexivity. }
  split; [| split; [exact Hbody |]].
  - unfold convert_markdown_to_html. apply occurs_join.
    apply list_elem_of_lookup. exists 6%nat. reflexivity.
  - intros Hno. by rewrite <- (replace_absent 10 (lit "<br>") md Hno) at 1.
Qed.

(** The secondary document of an archive: when it is a non-empty string
    that can be encoded, the [critique.md] entry holds it verbatim; when it is
    non-empty but cannot be encoded, no archive is produced at all, although
    the primary document is fine. *)
Theorem create_prd_zip_secondary now1 now2 prd_content critique :
  encodable prd_content → critique ≠ [] →
  (encodable critique →
     ∃ archive,
       create_prd_zip now1 now2 prd_content (Some critique) = Some archive
       ∧ read archive (lit "critique.md") = encode critique
       ∧ read archive (lit "critique.html")
         = encode (convert_markdown_to_html now2 critique (lit "CTO 審核報告")))
  ∧ (¬ encodable critique →
     create_prd_zip now1 now2 prd_content (Some critique) = None).
Proof.
  intros Hprd Hne.
  destruct (proj1 (encode_is_Some prd_content) Hprd) as [md Hmd].
  destruct (proj1 (encode_is_Some (convert_markdown_to_html now1 prd_content (lit "PRD"))))
    as [html Hhtml].
  { apply encodable_html; [exact Hprd | apply encodable_check; vm_compute; reflexivity]. }
  destruct (proj1 (encode_is_Some (convert_markdown_to_txt prd_content)))
    as [txt Htxt].
  { rewrite convert_markdown_to_txt_filter. by apply encodable_filter. }
  rewrite (create_prd_zip_encoded _ _ _ _ _ _ _ Hmd Hhtml Htxt).
  destruct critique as [|c critique]; [done |]. cbn [given].
  split.
  - intros Hc.
    destruct (proj1 (encode_is_Some (c :: critique)) Hc) as [cmd Hcmd].
    destruct (proj1 (encode_is_Some
                (convert_markdown_to_html now2 (c :: critique) (lit "CTO 審核報告"))))
      as [chtml Hchtml].
    { apply encodable_html;
        [exact Hc | apply encodable_check; vm_compute; reflexivity]. }
    rewrite Hcmd, Hchtml. eexists. split; [reflexivity |].
    split; vm_compute; reflexivity.
  - intros Hc. destruct (encode (c :: critique)) as [cmd|] eqn:Hcmd; [| done].
    destruct Hc. apply encode_is_Some. eauto.
Qed.

Lemma create_prd_zip_secondary_witness :
  encodable (lit "# PRD") ∧ lit "ok" ≠ []
  ∧ create_prd_zip noon noon (lit "# PRD") (Some [0xD800]) = None.
Proof.
  assert (H1 : encodable (lit "# PRD")).
  { apply encodable_check. vm_compute. reflexivity. }
  assert (H2 : [0xD800] ≠ []) by discriminate.
  split; [exact H1 |]. split; [vm_compute; discriminate |].
  apply (proj2 (create_prd_zip_secondary noon noon (lit "# PRD") [0xD800] H1 H2)).
  intros H. inversion H as [|? ? Hc _]. vm_compute in Hc. discriminate.
Defined.

End export_facts.

(* ===================================================================== *)
(** ** The CORS origin list of [api.py] *)
(* ===================================================================== *)

Section cors_facts.
Import api.
Variable U : re.unicode_db.

Lemma lstrip_clean s : starts_clean U (lstrip U s).
Proof.
  induction s as [|c s IH]; simpl; [done |].
  destruct (re.isspace U c) eqn:Hc; [exact IH | exact Hc].
Qed.

Lemma lstrip_suffix s : ∃ pre, s = pre ++ lstrip U s.
Proof.
  induction s as [|c s [pre IH]]; simpl; [by exists [] |].
  destruct (re.isspace U c).
  - exists (c :: pre). simpl. by rewrite <- IH.
  - by exists [].
Qed.

Lemma strip_clean s : starts_clean U (strip U s) ∧ ends_clean U (strip U s).
Proof.
  unfold strip, ends_clean. rewrite rev_involutive. split; [| apply lstrip_clean].
  destruct (lstrip_suffix (rev (lstrip U s))) as [pre Hpre].
  pose proof (lstrip_clean s) as Hs.
  assert (Ht : lstrip U s = rev (lstrip U (rev (lstrip U s))) ++ rev pre).
  { rewrite <- rev_app_distr, <- Hpre. by rewrite rev_involutive. }
  destruct (rev (lstrip U (rev (lstrip U s)))) as [|c r]; [done |].
  rewrite Ht in Hs. exact Hs.
Qed.

Lemma elem_of_rev (c : char) l : c ∈ rev l ↔ c ∈ l.
Proof. rewrite !list_elem_of_In. symmetry. apply in_rev. Qed.

Lemma strip_parts s c : c ∈ strip U s → c ∈ s.
Proof.
  unfold strip. rewrite elem_of_rev. intros Hc.
  destruct (lstrip_suffix (rev (lstrip U s))) as [pre Hpre].
  assert (c ∈ rev (lstrip U s)) as Hc'.
  { rewrite Hpre. apply elem_of_app. by right. }
  apply (proj1 (elem_of_rev _ _)) in Hc'.
  destruct (lstrip_suffix s) as [pre' Hpre'].
  rewrite Hpre'. apply elem_of_app. by right.
Qed.

Lemma split_parts c s : Forall (λ w, c ∉ w) (split c s).
Proof.
  induction s as [|d s IH]; simpl.
  - constructor; [apply not_elem_of_nil | constructor].
  - destruct (Z.eqb_spec d c) as [-> | Hne].
    + constructor; [apply not_elem_of_nil | exact IH].
    + destruct (split c s) as [|w ws].
      * constructor; [| constructor].
        intros [-> | H]%elem_of_cons; [done | by apply elem_of_nil in H].
      * inversion IH as [|? ? Hw Hws]; subst. constructor; [| exact Hws].
        intros [-> | H]%elem_of_cons; done.
Qed.

(** The allowed-origins list is either the wildcard alone, which is what an
    unset variable gives, or a list of cleaned entries: none of them empty,
    none with whitespace at either end, none holding a comma. *)
Theorem cors_origins_are_clean (ALLOWED_ORIGINS : option str) :
  (ALLOWED_ORIGINS = None → _get_cors_origins U ALLOWED_ORIGINS = [lit "*"])
  ∧ (_get_cors_origins U ALLOWED_ORIGINS = [lit "*"]
     ∨ Forall (λ o, o ≠ [] ∧ starts_clean U o ∧ ends_clean U o ∧ ch "," ∉ o)
         (_get_cors_origins U ALLOWED_ORIGINS)).
Proof.
  split.
  - intros ->. unfold _get_cors_origins. cbn [default].
    change (lit "*") with [42]. unfold strip. cbn [lstrip].
    destruct (re.isspace U 42); [reflexivity |].
    cbn [rev app lstrip]. destruct (re.isspace U 42) eqn:H; reflexivity.
  - unfold _get_cors_origins.
    destruct (str_eqb _ [] || str_eqb _ (lit "*")); [by left |]. right.
    apply Forall_forall. intros o Ho.
    apply list_elem_of_In, in_map_iff in Ho as (piece & <- & Hpiece).
    apply filter_In in Hpiece as [Hin Hne].
    split.
    { unfold str_eqb in Hne. apply negb_true_iff in Hne.
      by apply bool_decide_eq_false in Hne. }
    destruct (strip_clean piece) as [Hs He].
    split; [exact Hs |]. split; [exact He |].
    intros Hcomma. apply strip_parts in Hcomma.
    pose proof (split_parts (ch ",") (strip U (default (lit "*") ALLOWED_ORIGINS))) as Hall.
    rewrite Forall_forall in Hall. apply list_elem_of_In in Hin.
    by apply (Hall piece Hin).
Qed.

End cors_facts.

(* ===================================================================== *)
(** ** [difflib]: the blocks found are genuine, for any two sequences *)
(* ===================================================================== *)

Section splitlines_facts.

Lemma splitlines_cr_lf cur s :
  splitlines_from cur (13 :: 10 :: s)
  = rev (10 :: 13 :: cur) :: splitlines_from [] s.
Proof. reflexivity. Qed.

Lemma splitlines_cr_end cur :
  splitlines_from cur [13] = [rev (13 :: cur)].
Proof. reflexivity. Qed.

Lemma splitlines_cr_other cur d s :
  d ≠ 10 →
  splitlines_from cur (13 :: d :: s)
  = rev (13 :: cur) :: splitlines_from [] (d :: s).
Proof.
  intros Hd. cbn [splitlines_from]. change (13 =? 13) with true. cbv iota.
  destruct d as [|p|p]; [reflexivity | | reflexivity].
  destruct p as [p|p|]; [reflexivity | | reflexivity].
  destruct p as [p|p|]; [| reflexivity | reflexivity].
  destruct p as [p|p|]; [reflexivity | | reflexivity].
  destruct p as [p|p|]; [reflexivity | reflexivity |].
  done.
Qed.

Lemma splitlines_from_concat (n : nat) : ∀ s cur,
  (length s ≤ n)%nat → concat (splitlines_from cur s) = rev cur ++ s.
Proof.
  induction n as [|n IH]; intros s cur Hlen.
  - destruct s; [| simpl in Hlen; lia].
    simpl. destruct cur as [|d cur]; [done |]. simpl. by rewrite !app_nil_r.
  - destruct s as [|c s].
    { simpl. destruct cur as [|d cur]; [done |]. simpl. by rewrite !app_nil_r. }
    simpl in Hlen.
    destruct (Z.eq_dec c 13) as [-> | Hc].
    + destruct s as [|d s].
      * rewrite splitlines_cr_end. simpl. by rewrite app_nil_r.
      * destruct (Z.eq_dec d 10) as [-> | Hd].
        -- rewrite splitlines_cr_lf. cbn [concat]. rewrite IH by (simpl in Hlen; lia).
           simpl. by rewrite <- !app_assoc.
        -- rewrite splitlines_cr_other by done. cbn [concat].
           rewrite IH by (simpl in *; lia). simpl. by rewrite <- !app_assoc.
    + cbn [splitlines_from]. rewrite (proj2 (Z.eqb_neq c 13)) by done.
      destruct (is_linebreak c).
      * cbn [concat]. rewrite IH by lia. simpl. by rewrite <- !app_assoc.
      * rewrite IH by lia. simpl. by rewrite <- !app_assoc.
Qed.

(** Cutting a text into lines with their endings loses nothing. *)
Lemma splitlines_keepends_concat s : concat (splitlines_keepends s) = s.
Proof.
  unfold splitlines_keepends. by rewrite (splitlines_from_concat (length s)).
Qed.

End splitlines_facts.

Section match_sound.
Import difflib.
Variables a b : list str.

Lemma chain_b_sound : b2j_sound b (chain_b b).
Proof.
  intros x j Hj. fold (js_of b x) in Hj.
  destruct (js_of_cases b x) as [H | H]; rewrite H in Hj.
  - by apply elem_of_nil in Hj.
  - pose proof (positions_range _ _ _ _ Hj) as Hr.
    pose proof (positions_lookup _ _ _ _ Hj) as Hl.
    unfold item. replace (j <? 0) with false by (symmetry; apply Z.ltb_ge; lia).
    by replace (j - 0) with j in Hl by lia.
Qed.

Lemma same_item_of i j x :
  item a i = Some x → item b j = Some x → same_item a b i j = true.
Proof.
  intros Ha Hb. unfold same_item. rewrite Ha, Hb.
  unfold str_eqb. by apply bool_decide_eq_true_2.
Qed.

Lemma get_insert (m : gmap Z Z) j k j' :
  get (<[j := k]> m) j' = if decide (j = j') then k else get m j'.
Proof.
  unfold get. destruct (decide (j = j')) as [-> | Hne].
  - by rewrite lookup_insert_eq.
  - by rewrite lookup_insert_ne.
Qed.

Lemma get_empty j : get ∅ j = 0.
Proof. unfold get. by rewrite lookup_empty. Qed.

(** One more matching pair makes a genuine run one longer. *)
Lemma genuine_extend i j k :
  0 ≤ k →
  (0 < k → genuine a b (i - k, j - k, k)) →
  same_item a b i j = true →
  genuine a b (i - k, j - k, k + 1).
Proof.
  intros Hk Hrun Hsame t Ht.
  destruct (decide (t = k)) as [-> | Hne].
  - by replace (i - k + k) with i by lia; replace (j - k + k) with j by lia.
  - apply Hrun; lia.
Qed.

Variables alo blo bhi : Z.

Lemma scan_row_sound i ai j2len js : ∀ bst newj2len,
  Forall (λ j, item b j = Some ai) js →
  item a i = Some ai →
  alo ≤ i →
  row_ok a b alo blo bhi i j2len →
  best_ok a b alo blo bhi (i + 1) bst →
  row_ok a b alo blo bhi (i + 1) newj2len →
  best_ok a b alo blo bhi (i + 1) (scan_row blo bhi i j2len js bst newj2len).1
  ∧ row_ok a b alo blo bhi (i + 1) (scan_row blo bhi i j2len js bst newj2len).2.
Proof.
  induction js as [|j js IH]; intros bst newj2len Hjs Hai Hi Hrow Hbest Hnew;
    cbn [scan_row]; [done |].
  inversion Hjs as [|? ? Hbj Hjs']; subst.
  destruct (Z.ltb_spec j blo) as [Hlo | Hlo]; [by apply IH |].
  destruct (Z.leb_spec bhi j) as [Hhi | Hhi]; [done |].
  destruct (Hrow (j - 1)) as [Hk0 Hrun].
  set (k0 := get j2len (j - 1)) in *.
  change (default 0 (j2len !! (j - 1))) with k0.
  assert (Hgen : genuine a b (i - k0, j - k0, k0 + 1)).
  { apply genuine_extend; [done | | by eapply same_item_of].
    intros Hpos. destruct (Hrun Hpos) as (Hg & _).
    by replace (j - 1 - k0 + 1) with (j - k0) in Hg by lia. }
  assert (Hbounds : alo ≤ i - k0 ∧ blo ≤ j - k0).
  { destruct (decide (0 < k0)) as [Hpos | Hz].
    - destruct (Hrun Hpos) as (_ & ? & ? & _). lia.
    - assert (k0 = 0) as -> by lia. lia. }
  assert (Hnew' : row_ok a b alo blo bhi (i + 1) (<[j := k0 + 1]> newj2len)).
  { intros j'. rewrite get_insert. destruct (decide (j = j')) as [<- | Hne].
    - split; [lia |]. intros _.
      replace (i + 1 - (k0 + 1)) with (i - k0) by lia.
      replace (j - (k0 + 1) + 1) with (j - k0) by lia.
      split; [exact Hgen |]. lia.
    - apply Hnew. }
  destruct bst as [[besti bestj] bestsize].
  destruct (bestsize <? k0 + 1).
  - apply IH; try done.
    replace (i - (k0 + 1) + 1) with (i - k0) by lia.
    replace (j - (k0 + 1) + 1) with (j - k0) by lia.
    split; [exact Hgen |]. unfold inside. lia.
  - by apply IH.
Qed.

Lemma scan_step_sound i st :
  alo ≤ i →
  best_ok a b alo blo bhi i st.1 ∧ row_ok a b alo blo bhi i st.2 →
  best_ok a b alo blo bhi (i + 1) (scan_step a (chain_b b) blo bhi st i).1
  ∧ row_ok a b alo blo bhi (i + 1) (scan_step a (chain_b b) blo bhi st i).2.
Proof.
  destruct st as [bst j2len]. intros Hi [Hbest Hrow]. cbn [fst snd] in *.
  assert (Hbest' : best_ok a b alo blo bhi (i + 1) bst).
  { destruct bst as [[bi bj] bs]. destruct Hbest as [Hg Hin].
    split; [exact Hg |]. unfold inside in *. lia. }
  assert (Hempty : row_ok a b alo blo bhi (i + 1) ∅).
  { intros j. rewrite get_empty. split; [done | lia]. }
  unfold scan_step. destruct (item a i) as [ai|] eqn:Hai; [| done].
  apply (scan_row_sound i ai); try done.
  apply Forall_forall. intros j Hj. by apply chain_b_sound.
Qed.

Lemma scan_rows_sound (n : nat) : ∀ st,
  best_ok a b alo blo bhi alo st.1 ∧ row_ok a b alo blo bhi alo st.2 →
  best_ok a b alo blo bhi (alo + Z.of_nat n)
    (fold_left (scan_step a (chain_b b) blo bhi) (seqZ alo (Z.of_nat n)) st).1
  ∧ row_ok a b alo blo bhi (alo + Z.of_nat n)
      (fold_left (scan_step a (chain_b b) blo bhi) (seqZ alo (Z.of_nat n)) st).2.
Proof.
  induction n as [|n IH]; intros st Hst.
  - simpl. by rewrite Z.add_0_r.
  - rewrite seqZ_S, fold_left_app. cbn [fold_left].
    replace (alo + Z.of_nat (S n)) with (alo + Z.of_nat n + 1) by lia.
    apply scan_step_sound; [lia |]. by apply IH.
Qed.

End match_sound.

Section find_sound.
Import difflib.
Variables a b : list str.

Lemma extend_left_sound (fuel : nat) junk alo ahi blo bhi : ∀ bst,
  best_ok a b alo blo bhi ahi bst →
  best_ok a b alo blo bhi ahi (extend_left fuel junk a b alo blo bst).
Proof.
  induction fuel as [|fuel IH]; intros [[bi bj] bs] Hok; cbn [extend_left]; [done |].
  destruct ((alo <? bi) && (blo <? bj) && Bool.eqb (junk_at b (bj - 1)) junk
            && same_item a b (bi - 1) (bj - 1)) eqn:Hc; [| done].
  apply andb_true_iff in Hc as [Hc Hsame].
  apply andb_true_iff in Hc as [Hc _].
  apply andb_true_iff in Hc as [Ha Hb].
  apply Z.ltb_lt in Ha. apply Z.ltb_lt in Hb.
  destruct Hok as [Hg Hin]. apply IH. split.
  - intros t Ht. destruct (decide (t = 0)) as [-> | Hne].
    + by rewrite !Z.add_0_r.
    + replace (bi - 1 + t) with (bi + (t - 1)) by lia.
      replace (bj - 1 + t) with (bj + (t - 1)) by lia.
      apply Hg. lia.
  - unfold inside in *. lia.
Qed.

Lemma extend_right_sound (fuel : nat) junk alo ahi blo bhi : ∀ bst,
  best_ok a b alo blo bhi ahi bst →
  best_ok a b alo blo bhi ahi (extend_right fuel junk a b ahi bhi bst).
Proof.
  induction fuel as [|fuel IH]; intros [[bi bj] bs] Hok; cbn [extend_right]; [done |].
  destruct ((bi + bs <? ahi) && (bj + bs <? bhi)
            && Bool.eqb (junk_at b (bj + bs)) junk
            && same_item a b (bi + bs) (bj + bs)) eqn:Hc; [| done].
  apply andb_true_iff in Hc as [Hc Hsame].
  apply andb_true_iff in Hc as [Hc _].
  apply andb_true_iff in Hc as [Ha Hb].
  apply Z.ltb_lt in Ha. apply Z.ltb_lt in Hb.
  destruct Hok as [Hg Hin]. apply IH. split.
  - intros t Ht. destruct (decide (t = bs)) as [-> | Hne]; [done |].
    apply Hg. lia.
  - unfold inside in *. lia.
Qed.

(** Whatever the window, the block that [find_longest_match] returns lies in
    it and consists of equal elements. *)
Lemma find_longest_match_sound alo ahi blo bhi :
  alo ≤ ahi → blo ≤ bhi →
  genuine a b (find_longest_match a b (chain_b b) alo ahi blo bhi)
  ∧ inside (alo, ahi, blo, bhi) (find_longest_match a b (chain_b b) alo ahi blo bhi).
Proof.
  intros Ha Hb. unfold find_longest_match. cbv zeta.
  apply extend_right_sound, extend_left_sound, extend_right_sound, extend_left_sound.
  unfold scan.
  pose proof (scan_rows_sound a b alo blo bhi (Z.to_nat (ahi - alo))
                ((alo, blo, 0), ∅)) as Hscan.
  rewrite Z2Nat.id in Hscan by lia.
  replace (alo + (ahi - alo)) with ahi in Hscan by lia.
  apply Hscan. split.
  - split; [intros t Ht; lia |]. unfold inside. cbn [fst snd]. lia.
  - intros j. rewrite get_empty. split; [done | lia].
Qed.

End find_sound.

Section cover_facts.
Import difflib.

Lemma total_app f l1 l2 : total f (l1 ++ l2) = total f l1 + total f l2.
Proof. induction l1 as [|r l1 IH]; simpl; [done | rewrite IH; lia]. Qed.

Lemma total_cons f r l : total f (r :: l) = f r + total f l.
Proof. done. Qed.

Lemma total_perm f l1 l2 : l1 ≡ₚ l2 → total f l1 = total f l2.
Proof.
  induction 1 as [|x l1 l2 Hp IH|x y l|l1 l2 l3 Hp1 IH1 Hp2 IH2]; simpl; lia.
Qed.

Lemma row_in_cases t r : row_in t r = 0 ∨ row_in t r = 1.
Proof.
  destruct r as [[[alo ahi] blo] bhi]. unfold row_in.
  destruct ((alo <=? t) && (t <? ahi)); auto.
Qed.

Lemma col_in_cases t r : col_in t r = 0 ∨ col_in t r = 1.
Proof.
  destruct r as [[[alo ahi] blo] bhi]. unfold col_in.
  destruct ((blo <=? t) && (t <? bhi)); auto.
Qed.

Lemma row_in_spec t alo ahi blo bhi :
  (alo ≤ t < ahi ∧ row_in t (alo, ahi, blo, bhi) = 1)
  ∨ ((t < alo ∨ ahi ≤ t) ∧ row_in t (alo, ahi, blo, bhi) = 0).
Proof.
  unfold row_in.
  destruct (alo <=? t) eqn:H1; destruct (t <? ahi) eqn:H2; simpl;
    rewrite ?Z.leb_le, ?Z.leb_gt, ?Z.ltb_lt, ?Z.ltb_ge in *; lia.
Qed.

Lemma col_in_spec t alo ahi blo bhi :
  (blo ≤ t < bhi ∧ col_in t (alo, ahi, blo, bhi) = 1)
  ∨ ((t < blo ∨ bhi ≤ t) ∧ col_in t (alo, ahi, blo, bhi) = 0).
Proof.
  unfold col_in.
  destruct (blo <=? t) eqn:H1; destruct (t <? bhi) eqn:H2; simpl;
    rewrite ?Z.leb_le, ?Z.leb_gt, ?Z.ltb_lt, ?Z.ltb_ge in *; lia.
Qed.

Lemma total_row_nonneg t l : 0 ≤ total (row_in t) l.
Proof.
  induction l as [|r l IH]; simpl; [done |].
  pose proof (row_in_cases t r). lia.
Qed.

Lemma total_col_nonneg t l : 0 ≤ total (col_in t) l.
Proof.
  induction l as [|r l IH]; simpl; [done |].
  pose proof (col_in_cases t r). lia.
Qed.

Lemma disjoint_app_r l1 l2 : disjoint (l1 ++ l2) → disjoint l2.
Proof.
  intros Hd t. specialize (Hd t). rewrite !total_app in Hd.
  pose proof (total_row_nonneg t l1). pose proof (total_col_nonneg t l1). lia.
Qed.

Lemma disjoint_perm l1 l2 : l1 ≡ₚ l2 → disjoint l1 → disjoint l2.
Proof.
  intros Hp Hd t. by rewrite <- !(total_perm _ _ _ Hp).
Qed.

End cover_facts.

Section loop_facts.
Import difflib.
Variables a b : list str.

(** The work-list loop keeps its blocks genuine and apart, whatever the fuel. *)
Lemma match_loop_ok (fuel : nat) : ∀ queue blocks,
  loop_ok a b queue blocks →
  Forall (block_ok a b) (match_loop fuel a b (chain_b b) queue blocks)
  ∧ disjoint (map block_rect (match_loop fuel a b (chain_b b) queue blocks)).
Proof.
  induction fuel as [|fuel IH]; intros queue blocks (Hq & Hb & Hd);
    cbn [match_loop].
  { split; [done | by eapply disjoint_app_r]. }
  destruct queue as [|[[[alo ahi] blo] bhi] queue].
  { by split. }
  apply Forall_cons in Hq as [Hw Hq]. destruct Hw as [Hwa Hwb].
  pose proof (find_longest_match_sound a b alo ahi blo bhi
                ltac:(lia) ltac:(lia)) as [Hg Hin].
  destruct (find_longest_match a b (chain_b b) alo ahi blo bhi) as [[i j] k].
  unfold inside in Hin.
  destruct (k =? 0) eqn:Hk.
  { apply IH. split; [done |]. split; [done |].
    intros t. specialize (Hd t). rewrite <- app_comm_cons, !total_cons in Hd.
    pose proof (row_in_cases t (alo, ahi, blo, bhi)).
    pose proof (col_in_cases t (alo, ahi, blo, bhi)). lia. }
  apply Z.eqb_neq in Hk.
  apply IH. split; [| split].
  - destruct ((alo <? i) && (blo <? j)) eqn:H1;
      destruct ((i + k <? ahi) && (j + k <? bhi)) eqn:H2;
      repeat (apply Forall_cons; split); try done; unfold window_ok; lia.
  - apply Forall_app. split; [done |]. apply Forall_cons. split; [| done].
    unfold block_ok. split; [done | lia].
  - intros t. specialize (Hd t). rewrite map_app. cbn [map].
    rewrite <- app_comm_cons, !total_cons in Hd.
    assert (∀ f (q : list rect), total f (q ++ map block_rect blocks ++ [block_rect (i, j, k)])
              = total f (q ++ map block_rect blocks) + f (block_rect (i, j, k))) as Hsnoc.
    { intros f q. rewrite (assoc_L (++)), total_app. simpl. lia. }
    pose proof (row_in_spec t alo ahi blo bhi).
    pose proof (col_in_spec t alo ahi blo bhi).
    pose proof (row_in_spec t alo i blo j).
    pose proof (col_in_spec t alo i blo j).
    pose proof (row_in_spec t (i + k) ahi (j + k) bhi).
    pose proof (col_in_spec t (i + k) ahi (j + k) bhi).
    pose proof (row_in_spec t i (i + k) j (j + k)).
    pose proof (col_in_spec t i (i + k) j (j + k)).
    destruct ((alo <? i) && (blo <? j)) eqn:Hc1;
      destruct ((i + k <? ahi) && (j + k <? bhi)) eqn:Hc2;
      rewrite <- ?app_comm_cons, ?total_cons, !Hsnoc; cbn [block_rect]; lia.
Qed.

End loop_facts.

Section collapse_facts.
Import difflib.
Variables a b : list str.

Lemma insert_sorted_perm x l : insert_sorted x l ≡ₚ x :: l.
Proof.
  induction l as [|y l IH]; simpl; [done |].
  destruct (match_leb x y); [done |]. rewrite IH. apply Permutation_swap.
Qed.

Lemma sort_perm l : sort l ≡ₚ l.
Proof.
  induction l as [|x l IH]; [done |].
  change (sort (x :: l)) with (insert_sorted x (sort l)).
  rewrite insert_sorted_perm. by f_equiv.
Qed.

Lemma genuine_join i j k1 k2 :
  0 ≤ k1 → genuine a b (i, j, k1) → genuine a b (i + k1, j + k1, k2) →
  genuine a b (i, j, k1 + k2).
Proof.
  intros Hk H1 H2 t Ht. destruct (decide (t < k1)) as [Hlt | Hge].
  - apply H1. lia.
  - replace (i + t) with (i + k1 + (t - k1)) by lia.
    replace (j + t) with (j + k1 + (t - k1)) by lia.
    apply H2. lia.
Qed.

Lemma genuine_empty i j : genuine a b (i, j, 0).
Proof. intros t Ht. lia. Qed.

(** One round of the collapsing loop: the blocks settled so far stay genuine,
    and they cover what they covered before together with the new block. *)
Lemma collapse_step_ok st m :
  Forall (block_ok a b) (pending st) → 0 ≤ st.1.2 → block_ok a b m →
  Forall (block_ok a b) (pending (collapse_step st m))
  ∧ 0 ≤ (collapse_step st m).1.2
  ∧ ∀ t,
      total (row_in t) (map block_rect (pending (collapse_step st m)))
      = total (row_in t) (map block_rect (pending st)) + row_in t (block_rect m)
      ∧ total (col_in t) (map block_rect (pending (collapse_step st m)))
        = total (col_in t) (map block_rect (pending st)) + col_in t (block_rect m).
Proof.
  destruct st as [[[i1 j1] k1] na], m as [[i2 j2] k2].
  cbn [fst snd]. intros Hp Hk1 (Hg2 & Hk2 & Hi2 & Hj2).
  unfold collapse_step.
  destruct ((i1 + k1 =? i2) && (j1 + k1 =? j2)) eqn:Hadj.
  - apply andb_true_iff in Hadj as [Hi Hj].
    apply Z.eqb_eq in Hi. apply Z.eqb_eq in Hj. subst i2 j2.
    cbn [fst snd pending] in *.
    replace (k1 + k2 =? 0) with false by (symmetry; apply Z.eqb_neq; lia).
    destruct (k1 =? 0) eqn:Hz.
    + apply Z.eqb_eq in Hz. subst k1. rewrite !Z.add_0_r in *. rewrite Z.add_0_l.
      split; [| split; [lia |]].
      * apply Forall_app. split; [done |].
        apply Forall_cons. split; [| done]. by repeat split.
      * intros t. rewrite !map_app, !total_app. cbn [map block_rect].
        rewrite !total_cons. cbn [total foldr]. lia.
    + apply Z.eqb_neq in Hz. apply Forall_app in Hp as [Hna Hb1].
      apply Forall_cons in Hb1 as [(Hg1 & Hk1' & Hi1 & Hj1) _].
      split; [| split; [lia |]].
      * apply Forall_app. split; [done |].
        apply Forall_cons. split; [| done].
        split; [by apply genuine_join | lia].
      * intros t. rewrite !map_app, !total_app. cbn [map block_rect].
        rewrite !total_cons. cbn [total foldr].
        pose proof (row_in_spec t i1 (i1 + k1) j1 (j1 + k1)).
        pose proof (col_in_spec t i1 (i1 + k1) j1 (j1 + k1)).
        pose proof (row_in_spec t (i1 + k1) (i1 + k1 + k2) (j1 + k1) (j1 + k1 + k2)).
        pose proof (col_in_spec t (i1 + k1) (i1 + k1 + k2) (j1 + k1) (j1 + k1 + k2)).
        pose proof (row_in_spec t i1 (i1 + (k1 + k2)) j1 (j1 + (k1 + k2))).
        pose proof (col_in_spec t i1 (i1 + (k1 + k2)) j1 (j1 + (k1 + k2))).
        lia.
  - cbn [fst snd pending] in *.
    replace (k2 =? 0) with false by (symmetry; apply Z.eqb_neq; lia).
    split; [| split; [lia |]].
    + apply Forall_app. split; [done |].
      apply Forall_cons. split; [| done]. by repeat split.
    + intros t. rewrite !map_app, !total_app. cbn [map block_rect].
      rewrite !total_cons. cbn [total foldr]. lia.
Qed.

Lemma collapse_fold_ok l : ∀ st,
  Forall (block_ok a b) (pending st) → 0 ≤ st.1.2 → Forall (block_ok a b) l →
  Forall (block_ok a b) (pending (fold_left collapse_step l st))
  ∧ ∀ t,
      total (row_in t) (map block_rect (pending (fold_left collapse_step l st)))
      = total (row_in t) (map block_rect (pending st))
        + total (row_in t) (map block_rect l)
      ∧ total (col_in t) (map block_rect (pending (fold_left collapse_step l st)))
        = total (col_in t) (map block_rect (pending st))
          + total (col_in t) (map block_rect l).
Proof.
  induction l as [|m l IH]; intros st Hp Hk Hl; cbn [fold_left].
  - split; [done |]. intros t. cbn [map total foldr]. lia.
  - apply Forall_cons in Hl as [Hm Hl].
    destruct (collapse_step_ok st m Hp Hk Hm) as (Hp' & Hk' & Ht').
    destruct (IH _ Hp' Hk' Hl) as [Hf Ht]. split; [done |].
    intros t. destruct (Ht t) as [-> ->]. destruct (Ht' t) as [-> ->].
    cbn [map]. rewrite !total_cons. lia.
Qed.

(** What [get_matching_blocks] returns: blocks of equal elements, none empty,
    no two sharing an element of [a] or of [b], and the closing dummy. *)
Lemma get_matching_blocks_ok :
  ∃ blocks,
    get_matching_blocks a b
    = blocks ++ [(Z.of_nat (length a), Z.of_nat (length b), 0)]
    ∧ Forall (block_ok a b) blocks
    ∧ disjoint (map block_rect blocks).
Proof.
  unfold get_matching_blocks. cbv zeta.
  set (la := Z.of_nat (length a)). set (lb := Z.of_nat (length b)).
  destruct (match_loop_ok a b (2 * length a + 1) [(0, la, 0, lb)] [])
    as [Hok Hdis].
  { split; [| split; [done |]].
    - apply Forall_cons. split; [| done]. unfold window_ok. lia.
    - intros t. cbn [app map]. rewrite !total_cons. cbn [total foldr].
      pose proof (row_in_cases t (0, la, 0, lb)).
      pose proof (col_in_cases t (0, la, 0, lb)). lia. }
  set (ml := match_loop _ _ _ _ _ _) in *.
  destruct (collapse_fold_ok (sort ml) (0, 0, 0, [])) as [Hf Ht].
  { done. }
  { done. }
  { by rewrite sort_perm. }
  destruct (fold_left collapse_step (sort ml) (0, 0, 0, []))
    as [[[i1 j1] k1] na].
  exists (pending (i1, j1, k1, na)). split; [done |]. split; [done |].
  intros t. destruct (Ht t) as [-> ->]. cbn [pending map total foldr Z.eqb].
  rewrite !Z.add_0_l.
  rewrite !(total_perm _ _ _ (fmap_Permutation block_rect _ _ (sort_perm ml))).
  apply Hdis.
Qed.

End collapse_facts.

Section opcode_facts.
Import difflib.
Variables a b : list str.

Lemma dirty_app c1 c2 : dirty (c1 ++ c2) = dirty c1 || dirty c2.
Proof. apply existsb_app. Qed.

Lemma dirty_snoc_equal codes i1 i2 j1 j2 :
  dirty (codes ++ [(Equal, i1, i2, j1, j2)]) = dirty codes.
Proof. rewrite dirty_app. cbn. by rewrite orb_false_r. Qed.

(** The opcode loop only appends: a difference once reported stays. *)
Lemma opcode_step_dirty st m :
  dirty st.2 = true → dirty (opcode_step st m).2 = true.
Proof.
  destruct st as [[i j] answer], m as [[ai bj] size]. cbn [snd]. intros Hd.
  unfold opcode_step. cbn [snd].
  assert (dirty (if (i <? ai) && (j <? bj) then answer ++ [(Replace, i, ai, j, bj)]
                 else if i <? ai then answer ++ [(Delete, i, ai, j, bj)]
                 else if j <? bj then answer ++ [(Insert, i, ai, j, bj)]
                 else answer) = true) as Hd'.
  { repeat case_match; rewrite ?dirty_app, ?Hd; done. }
  destruct (size =? 0); [done |]. by rewrite dirty_app, Hd'.
Qed.

Lemma opcode_fold_dirty l : ∀ st,
  dirty st.2 = true → dirty (fold_left opcode_step l st).2 = true.
Proof.
  induction l as [|m l IH]; intros st Hd; cbn [fold_left]; [done |].
  by apply IH, opcode_step_dirty.
Qed.

(** A block that does not begin where the previous one ended makes the loop
    report a difference. *)
Lemma opcode_step_gap i j answer ai bj size :
  i < ai ∨ j < bj →
  dirty (opcode_step (i, j, answer) (ai, bj, size)).2 = true.
Proof.
  intros Hgap. unfold opcode_step. cbn [snd].
  assert (dirty (if (i <? ai) && (j <? bj) then answer ++ [(Replace, i, ai, j, bj)]
                 else if i <? ai then answer ++ [(Delete, i, ai, j, bj)]
                 else if j <? bj then answer ++ [(Insert, i, ai, j, bj)]
                 else answer) = true) as Hd'.
  { destruct (i <? ai) eqn:Hi; destruct (j <? bj) eqn:Hj; cbn [andb];
      rewrite ?dirty_app; cbn; rewrite ?orb_true_r; try done.
    apply Z.ltb_ge in Hi. apply Z.ltb_ge in Hj. lia. }
  destruct (size =? 0); [done |]. by rewrite dirty_app, Hd'.
Qed.

Lemma opcode_step_adjacent i answer k :
  k ≠ 0 →
  opcode_step (i, i, answer) (i, i, k)
  = (i + k, i + k, answer ++ [(Equal, i, i + k, i, i + k)]).
Proof.
  intros Hk. unfold opcode_step. rewrite Z.ltb_irrefl. cbn [andb].
  by replace (k =? 0) with false by (symmetry; by apply Z.eqb_neq).
Qed.

(** As long as no difference is reported, the blocks met so far tile the
    diagonal: each begins at [(i, i)], where the previous one ended.  [R] and
    [C] count how often the blocks already passed cover a row and a column. *)
Lemma opcode_fold_clean blocks : ∀ i answer (R C : Z → Z),
  Forall (block_ok a b) blocks → 0 ≤ i →
  (∀ t, 0 ≤ R t ∧ 0 ≤ C t) →
  (∀ t, 0 ≤ t < i → same_item a b t t = true ∧ 1 ≤ R t ∧ 1 ≤ C t) →
  (∀ t, R t + total (row_in t) (map block_rect blocks) ≤ 1
        ∧ C t + total (col_in t) (map block_rect blocks) ≤ 1) →
  dirty (fold_left opcode_step blocks (i, i, answer)).2 = false →
  ∃ i' answer',
    fold_left opcode_step blocks (i, i, answer) = (i', i', answer')
    ∧ 0 ≤ i' ∧ ∀ t, 0 ≤ t < i' → same_item a b t t = true.
Proof.
  induction blocks as [|[[ai bj] k] blocks IH];
    intros i answer R C Hok Hi Hpos Hdiag Hcov Hclean; cbn [fold_left] in *.
  { exists i, answer. split; [done |]. split; [done |]. intros t Ht.
    by apply Hdiag. }
  apply Forall_cons in Hok as [(Hg & Hk & Hai & Hbj) Hok].
  destruct (decide (i < ai ∨ i < bj)) as [Hgap | Hnogap].
  { rewrite opcode_fold_dirty in Hclean; [done |]. by apply opcode_step_gap. }
  assert (∀ t, 0 ≤ total (row_in t) (map block_rect blocks)) as Hr
    by (intros t; apply total_row_nonneg).
  assert (∀ t, 0 ≤ total (col_in t) (map block_rect blocks)) as Hc
    by (intros t; apply total_col_nonneg).
  cbn [map block_rect] in Hcov.
  assert (ai = i) as ->.
  { destruct (decide (ai = i)) as [| Hne]; [done | exfalso].
    destruct (Hdiag ai ltac:(lia)) as (_ & HR & _).
    destruct (Hcov ai) as [Hrow _]. rewrite total_cons in Hrow.
    pose proof (Hr ai).
    pose proof (row_in_spec ai ai (ai + k) bj (bj + k)). lia. }
  assert (bj = i) as ->.
  { destruct (decide (bj = i)) as [| Hne]; [done | exfalso].
    destruct (Hdiag bj ltac:(lia)) as (_ & _ & HC).
    destruct (Hcov bj) as [_ Hcol]. rewrite total_cons in Hcol.
    pose proof (Hc bj).
    pose proof (col_in_spec bj i (i + k) bj (bj + k)). lia. }
  rewrite opcode_step_adjacent in * by lia.
  apply (IH (i + k) _ (λ t, R t + row_in t (i, i + k, i, i + k))
            (λ t, C t + col_in t (i, i + k, i, i + k)));
    [done | lia | | | | done].
  - intros t. destruct (Hpos t).
    pose proof (row_in_cases t (i, i + k, i, i + k)).
    pose proof (col_in_cases t (i, i + k, i, i + k)). lia.
  - intros t Ht. destruct (decide (t < i)) as [Hlt | Hge].
    + destruct (Hdiag t ltac:(lia)) as (Hs & HR & HC).
      pose proof (row_in_cases t (i, i + k, i, i + k)).
      pose proof (col_in_cases t (i, i + k, i, i + k)). split; [done | lia].
    + split.
      * specialize (Hg (t - i) ltac:(lia)).
        by replace (i + (t - i)) with t in Hg by lia.
      * destruct (Hcov t) as [Hrow Hcol]. rewrite total_cons in Hrow, Hcol.
        pose proof (Hr t). pose proof (Hc t). destruct (Hpos t).
        pose proof (row_in_spec t i (i + k) i (i + k)).
        pose proof (col_in_spec t i (i + k) i (i + k)). lia.
  - intros t. destruct (Hcov t) as [Hrow Hcol].
    rewrite total_cons in Hrow, Hcol. lia.
Qed.

Lemma same_item_eq i j :
  same_item a b i j = true →
  0 ≤ i < Z.of_nat (length a) ∧ 0 ≤ j < Z.of_nat (length b)
  ∧ a !! Z.to_nat i = b !! Z.to_nat j.
Proof.
  unfold same_item, item.
  destruct (i <? 0) eqn:Hi; [done |].
  destruct (a !! Z.to_nat i) as [x|] eqn:Ha; [| done].
  destruct (j <? 0) eqn:Hj; [done |].
  destruct (b !! Z.to_nat j) as [y|] eqn:Hb; [| done].
  unfold str_eqb. intros ->%bool_decide_eq_true.
  apply Z.ltb_ge in Hi. apply Z.ltb_ge in Hj.
  apply lookup_lt_Some in Ha. apply lookup_lt_Some in Hb.
  split; [lia |]. split; [lia | done].
Qed.

(** If [get_opcodes] reports ['equal'] only, the two sequences are the same. *)
Lemma get_opcodes_clean : dirty (get_opcodes a b) = false → a = b.
Proof.
  unfold get_opcodes.
  destruct (get_matching_blocks_ok a b) as (blocks & -> & Hok & Hdis).
  rewrite fold_left_app. cbn [fold_left]. intros Hclean.
  destruct (dirty (fold_left opcode_step blocks (0, 0, [])).2) eqn:Hd.
  { by rewrite opcode_step_dirty in Hclean. }
  destruct (opcode_fold_clean blocks 0 [] (λ _, 0) (λ _, 0) Hok ltac:(lia))
    as (i & answer & Heq & Hi & Hdiag); [done | intros t Ht; lia | | done |].
  { intros t. destruct (Hdis t). lia. }
  assert (dirty (opcode_step (i, i, answer)
                   (Z.of_nat (length a), Z.of_nat (length b), 0)).2 = false)
    as Hlast by (rewrite <- Heq; exact Hclean).
  destruct (decide (i < Z.of_nat (length a) ∨ i < Z.of_nat (length b)))
    as [Hgap | Hnogap].
  { by rewrite opcode_step_gap in Hlast. }
  assert (i = Z.of_nat (length a)) as Hla.
  { destruct (decide (i = Z.of_nat (length a))) as [| Hne]; [done | exfalso].
    destruct (same_item_eq _ _ (Hdiag (Z.of_nat (length a)) ltac:(lia))). lia. }
  assert (i = Z.of_nat (length b)) as Hlb.
  { destruct (decide (i = Z.of_nat (length b))) as [| Hne]; [done | exfalso].
    destruct (same_item_eq _ _ (Hdiag (Z.of_nat (length b)) ltac:(lia))). lia. }
  apply list_eq. intros n.
  destruct (decide (n < length a)%nat) as [Hlt | Hge].
  - destruct (same_item_eq _ _ (Hdiag (Z.of_nat n) ltac:(lia))) as (_ & _ & He).
    by rewrite Nat2Z.id in He.
  - rewrite !lookup_ge_None_2; [done | lia | lia].
Qed.

End opcode_facts.

Section group_facts.
Import difflib.

Lemma dirty_trim_first n codes : dirty (trim_first n codes) = dirty codes.
Proof.
  destruct codes as [|[[[[[] i1] i2] j1] j2] rest]; done.
Qed.

Lemma dirty_insert (codes : list opcode) (k : nat) c i1 i2 j1 j2 :
  codes !! k = Some c → is_equal c.1.1.1.1 = true →
  dirty (<[k := (Equal, i1, i2, j1, j2)]> codes) = dirty codes.
Proof.
  revert k. induction codes as [|c' codes IH]; intros [|k] Hl Heq; try done.
  - cbn in Hl. injection Hl as ->. cbn. by rewrite Heq.
  - change (<[S k := (Equal, i1, i2, j1, j2)]> (c' :: codes))
      with (c' :: <[k := (Equal, i1, i2, j1, j2)]> codes).
    change (dirty (c' :: <[k := (Equal, i1, i2, j1, j2)]> codes))
      with (negb (is_equal c'.1.1.1.1)
            || dirty (<[k := (Equal, i1, i2, j1, j2)]> codes)).
    by rewrite (IH k).
Qed.

Lemma dirty_trim_last n codes : dirty (trim_last n codes) = dirty codes.
Proof.
  unfold trim_last. destruct (last codes) as [[[[[[] i1] i2] j1] j2]|] eqn:Hl; try done.
  rewrite last_lookup in Hl. by eapply dirty_insert.
Qed.

Lemma dirty_lone_equal group : dirty group = true → lone_equal group = false.
Proof.
  destruct group as [|[[[[[] i1] i2] j1] j2] [|c rest]]; done.
Qed.

(** A difference among the opcodes ends up in a group. *)
Lemma group_fold_dirty n codes : ∀ group out,
  out ≠ [] ∨ dirty group = true ∨ dirty codes = true →
  (fold_left (group_step n) codes (group, out)).2 ≠ []
  ∨ dirty (fold_left (group_step n) codes (group, out)).1 = true.
Proof.
  induction codes as [|[[[[t i1] i2] j1] j2] codes IH]; intros group out H;
    cbn [fold_left].
  - cbn [fst snd]. destruct H as [H | [H | H]]; [by left | by right | done].
  - destruct (group_step n (group, out) (t, i1, i2, j1, j2)) as [g' o'] eqn:Hstep.
    apply IH. unfold group_step in Hstep.
    destruct (is_equal t && (n + n <? i2 - i1)) eqn:Hc; injection Hstep as <- <-.
    + left. by destruct out.
    + destruct H as [H | [H | H]]; [by left | |].
      * right. left. by rewrite dirty_app, H.
      * cbn in H. apply orb_true_iff in H as [H | H].
        -- right. left. rewrite dirty_app. cbn. by rewrite H, orb_true_r.
        -- by right; right.
Qed.

Lemma group_codes_dirty n codes : dirty codes = true → group_codes n codes ≠ [].
Proof.
  intros Hd. unfold group_codes.
  assert (match codes with [] => [(Equal, 0, 1, 0, 1)] | _ => codes end = codes)
    as -> by (by destruct codes).
  pose proof (group_fold_dirty n (trim_last n (trim_first n codes)) [] []) as H.
  destruct (fold_left (group_step n) (trim_last n (trim_first n codes)) ([], []))
    as [group out].
  cbn [fst snd] in H.
  destruct H as [H | H].
  { right. right. by rewrite dirty_trim_last, dirty_trim_first. }
  - destruct group; [done |]. destruct (lone_equal (o :: group)); [done |].
    by destruct out.
  - rewrite (dirty_lone_equal _ H). destruct group; [done |]. by destruct out.
Qed.

(** [unified_diff] yields nothing only for equal sequences. *)
Lemma unified_diff_empty a b fromfile tofile n lineterm :
  unified_diff a b fromfile tofile n lineterm = [] → a = b.
Proof.
  unfold unified_diff, get_grouped_opcodes. intros H.
  apply get_opcodes_clean.
  destruct (dirty (get_opcodes a b)) eqn:Hd; [| done].
  pose proof (group_codes_dirty n _ Hd).
  by destruct (group_codes n (get_opcodes a b)).
Qed.

Lemma unified_diff_two_lines a b fromfile tofile n lineterm :
  unified_diff a b fromfile tofile n lineterm = []
  ∨ ∃ l1 l2 rest, unified_diff a b fromfile tofile n lineterm = l1 :: l2 :: rest.
Proof.
  unfold unified_diff. destruct (get_grouped_opcodes a b n); [by left |].
  right. cbn [app]. eauto.
Qed.

End group_facts.

(* ===================================================================== *)
(** ** The comparison view tells different versions apart *)
(* ===================================================================== *)

Section diff_marker.
Import version_manager.

Lemma join_two_parts sep p1 p2 rest :
  sep ≠ [] → join sep (p1 :: p2 :: rest) ≠ [].
Proof.
  intros Hsep. change (join sep (p1 :: p2 :: rest))
    with (p1 ++ sep ++ join sep (p2 :: rest)).
  destruct p1; [| done]. destruct sep; done.
Qed.

Lemma diff_text_empty old_content new_content :
  diff_text old_content new_content = [] → old_content = new_content.
Proof.
  unfold diff_text. cbv zeta. intros Hd.
  destruct (unified_diff_two_lines (splitlines_keepends old_content)
              (splitlines_keepends new_content) (lit "舊版本") (lit "新版本") 3 [])
    as [He | (l1 & l2 & rest & He)].
  - apply unified_diff_empty in He.
    rewrite <- (splitlines_keepends_concat old_content).
    rewrite <- (splitlines_keepends_concat new_content). by rewrite He.
  - rewrite He in Hd. by apply join_two_parts in Hd.
Qed.

Lemma pre_open_head : head pre_open = Some 60.
Proof. by vm_compute. Qed.

Lemma no_difference_head : head no_difference = Some 9898.
Proof. by vm_compute. Qed.

Lemma show_diff_marker_diff_text old_content new_content :
  show_diff old_content new_content = no_difference →
  diff_text old_content new_content = [].
Proof.
  unfold show_diff. cbv zeta. intros H.
  destruct (diff_text old_content new_content) as [|c s]; [done | exfalso].
  apply (f_equal head) in H. rewrite no_difference_head in H.
  pose proof pre_open_head as Hp.
  destruct pre_open as [|c0 tl]; [done |].
  cbn [app head] in *. pose proof (eq_trans (eq_sym Hp) H). done.
Qed.

(** The marker for identical content is returned only when the two versions
    are the same text.  Whatever the line matcher finds, also with its
    heuristic that drops frequent lines from the index of texts of 200 lines
    or more, two texts that differ anywhere get a rendered diff and never the
    marker. *)
Theorem show_diff_marker_only_for_same old_content new_content :
  show_diff old_content new_content = no_difference →
  old_content = new_content.
Proof.
  intros H. by apply diff_text_empty, show_diff_marker_diff_text.
Qed.

Lemma show_diff_marker_only_for_same_witness :
  show_diff (lit "a") (lit "a") = no_difference ∧ lit "a" = lit "a".
Proof.
  split; [by vm_compute |].
  apply (show_diff_marker_only_for_same (lit "a") (lit "a")). by vm_compute.
Defined.

End diff_marker.

(* ===================================================================== *)
(** ** The version list of the application *)
(* ===================================================================== *)

Section session_facts.
Import version_manager legacy_app.

Lemma save_version_length now vs version_type text note :
  (length vs ≤ length (save_version now vs version_type text note).2)%nat.
Proof.
  pose proof (after_call_cases vs
    {| call_now := now; call_type := version_type; call_content := text;
       call_note := note |}) as [H | [v H]];
    unfold after_call in H; cbn [call_now call_type call_content call_note] in H;
    rewrite H; [done |]. rewrite length_app. lia.
Qed.

Lemma act_index_ok s a : index_ok s → index_ok (act s a).
Proof.
  intros Hs. destruct a as [i | now i | | | now t c n p]; cbn [act].
  - unfold view. destruct (versions s !! i) as [v|] eqn:Hv; [| done].
    right. cbn. apply lookup_lt_Some in Hv. lia.
  - unfold restore. destruct (versions s !! i) as [v|]; [| done].
    destruct (is_current s i); [done |].
    destruct (save_version _ _ _ _ _) as [saved versions']. by left.
  - unfold back_to_latest. destruct (latest_content (versions s)); [| done].
    destruct (current_version_index s =? -1); [done | by left].
  - by left.
  - destruct Hs as [Hs | Hs]; [by left | right]. cbn.
    pose proof (save_version_length now (versions s) t c n). lia.
Qed.

Lemma run_index_ok actions : index_ok (run actions).
Proof.
  unfold run. assert (index_ok initial) as H by (by left).
  revert H. generalize initial.
  induction actions as [|a actions IH]; intros s Hs; cbn [fold_left]; [done |].
  by apply IH, act_index_ok.
Qed.

Lemma act_store_ok s a :
  numbered s.(versions) ∧ no_adjacent_duplicates s.(versions) →
  numbered (act s a).(versions) ∧ no_adjacent_duplicates (act s a).(versions).
Proof.
  intros Hs. destruct a as [i | now i | | | now t c n p]; cbn [act].
  - unfold view. by destruct (versions s !! i).
  - unfold restore. destruct (versions s !! i) as [v|]; [| done].
    destruct (is_current s i); [done |].
    pose proof (after_call_invariant (versions s)
      {| call_now := now; call_type := lit "manual";
         call_content := content v; call_note := restore_note v |} Hs) as H.
    unfold after_call in H. cbn [call_now call_type call_content call_note] in H.
    by destruct (save_version _ _ _ _ _) as [saved versions'].
  - unfold back_to_latest. destruct (latest_content (versions s)); [| done].
    by destruct (current_version_index s =? -1).
  - split; [apply numbered_nil | apply no_adjacent_duplicates_nil].
  - exact (after_call_invariant (versions s)
      {| call_now := now; call_type := t; call_content := c; call_note := n |} Hs).
Qed.

Lemma run_store_ok actions :
  numbered (run actions).(versions)
  ∧ no_adjacent_duplicates (run actions).(versions).
Proof.
  unfold run.
  assert (numbered initial.(versions) ∧ no_adjacent_duplicates initial.(versions))
    as H by (split; [apply numbered_nil | apply no_adjacent_duplicates_nil]).
  revert H. generalize initial.
  induction actions as [|a actions IH]; intros s Hs; cbn [fold_left]; [done |].
  by apply IH, act_store_ok.
Qed.

Lemma filter_seq_one (k n : nat) :
  List.filter (λ i, Z.of_nat i =? Z.of_nat k) (seq 0 n)
  = if (k <? n)%nat then [k] else [].
Proof.
  induction n as [|n IH]; [done |].
  rewrite seq_S, List.filter_app, IH. cbn [List.filter Nat.add].
  destruct (Z.eqb_spec (Z.of_nat n) (Z.of_nat k)) as [He | Hne].
  - assert (n = k) as -> by lia.
    rewrite Nat.ltb_irrefl.
    by replace (k <? S k)%nat with true by (symmetry; apply Nat.ltb_lt; lia).
  - destruct (Nat.ltb_spec k n) as [Hlt | Hge].
    + by replace (k <? S n)%nat with true by (symmetry; apply Nat.ltb_lt; lia).
    + by replace (k <? S n)%nat with false by (symmetry; apply Nat.ltb_ge; lia).
Qed.

(** Whatever is done to the version list (viewing, restoring, going back to
    the latest version, clearing, recording new versions from any other place
    of the application), a list that is not empty shows exactly one entry
    with the marker of the current version. *)
Theorem version_list_marks_one_entry (actions : list action) :
  (run actions).(versions) = []
  ∨ (current_entry (run actions) < length (run actions).(versions))%nat
    ∧ marked (run actions) = [current_entry (run actions)].
Proof.
  pose proof (run_index_ok actions) as Hidx.
  destruct (run actions) as [vs plan idx].
  unfold index_ok, current_entry in *. cbn [versions current_version_index] in *.
  destruct vs as [|v vs]; [by left | right].
  set (n := length (v :: vs)) in *.
  assert (0 < n)%nat as Hn by (unfold n; cbn; lia).
  set (k := if idx =? -1 then pred n else Z.to_nat idx).
  assert (k < n)%nat as Hk.
  { unfold k. destruct (Z.eqb_spec idx (-1)); lia. }
  split; [done |].
  unfold marked. cbn [versions]. fold n.
  rewrite (List.filter_ext_in (is_current _) (λ i, Z.of_nat i =? Z.of_nat k)).
  - rewrite List.filter_rev, filter_seq_one.
    by replace (k <? n)%nat with true by (symmetry; by apply Nat.ltb_lt).
  - intros i Hi. apply in_rev, in_seq in Hi.
    unfold is_current, k. cbn [versions current_version_index]. fold n.
    destruct (Z.eqb_spec idx (-1)) as [-> | Hne]; cbn [andb].
    + destruct (Z.eqb_spec (Z.of_nat i) (Z.of_nat n - 1));
        destruct (Z.eqb_spec (-1) (Z.of_nat i));
        destruct (Z.eqb_spec (Z.of_nat i) (Z.of_nat (pred n))); cbn; lia.
    + destruct (Z.eqb_spec idx (Z.of_nat i));
        destruct (Z.eqb_spec (Z.of_nat i) (Z.of_nat (Z.to_nat idx))); cbn; lia.
Qed.

(** Comparing a version of the list with the one recorded right after it,
    in either order, never answers that the two are the same: the history
    holds no two adjacent versions with the same content, and the diff tells
    different contents apart. *)
Theorem compare_adjacent_versions (actions : list action) (i : nat) cmp :
  compare (run actions) i (S i) = Some cmp
  ∨ compare (run actions) (S i) i = Some cmp →
  ∃ diff_html, cmp = Diff diff_html ∧ diff_html ≠ no_difference.
Proof.
  destruct (run_store_ok actions) as [_ Hdup].
  unfold compare.
  replace (i =? S i)%nat with false by (symmetry; apply Nat.eqb_neq; lia).
  replace (S i =? i)%nat with false by (symmetry; apply Nat.eqb_neq; lia).
  destruct (versions (run actions) !! i) as [old|] eqn:Hold;
    destruct (versions (run actions) !! S i) as [new|] eqn:Hnew;
    try (intros [H | H]; discriminate).
  pose proof (Hdup i old new Hold Hnew) as Hne.
  intros [H | H]; injection H as <-; eexists; (split; [done |]); intros Hsame;
    apply show_diff_marker_diff_text, diff_text_empty in Hsame; congruence.
Qed.

Lemma compare_adjacent_versions_witness :
  ∃ diff_html,
    Diff (show_diff (lit "a") (lit "b")) = Diff diff_html
    ∧ diff_html ≠ no_difference.
Proof.
  apply (compare_adjacent_versions
           [Record (lit "t1") (lit "manual") (lit "a") [] (lit "a");
            Record (lit "t2") (lit "manual") (lit "b") [] (lit "b")] 0).
  left. by vm_compute.
Defined.

End session_facts.
